(** * Sequence alignment: Needleman-Wunsch and Smith-Waterman

    A shallow embedding of the two dynamic-programming aligners of the
    notebook ([NW_makeTable], [NW_traceBack], [NeedlemanWunsch],
    [SW_makeTable], [SW_traceBack], [SmithWaterman]) and the properties of
    the alignment engine.

    Python values are modelled as follows: [int] is [Z], [str] is a list of
    characters, a list of lists is [list (list Z)], subscripts follow
    Python's rules (a negative subscript counts from the end, anything
    else out of range raises), and the [results] list that the traceback
    appends to is threaded as explicit state. *)

From Stdlib Require Import ZArith Ascii String.
From stdpp Require Import base list.

Local Open Scope Z_scope.

(** ** Python values and exceptions *)

Definition str := list ascii.

(** Literals are written as Rocq strings. *)
Definition s (lit : string) : str := list_ascii_of_string lit.

(** Both kinds of failure are [IndexError] in Python; they differ by who
    raises them: the explicit [raise] at the head of the tracebacks, or a
    subscript of a list or of a string. *)
Inductive exn : Type :=
  | TracebackOutOfBounds (i j : Z)
  | SubscriptOutOfRange.

Inductive result (A : Type) : Type :=
  | Ok (a : A)
  | Raise (e : exn).
Arguments Ok {A} a.
Arguments Raise {A} e.

#[global] Instance result_ret : MRet result := fun _ a => Ok a.
#[global] Instance result_bind : MBind result := fun _ _ f r =>
  match r with
  | Ok a => f a
  | Raise e => Raise e
  end.

Definition len {A} (l : list A) : Z := Z.of_nat (length l).

(** [l[i]]: a negative subscript is shifted by the length once. *)
Definition subscript {A} (l : list A) (i : Z) : result A :=
  let k := if i <? 0 then i + len l else i in
  if k <? 0 then Raise SubscriptOutOfRange
  else match l !! Z.to_nat k with
       | Some x => Ok x
       | None => Raise SubscriptOutOfRange
       end.

(** [l[i] = v]. *)
Definition store {A} (l : list A) (i : Z) (v : A) : result (list A) :=
  let k := if i <? 0 then i + len l else i in
  if k <? 0 then Raise SubscriptOutOfRange
  else if k <? len l then Ok (<[Z.to_nat k := v]> l)
  else Raise SubscriptOutOfRange.

Definition table := list (list Z).

(** [table[i][j]]. *)
Definition cell (t : table) (i j : Z) : result Z :=
  row ← subscript t i; subscript row j.

(** [table[i][j] = v]: the row object is updated in place; the rows of a
    table are distinct objects, so only row [i] changes. *)
Definition set_cell (t : table) (i j : Z) (v : Z) : result table :=
  row ← subscript t i; row' ← store row j v; store t i row'.

(** [for k in range(a, b): s = body(k, s)]. *)
Fixpoint for_from {St} (count : nat) (k : Z) (body : Z → St → result St) (st : St)
  : result St :=
  match count with
  | O => Ok st
  | S count' => st' ← body k st; for_from count' (k + 1) body st'
  end.

Definition for_range {St} (a b : Z) (body : Z → St → result St) (st : St) : result St :=
  for_from (Z.to_nat (b - a)) a body st.

(** ** Table construction *)

Definition NW_makeTable (X Y : str) (g : Z) : result table :=
  let table0 : table := [] in
  table1 ← for_range 0 (len X + 1)
              (fun _ t => Ok (t ++ [replicate (Z.to_nat (len Y + 1)) 0])) table0;
  table2 ← for_range 0 (len X + 1) (fun i t => set_cell t i 0 (i * g)) table1;
  for_range 0 (len Y + 1) (fun j t => set_cell t 0 j (j * g)) table2.

Definition SW_makeTable (X Y : str) : result table :=
  let table0 : table := [] in
  for_range 0 (len X + 1)
    (fun _ t => Ok (t ++ [replicate (Z.to_nat (len Y + 1)) 0])) table0.

(** ** Table fill *)

(** [score = lambda a, b: match if a == b else mismatch] *)
Definition score (mtch mismatch : Z) (a b : ascii) : Z :=
  if Ascii.eqb a b then mtch else mismatch.

Definition max3 (a b c : Z) : Z := Z.max (Z.max a b) c.

(** The loop of [NeedlemanWunsch]; [X] and [Y] carry the sentinel. *)
Definition NW_fill (t : table) (X Y : str) (gap mtch mismatch : Z) : result table :=
  for_range 1 (len t) (fun i t =>
    row ← subscript t i;
    for_range 1 (len row) (fun j t =>
      d ← cell t (i - 1) (j - 1);
      xi ← subscript X i;
      yj ← subscript Y j;
      let a := d + score mtch mismatch xi yj in
      u ← cell t (i - 1) j;
      let b := u + gap in
      l ← cell t i (j - 1);
      let c := l + gap in
      set_cell t i j (max3 a b c)) t) t.

(** The loop of [SmithWaterman]. *)
Definition SW_fill (t : table) (X Y : str) (gap mtch mismatch : Z) : result table :=
  for_range 1 (len t) (fun i t =>
    row ← subscript t i;
    for_range 1 (len row) (fun j t =>
      d ← cell t (i - 1) (j - 1);
      xi ← subscript X i;
      yj ← subscript Y j;
      let a := d + score mtch mismatch xi yj in
      u ← cell t (i - 1) j;
      let b := u + gap in
      l ← cell t i (j - 1);
      let c := l + gap in
      set_cell t i j (max3 a b c)) t) t.

(** ** Traceback *)

Definition alignment : Type := str * str.

(** A computation over the shared [results] list.  [None] is fuel
    exhaustion: the fuel of a traceback is the number of nested calls it
    may still make, and a traceback that asks for more does not come back.
    A raised exception keeps the list as it was when the exception left
    the computation. *)
Definition M (A : Type) : Type :=
  list alignment → option (list alignment * result A).

#[global] Instance M_ret : MRet M := fun _ a rs => Some (rs, Ok a).
#[global] Instance M_bind : MBind M := fun _ _ f c rs =>
  match c rs with
  | Some (rs', Ok a) => f a rs'
  | Some (rs', Raise e) => Some (rs', Raise e)
  | None => None
  end.

Definition lift {A} (r : result A) : M A := fun rs => Some (rs, r).
Definition raise {A} (e : exn) : M A := fun rs => Some (rs, Raise e).
Definition append (p : alignment) : M unit := fun rs => Some (rs ++ [p], Ok tt).
Definition out_of_fuel {A} : M A := fun _ => None.
Definition when (b : bool) (c : M unit) : M unit := if b then c else mret tt.

Definition gap_marker : ascii := "-"%char.
Definition sentinel : ascii := "*"%char.

Fixpoint NW_traceBack (fuel : nat) (t : table) (X Y : str) (g m n : Z)
    (i j : Z) (a1 a2 : str) : M unit :=
  match fuel with
  | O => out_of_fuel
  | S fuel =>
    if (i <? 0) || (j <? 0) then raise (TracebackOutOfBounds i j) else
    when ((i =? 0) && negb (j =? 0))
      (yj ← lift (subscript Y j);
       NW_traceBack fuel t X Y g m n i (j - 1) (a1 ++ [gap_marker]) (a2 ++ [yj]));;
    when ((j =? 0) && negb (i =? 0))
      (xi ← lift (subscript X i);
       NW_traceBack fuel t X Y g m n (i - 1) j (a1 ++ [xi]) (a2 ++ [gap_marker]));;
    if (i =? 0) && (j =? 0) then
      append (rev a1, rev a2)
    else
      a ← lift (cell t i j);
      b ← lift (cell t (i - 1) j);
      c ← lift (cell t i (j - 1));
      d ← lift (cell t (i - 1) (j - 1));
      is_match ← (if a - d =? m
                  then xi ← lift (subscript X i); yj ← lift (subscript Y j);
                       mret (Ascii.eqb xi yj)
                  else mret false);
      when is_match
        (xi ← lift (subscript X i); yj ← lift (subscript Y j);
         NW_traceBack fuel t X Y g m n (i - 1) (j - 1) (a1 ++ [xi]) (a2 ++ [yj]));;
      is_mismatch ← (if a - d =? n
                     then xi ← lift (subscript X i); yj ← lift (subscript Y j);
                          mret (negb (Ascii.eqb xi yj))
                     else mret false);
      when is_mismatch
        (xi ← lift (subscript X i); yj ← lift (subscript Y j);
         NW_traceBack fuel t X Y g m n (i - 1) (j - 1) (a1 ++ [xi]) (a2 ++ [yj]));;
      when (a - b =? g)
        (xi ← lift (subscript X i);
         NW_traceBack fuel t X Y g m n (i - 1) j (a1 ++ [xi]) (a2 ++ [gap_marker]));;
      when (a - c =? g)
        (yj ← lift (subscript Y j);
         NW_traceBack fuel t X Y g m n i (j - 1) (a1 ++ [gap_marker]) (a2 ++ [yj]))
  end.

Fixpoint SW_traceBack (fuel : nat) (t : table) (X Y : str) (g m n : Z)
    (i j : Z) (a1 a2 : str) : M unit :=
  match fuel with
  | O => out_of_fuel
  | S fuel =>
    if (i <? 0) || (j <? 0) then raise (TracebackOutOfBounds i j) else
    if (i =? 0) || (j =? 0) then
      append (rev a1, rev a2)
    else
      a ← lift (cell t i j);
      b ← lift (cell t (i - 1) j);
      c ← lift (cell t i (j - 1));
      d ← lift (cell t (i - 1) (j - 1));
      is_match ← (if a - d =? m
                  then xi ← lift (subscript X i); yj ← lift (subscript Y j);
                       mret (Ascii.eqb xi yj)
                  else mret false);
      when is_match
        (xi ← lift (subscript X i); yj ← lift (subscript Y j);
         SW_traceBack fuel t X Y g m n (i - 1) (j - 1) (a1 ++ [xi]) (a2 ++ [yj]));;
      is_mismatch ← (if a - d =? n
                     then xi ← lift (subscript X i); yj ← lift (subscript Y j);
                          mret (negb (Ascii.eqb xi yj))
                     else mret false);
      when is_mismatch
        (xi ← lift (subscript X i); yj ← lift (subscript Y j);
         SW_traceBack fuel t X Y g m n (i - 1) (j - 1) (a1 ++ [xi]) (a2 ++ [yj]));;
      when (a - b =? g)
        (xi ← lift (subscript X i);
         SW_traceBack fuel t X Y g m n (i - 1) j (a1 ++ [xi]) (a2 ++ [gap_marker]));;
      when (a - c =? g)
        (yj ← lift (subscript Y j);
         SW_traceBack fuel t X Y g m n i (j - 1) (a1 ++ [gap_marker]) (a2 ++ [yj]))
  end.

(** ** The aligners *)

(** The table of [NeedlemanWunsch] after its fill loop. *)
Definition NW_filled (X Y : str) (gap mtch mismatch : Z) : result table :=
  t ← NW_makeTable X Y gap;
  NW_fill t (sentinel :: X) (sentinel :: Y) gap mtch mismatch.

Definition SW_filled (X Y : str) (gap mtch mismatch : Z) : result table :=
  t ← SW_makeTable X Y;
  SW_fill t (sentinel :: X) (sentinel :: Y) gap mtch mismatch.

(** [table[len(table)-1][len(table[0])-1]], the score both aligners print. *)
Definition corner (t : table) : result Z :=
  row0 ← subscript t 0; cell t (len t - 1) (len row0 - 1).

(** Running a traceback on an empty [results] list and returning the list. *)
Definition run (c : M unit) : option (result (list alignment)) :=
  match c [] with
  | None => None
  | Some (rs, Ok _) => Some (Ok rs)
  | Some (_, Raise e) => Some (Raise e)
  end.

Definition NeedlemanWunsch (X Y : str) (gap mtch mismatch : Z)
  : option (result (list alignment)) :=
  match NW_filled X Y gap mtch mismatch with
  | Raise e => Some (Raise e)
  | Ok t =>
    let X := sentinel :: X in
    let Y := sentinel :: Y in
    run (NW_traceBack (length X + length Y) t X Y gap mtch mismatch
           (len X - 2) (len Y - 2) [] [])
  end.

(** The scan for the highest-scoring position; the state is
    [(max_pos, max_val)]. *)
Definition SW_locate (t : table) : result ((Z * Z) * Z) :=
  for_range 1 (len t) (fun i st =>
    row ← subscript t i;
    for_range 1 (len row) (fun j st =>
      v ← cell t i j;
      if snd st <? v then Ok ((i, j), v) else Ok st) st) ((0, 0), 0).

Definition SmithWaterman (X Y : str) (gap mtch mismatch : Z)
  : option (result (list alignment)) :=
  match SW_filled X Y gap mtch mismatch with
  | Raise e => Some (Raise e)
  | Ok t =>
    let X := sentinel :: X in
    let Y := sentinel :: Y in
    match SW_locate t with
    | Raise e => Some (Raise e)
    | Ok (max_pos, max_val) =>
      run (SW_traceBack (length X + length Y) t X Y gap mtch mismatch
             (fst max_pos) (snd max_pos) [] [])
    end
  end.

(** ** The aligners under the interpreter's call-depth limit

    The recursion of the tracebacks is recursion of the interpreter, which
    allows only so many nested calls.  [NeedlemanWunsch] and
    [SmithWaterman] above are the aligners when the interpreter allows as
    many nested calls as the traceback asks for.  The aligners below are
    the same code when the interpreter allows [depth] more nested calls at
    the point where the aligner calls its traceback: the fuel of the
    traceback is that number, and [None] is the interpreter's error
    "maximum recursion depth exceeded", which ends the call. *)
Definition NeedlemanWunsch_within (depth : nat) (X Y : str) (gap mtch mismatch : Z)
  : option (result (list alignment)) :=
  match NW_filled X Y gap mtch mismatch with
  | Raise e => Some (Raise e)
  | Ok t =>
    let X := sentinel :: X in
    let Y := sentinel :: Y in
    run (NW_traceBack depth t X Y gap mtch mismatch
           (len X - 2) (len Y - 2) [] [])
  end.

Definition SmithWaterman_within (depth : nat) (X Y : str) (gap mtch mismatch : Z)
  : option (result (list alignment)) :=
  match SW_filled X Y gap mtch mismatch with
  | Raise e => Some (Raise e)
  | Ok t =>
    let X := sentinel :: X in
    let Y := sentinel :: Y in
    match SW_locate t with
    | Raise e => Some (Raise e)
    | Ok (max_pos, max_val) =>
      run (SW_traceBack depth t X Y gap mtch mismatch
             (fst max_pos) (snd max_pos) [] [])
    end
  end.

(** * The Bloom filter

    [is_prime], [get_primes] and the class [BloomFilter] of the Bloom
    filter notebook.  Two things are taken as parameters: the built-in
    [hash] of the items, and [int(n ** 0.5)], the truncated floating-point
    square root in [is_prime].  A filter object is a record; the methods
    that change it return the new record. *)

(** What a method of the filter can raise: [IndexError] from a subscript
    and [ZeroDivisionError] from [%]. *)
Inductive attempt (A : Type) : Type :=
  | Value (a : A)
  | IndexError
  | ZeroDivisionError.
Arguments Value {A} a.
Arguments IndexError {A}.
Arguments ZeroDivisionError {A}.

#[global] Instance attempt_ret : MRet attempt := fun _ a => Value a.
#[global] Instance attempt_bind : MBind attempt := fun _ _ f r =>
  match r with
  | Value a => f a
  | IndexError => IndexError
  | ZeroDivisionError => ZeroDivisionError
  end.

(** A subscript of the alignment model, as an [attempt]. *)
Definition index_error {A} (r : result A) : attempt A :=
  match r with
  | Ok a => Value a
  | Raise _ => IndexError
  end.

(** [xrange(start, stop, step)] for a positive [step]. *)
Definition xrange (start stop step : Z) : list Z :=
  map (fun k => start + Z.of_nat k * step)
      (seq 0 (Z.to_nat ((stop - start + step - 1) / step))).

(** The loop of [is_prime]: [False] at the first divisor. *)
Fixpoint no_divisor (n : Z) (candidates : list Z) : bool :=
  match candidates with
  | [] => true
  | i :: rest => if n mod i =? 0 then false else no_divisor n rest
  end.

Record BloomFilter : Type := {
  n_tables : Z;
  primes : list Z;
  tables : list (list bool)
}.

Section BloomFilterModel.
Context {item : Type} (hash : item → Z).
(** [int(n ** 0.5)] *)
Variable int_root : Z → Z.

Definition is_prime (n : Z) : bool :=
  if n <? 2 then false
  else if n =? 2 then true
  else if n mod 2 =? 0 then false
  else no_divisor n (xrange 3 (int_root n + 1) 2).

(** The [while] loop of [get_primes]; [None] is fuel exhaustion. *)
Fixpoint get_primes_loop (fuel : nat) (found : list Z) (cur_num n_primes : Z)
  : option (list Z) :=
  match fuel with
  | O => None
  | S fuel =>
    if negb (len found =? n_primes) && (0 <? cur_num) then
      let found := if is_prime cur_num then found ++ [cur_num] else found in
      get_primes_loop fuel found (cur_num - 2) n_primes
    else Some found
  end.

Definition get_primes (start n_primes : Z) : option (list Z) :=
  let cur_num := if start mod 2 =? 0 then start - 1 else start in
  get_primes_loop (S (Z.to_nat cur_num)) [] cur_num n_primes.

(** [BloomFilter.__init__] *)
Definition BloomFilter_init (n_bins n_tables : Z) : option BloomFilter :=
  found ← get_primes n_bins n_tables;
  Some {| n_tables := n_tables;
          primes := found;
          tables := map (fun b => replicate (Z.to_nat b) false) found |}.

(** [[h % p for p in primes]] *)
Fixpoint indices_of (h : Z) (ps : list Z) : attempt (list Z) :=
  match ps with
  | [] => Value []
  | p :: ps' =>
    if p =? 0 then ZeroDivisionError
    else rest ← indices_of h ps'; Value (h mod p :: rest)
  end.

Definition get_indices (self : BloomFilter) (x : item) : attempt (list Z) :=
  indices_of (hash x) (primes self).

(** [for n, idx in enumerate(...): self.tables[n][idx] = True], from
    position [n] on. *)
Fixpoint add_loop (n : Z) (idxs : list Z) (ts : list (list bool))
  : attempt (list (list bool)) :=
  match idxs with
  | [] => Value ts
  | idx :: rest =>
    row ← index_error (subscript ts n);
    row' ← index_error (store row idx true);
    ts' ← index_error (store ts n row');
    add_loop (n + 1) rest ts'
  end.

Definition add (self : BloomFilter) (x : item) : attempt BloomFilter :=
  idxs ← get_indices self x;
  ts ← add_loop 0 idxs (tables self);
  Value {| n_tables := n_tables self; primes := primes self; tables := ts |}.

(** The counting loop of [__contains__], from position [n] on. *)
Fixpoint count_loop (n : Z) (idxs : list Z) (ts : list (list bool)) (count : Z)
  : attempt Z :=
  match idxs with
  | [] => Value count
  | idx :: rest =>
    row ← index_error (subscript ts n);
    v ← index_error (subscript row idx);
    count_loop (n + 1) rest ts (if (v : bool) then count + 1 else count)
  end.

(** [BloomFilter.__contains__] *)
Definition contains (self : BloomFilter) (x : item) : attempt bool :=
  idxs ← get_indices self x;
  count ← count_loop 0 idxs (tables self) 0;
  Value (count =? n_tables self).
End BloomFilterModel.

(** * Definitions used to state the properties *)

(** Pure accessors, used to state what the tables hold. *)
Definition get (t : table) (i j : Z) : Z :=
  nth (Z.to_nat j) (nth (Z.to_nat i) t []) 0.

Definition char_at (X : str) (i : Z) : ascii := nth (Z.to_nat i) X sentinel.

(** [shape t r c]: [r] rows of [c] cells each. *)
Definition shape (t : table) (r c : Z) : Prop :=
  len t = r ∧ Forall (fun row => len row = c) t.

(** The recurrence of the fill loop at cell [(i, j)] of a table. *)
Definition recurrence (X Y : str) (gap mtch mismatch : Z) (t : table) (i j : Z)
  : Prop :=
  get t i j =
  max3 (get t (i - 1) (j - 1) + score mtch mismatch (char_at X i) (char_at Y j))
       (get t (i - 1) j + gap)
       (get t i (j - 1) + gap).

(** State of the table when the loops are about to write cell [(i, j)]:
    the boundary and the cells still to come are as they were in [t0], the
    cells already written obey the recurrence. *)
Definition fill_inv (X Y : str) (gap mtch mismatch : Z) (t0 : table)
    (r c i j : Z) (t : table) : Prop :=
  shape t r c ∧
  (∀ i' j', 0 <= i' < r → 0 <= j' < c →
            i' = 0 ∨ j' = 0 ∨ i < i' ∨ (i' = i ∧ j <= j') →
            get t i' j' = get t0 i' j') ∧
  (∀ i' j', 1 <= i' < r → 1 <= j' < c →
            i' < i ∨ (i' = i ∧ j' < j) → recurrence X Y gap mtch mismatch t i' j').

(** One column of an alignment: a symbol of each sequence, a symbol of [X]
    over a gap, or a gap over a symbol of [Y]. *)
Inductive column : Type :=
  | Both (x y : ascii)
  | GapInY (x : ascii)
  | GapInX (y : ascii).

Fixpoint top (a : list column) : str :=
  match a with
  | [] => []
  | Both x _ :: a' => x :: top a'
  | GapInY x :: a' => x :: top a'
  | GapInX _ :: a' => top a'
  end.

Fixpoint bottom (a : list column) : str :=
  match a with
  | [] => []
  | Both _ y :: a' => y :: bottom a'
  | GapInY _ :: a' => bottom a'
  | GapInX y :: a' => y :: bottom a'
  end.

(** [a] is an alignment of [X] and [Y]. *)
Definition aligns (X Y : str) (a : list column) : Prop :=
  top a = X ∧ bottom a = Y.

Definition column_is_match (c : column) : bool :=
  match c with Both x y => Ascii.eqb x y | _ => false end.
Definition column_is_mismatch (c : column) : bool :=
  match c with Both x y => negb (Ascii.eqb x y) | _ => false end.
Definition column_is_gap (c : column) : bool :=
  match c with Both _ _ => false | _ => true end.

Definition count (p : column → bool) (a : list column) : Z :=
  len (List.filter p a).

(** matches * match + mismatches * mismatch + gaps * gap *)
Definition alignment_score (gap mtch mismatch : Z) (a : list column) : Z :=
  count column_is_match a * mtch + count column_is_mismatch a * mismatch + count column_is_gap a * gap.

Definition column_score (gap mtch mismatch : Z) (c : column) : Z :=
  match c with
  | Both x y => score mtch mismatch x y
  | _ => gap
  end.

(** The best score of two sequences, by recursion on their first
    symbols. *)
Fixpoint best (gap mtch mismatch : Z) (xs : str) : str → Z :=
  match xs with
  | [] => fun ys => len ys * gap
  | x :: xs' =>
    fix best_row (ys : str) : Z :=
      match ys with
      | [] => len xs * gap
      | y :: ys' =>
        max3 (best gap mtch mismatch xs' ys' + score mtch mismatch x y)
             (best gap mtch mismatch xs' ys + gap)
             (best_row ys' + gap)
      end
  end.

(** [(i', j')] comes before [(i, j)] in the row-major scan. *)
Definition before (i j i' j' : Z) : Prop := i' < i ∨ (i' = i ∧ j' < j).

(** [(i, j)] is an interior cell of a table of [r] rows and [c] columns. *)
Definition interior (r c i j : Z) : Prop := 1 <= i < r ∧ 1 <= j < c.

(** State of the scan when it is about to look at cell [(i, j)]. *)
Definition locate_inv (t : table) (r c : Z) (i j : Z) (st : (Z * Z) * Z) : Prop :=
  let pos := fst st in
  let val := snd st in
  (∀ i' j', interior r c i' j' → before i j i' j' → get t i' j' <= val) ∧
  ((pos = (0, 0) ∧ val = 0) ∨
   (interior r c (fst pos) (snd pos) ∧ before i j (fst pos) (snd pos) ∧
    get t (fst pos) (snd pos) = val ∧ 0 < val ∧
    ∀ i' j', interior r c i' j' → before (fst pos) (snd pos) i' j' →
             get t i' j' < val)).

(** [post E c]: from every [results] list, [c] comes to an end within the
    fuel, and whatever it raises is in [E]. *)
Definition post {A} (E : exn → Prop) (c : M A) : Prop :=
  ∀ rs, ∃ rs' r, c rs = Some (rs', r) ∧ ∀ e, r = Raise e → E e.

(** The two strands in which the traceback writes an alignment. *)
Definition strand_top (cols : list column) : str :=
  map (fun col => match col with
                  | Both x _ => x
                  | GapInY x => x
                  | GapInX _ => gap_marker
                  end) cols.

Definition strand_bottom (cols : list column) : str :=
  map (fun col => match col with
                  | Both _ y => y
                  | GapInY _ => gap_marker
                  | GapInX y => y
                  end) cols.

(** [emits Q P c]: every pair that [c] appends to [results] satisfies [Q]
    (nothing else happens to [results]), and a value it returns
    satisfies [P]. *)
Definition emits {A} (Q : alignment → Prop) (P : A → Prop) (c : M A) : Prop :=
  ∀ rs rs' r, c rs = Some (rs', r) →
    (∃ new, rs' = rs ++ new ∧ Forall Q new) ∧ ∀ a, r = Ok a → P a.

(** What a pair appended by the traceback from cell [(i, j)] with the
    accumulated strands [a1], [a2] looks like: an alignment of the first [i]
    symbols of [X] with the first [j] symbols of [Y] whose score is the
    value of the cell, written in front of what was accumulated. *)
Definition traced (X Y : str) (gap mtch mismatch : Z) (t : table)
    (i j : Z) (a1 a2 : str) (p : alignment) : Prop :=
  ∃ cols,
    aligns (take (Z.to_nat i) X) (take (Z.to_nat j) Y) cols ∧
    alignment_score gap mtch mismatch cols = get t i j ∧
    p = (strand_top cols ++ rev a1, strand_bottom cols ++ rev a2).

(** Strand without its gap markers. *)
Definition degap (a : str) : str :=
  List.filter (fun ch => negb (Ascii.eqb ch gap_marker)) a.

(** The columns of a returned pair of strands. *)
Definition pair_columns (p : alignment) : list column :=
  zip_with (fun x y =>
              if Ascii.eqb x gap_marker then GapInX y
              else if Ascii.eqb y gap_marker then GapInY x
              else Both x y) (fst p) (snd p).

(** The ten pairs the notebook records for its first demonstration. *)
Definition scenario1_pairs : list alignment :=
  [ (s "A-TT----CGGC-", s "AGTTGGGCCCGCG");
    (s "A-TT---C-GGC-", s "AGTTGGGCCCGCG");
    (s "A-TT---CG-GC-", s "AGTTGGGCCCGCG");
    (s "A-TT-CG---GC-", s "AGTTGGGCCCGCG");
    (s "A-TTC-G---GC-", s "AGTTGGGCCCGCG");
    (s "A-TTCG----GC-", s "AGTTGGGCCCGCG");
    (s "A-TTCGG----C-", s "AGTTGGGCCCGCG");
    (s "A-TTCGG--C---", s "AGTTGGGCCCGCG");
    (s "A-TTCGG-C----", s "AGTTGGGCCCGCG");
    (s "A-TTCGGC-----", s "AGTTGGGCCCGCG") ].

(** ** Definitions for the further properties *)

(** An alignment of [X] and [Y] read as an alignment of [Y] and [X]. *)
Definition flip (col : column) : column :=
  match col with
  | Both x y => Both y x
  | GapInY x => GapInX x
  | GapInX y => GapInY y
  end.

(** [p] scores at least as much as every alignment of [X] and [Y]. *)
Definition optimal (gap mtch mismatch : Z) (X Y : str) (cols : list column) : Prop :=
  aligns X Y cols ∧
  ∀ a, aligns X Y a →
       alignment_score gap mtch mismatch a <= alignment_score gap mtch mismatch cols.

(** [X] without its last symbol. *)
Definition but_last (X : str) : str := take (length X - 1) X.

(** [yields p c]: when [c] returns, [p] is in the [results] list. *)
Definition yields (p : alignment) (c : M unit) : Prop :=
  ∀ rs rs', c rs = Some (rs', Ok tt) → In p rs'.

(** [grows c]: all that [c] does to the [results] list is to append to it. *)
Definition grows {A} (c : M A) : Prop :=
  emits (fun _ => True) (fun _ => True) c.

(** What a pair appended by the local traceback from cell [(i, j)] looks
    like: an alignment of the symbols [i0+1 .. i] of [X] with the symbols
    [j0+1 .. j] of [Y], where [(i0, j0)] is the cell of row 0 or column 0 at
    which the traceback stopped; its score is the difference of the two
    cells. *)
Definition traced_local (X Y : str) (gap mtch mismatch : Z) (t : table)
    (i j : Z) (a1 a2 : str) (p : alignment) : Prop :=
  ∃ i0 j0 cols,
    0 <= i0 <= i ∧ 0 <= j0 <= j ∧ (i0 = 0 ∨ j0 = 0) ∧
    aligns (drop (Z.to_nat i0) (take (Z.to_nat i) X))
           (drop (Z.to_nat j0) (take (Z.to_nat j) Y)) cols ∧
    alignment_score gap mtch mismatch cols = get t i j - get t i0 j0 ∧
    p = (strand_top cols ++ rev a1, strand_bottom cols ++ rev a2).

(** [adds c]: when [c] returns, the [results] list is longer than before. *)
Definition adds (c : M unit) : Prop :=
  ∀ rs rs', c rs = Some (rs', Ok tt) → (length rs < length rs')%nat.

(** [returns c v]: [c] gives [v], whatever the [results] list is, and
    leaves the list alone. *)
Definition returns {A} (c : M A) (v : A) : Prop :=
  ∀ rs, c rs = Some (rs, Ok v).

(** [overflows c]: [c] asks for more nested calls than there are. *)
Definition overflows {A} (c : M A) : Prop := ∀ rs, c rs = None.

(** ** Definitions for the Bloom filter *)

(** Every table has the size of its prime, and the primes are positive. *)
Definition sized (f : BloomFilter) : Prop :=
  Forall2 (fun p row => 0 < p ∧ len row = p) (primes f) (tables f).

(** The bins of a hash value, one per table. *)
Definition bins (h : Z) (ps : list Z) : list Z := map (fun p => h mod p) ps.

(** The tables after the bins [idxs] have been set. *)
Definition set_bins (idxs : list Z) (rows : list (list bool)) : list (list bool) :=
  zip_with (fun idx row => <[Z.to_nat idx := true]> row) idxs rows.

(** In how many tables the bin of [idxs] is set. *)
Fixpoint hits (idxs : list Z) (rows : list (list bool)) : Z :=
  match idxs, rows with
  | idx :: idxs', row :: rows' =>
    (if nth (Z.to_nat idx) row false then 1 else 0) + hits idxs' rows'
  | _, _ => 0
  end.

(** In every table the bin of [idxs] is set. *)
Definition all_set (idxs : list Z) (rows : list (list bool)) : Prop :=
  Forall2 (fun idx row => nth (Z.to_nat idx) row false = true) idxs rows.

(** [l] is strictly decreasing. *)
Definition decreasing (l : list Z) : Prop :=
  ∀ (i j : nat) p q, (i < j)%nat → l !! i = Some p → l !! j = Some q → q < p.

(** State of the loop of [get_primes]: [found] holds, in decreasing order,
    the odd numbers above [cur_num] and up to the first candidate [c0]
    that pass [is_prime]. *)
Definition get_primes_inv (int_root : Z → Z) (c0 n_primes : Z)
    (found : list Z) (cur_num : Z) : Prop :=
  cur_num mod 2 = 1 ∧ cur_num <= c0 ∧ (found = [] ∨ -1 <= cur_num) ∧
  (∀ q, In q found ↔
        cur_num < q <= c0 ∧ q mod 2 = 1 ∧ is_prime int_root q = true) ∧
  decreasing found ∧
  (0 <= n_primes → len found <= n_primes).

(** [BloomFilter(12, 2)] and [BloomFilter(3, 4)] as built by [__init__]
    (the second has one prime for four tables). *)
Definition filter_12_2 : BloomFilter :=
  {| n_tables := 2; primes := [11; 7];
     tables := [replicate 11 false; replicate 7 false] |}.

Definition filter_3_4 : BloomFilter :=
  {| n_tables := 4; primes := [3]; tables := [replicate 3 false] |}.

(** [filter_12_2] after [add(25)], the hash of an integer being itself. *)
Definition filter_12_2_with_25 : BloomFilter :=
  {| n_tables := 2; primes := [11; 7];
     tables := [<[3%nat := true]> (replicate 11 false);
                <[4%nat := true]> (replicate 7 false)] |}.

(** * Properties *)

(** ** Subscripts in range *)

Lemma bind_Ok {A B} (r : result A) (f : A → result B) a :
  r = Ok a → (r ≫= f) = f a.
Proof. intros ->. reflexivity. Qed.

Lemma subscript_ok {A} (l : list A) (i : Z) (d : A) :
  0 <= i < len l → subscript l i = Ok (nth (Z.to_nat i) l d).
Proof.
  unfold subscript, len. intros Hi.
  destruct (Z.ltb_spec i 0); [lia|].
  destruct (Z.ltb_spec i 0); [lia|].
  destruct (lookup_lt_is_Some_2 l (Z.to_nat i)) as [x Hx]; [lia|].
  rewrite Hx. f_equal. symmetry. by apply nth_lookup_Some.
Qed.

Lemma subscript_safe {A} (l : list A) (i : Z) :
  - len l <= i < len l → ∃ x, subscript l i = Ok x.
Proof.
  unfold subscript, len. intros Hi.
  set (k := if i <? 0 then _ else _).
  assert (0 <= k < Z.of_nat (length l)) as Hk.
  { subst k. destruct (Z.ltb_spec i 0); lia. }
  destruct (Z.ltb_spec k 0); [lia|].
  destruct (lookup_lt_is_Some_2 l (Z.to_nat k)) as [x Hx]; [lia|].
  rewrite Hx. eauto.
Qed.

Lemma subscript_In {A} (l : list A) (i : Z) x : subscript l i = Ok x → x ∈ l.
Proof.
  unfold subscript. destruct (_ <? 0); [discriminate|].
  destruct (l !! _) eqn:E; [|discriminate].
  intros [= <-]. by eapply list_elem_of_lookup_2.
Qed.

Lemma shape_row t r c i :
  shape t r c → 0 <= i < r → len (nth (Z.to_nat i) t []) = c.
Proof.
  intros [Hr Hc] Hi. unfold len in *.
  destruct (lookup_lt_is_Some_2 t (Z.to_nat i)) as [row Hrow]; [lia|].
  rewrite (nth_lookup_Some _ _ _ _ Hrow).
  rewrite Forall_lookup in Hc. by apply (Hc _ _ Hrow).
Qed.

Lemma cell_ok t r c i j :
  shape t r c → 0 <= i < r → 0 <= j < c → cell t i j = Ok (get t i j).
Proof.
  intros Hs Hi Hj. unfold cell.
  rewrite (subscript_ok t i []) by (destruct Hs; lia). simpl.
  apply subscript_ok. rewrite (shape_row t r c) by done. lia.
Qed.

Lemma cell_safe t r c i j :
  shape t r c → - r <= i < r → - c <= j < c → ∃ v, cell t i j = Ok v.
Proof.
  intros [Hr Hc] Hi Hj. unfold cell.
  destruct (subscript_safe t i) as [row Hrow]; [lia|].
  rewrite Hrow. simpl. apply subscript_safe.
  apply subscript_In in Hrow. rewrite Forall_forall in Hc.
  rewrite (Hc _ Hrow). lia.
Qed.

Lemma set_cell_ok t r c i j v :
  shape t r c → 0 <= i < r → 0 <= j < c →
  ∃ t', set_cell t i j v = Ok t' ∧ shape t' r c ∧ get t' i j = v ∧
        ∀ i' j', 0 <= i' → 0 <= j' → i' ≠ i ∨ j' ≠ j →
                 get t' i' j' = get t i' j'.
Proof.
  intros Hs Hi Hj. pose proof (shape_row t r c i Hs Hi) as Hrow.
  destruct Hs as [Hr Hc]. unfold set_cell.
  rewrite (subscript_ok t i []) by lia. simpl.
  set (row := nth (Z.to_nat i) t []) in *.
  unfold store.
  destruct (Z.ltb_spec j 0); [lia|]. destruct (Z.ltb_spec j 0); [lia|].
  destruct (Z.ltb_spec j (len row)); [|lia]. simpl.
  destruct (Z.ltb_spec i 0); [lia|]. destruct (Z.ltb_spec i 0); [lia|].
  destruct (Z.ltb_spec i (len t)); [|lia].
  eexists. split; [reflexivity|]. unfold shape, len in *.
  split; [|split].
  - split; [by rewrite length_insert|].
    apply Forall_insert; [done|]. by rewrite length_insert.
  - unfold get. rewrite !nth_lookup.
    rewrite list_lookup_insert_eq by lia. simpl.
    rewrite list_lookup_insert_eq by lia. done.
  - intros i' j' Hi' Hj' Hne. unfold get. rewrite !nth_lookup.
    destruct (decide (Z.to_nat i = Z.to_nat i')) as [Heq|Hni].
    + rewrite <- Heq. rewrite list_lookup_insert_eq by lia. simpl.
      rewrite list_lookup_insert_ne by lia.
      subst row. by rewrite !nth_lookup.
    + by rewrite list_lookup_insert_ne.
Qed.

(** ** Loops *)

Lemma for_from_inv {St} (P : Z → St → Prop) (body : Z → St → result St) count :
  ∀ k st,
    P k st →
    (∀ k' st', k <= k' < k + Z.of_nat count → P k' st' →
               ∃ st'', body k' st' = Ok st'' ∧ P (k' + 1) st'') →
    ∃ st', for_from count k body st = Ok st' ∧ P (k + Z.of_nat count) st'.
Proof.
  induction count as [|count IH]; intros k st HP Hstep.
  - exists st. split; [done|]. by replace (k + Z.of_nat 0) with k by lia.
  - destruct (Hstep k st) as (st1 & Hb & HP1); [lia|done|].
    simpl. rewrite Hb. simpl.
    destruct (IH (k + 1) st1 HP1) as (st2 & Hf & HP2).
    { intros k' st' Hk'. apply Hstep. lia. }
    exists st2. split; [done|].
    by replace (k + Z.of_nat (S count)) with (k + 1 + Z.of_nat count) by lia.
Qed.

Lemma for_range_inv {St} (P : Z → St → Prop) (body : Z → St → result St) a b st :
  a <= b →
  P a st →
  (∀ k st', a <= k < b → P k st' → ∃ st'', body k st' = Ok st'' ∧ P (k + 1) st'') →
  ∃ st', for_range a b body st = Ok st' ∧ P b st'.
Proof.
  intros Hab HP Hstep. unfold for_range.
  destruct (for_from_inv P body (Z.to_nat (b - a)) a st HP) as (st' & H1 & H2).
  { intros k st' Hk. apply Hstep. lia. }
  exists st'. split; [done|].
  by replace (a + Z.of_nat (Z.to_nat (b - a))) with b in H2 by lia.
Qed.

Lemma for_range_post {St} (P : Z → St → Prop) (Q : St → Prop)
    (body : Z → St → result St) a b st :
  a <= b →
  P a st →
  (∀ k st', a <= k < b → P k st' → ∃ st'', body k st' = Ok st'' ∧ P (k + 1) st'') →
  (∀ st', P b st' → Q st') →
  ∃ st', for_range a b body st = Ok st' ∧ Q st'.
Proof.
  intros Hab HP Hstep HQ.
  destruct (for_range_inv P body a b st Hab HP Hstep) as (st' & ? & ?). eauto.
Qed.

Lemma bind_post {A B} (r : result A) (f : A → result B) (Q : B → Prop) a :
  r = Ok a → (∃ y, f a = Ok y ∧ Q y) → ∃ y, (r ≫= f) = Ok y ∧ Q y.
Proof. by intros ->. Qed.

Lemma for_range_empty {St} (body : Z → St → result St) a b st :
  b <= a → for_range a b body st = Ok st.
Proof. intros H. unfold for_range. by replace (Z.to_nat (b - a)) with O by lia. Qed.

(** ** Table construction *)

Lemma blank_rows (r c : Z) :
  0 <= r → 0 <= c →
  ∃ t, for_range 0 r (fun _ t => Ok (t ++ [replicate (Z.to_nat c) 0])) []
       = Ok t ∧ shape t r c.
Proof.
  intros Hr Hc.
  apply (for_range_inv (fun k t => shape t k c)); [done| |].
  - split; [done|]. constructor.
  - intros k t Hk [Hlen Hrows]. eexists. split; [reflexivity|].
    unfold shape, len in *. split.
    + rewrite length_app. simpl. lia.
    + apply Forall_app. split; [done|].
      constructor; [|constructor]. rewrite length_replicate. lia.
Qed.

Lemma SW_makeTable_spec X Y :
  ∃ t, SW_makeTable X Y = Ok t ∧ shape t (len X + 1) (len Y + 1).
Proof. apply blank_rows; unfold len; lia. Qed.

Lemma NW_makeTable_spec X Y g :
  ∃ t, NW_makeTable X Y g = Ok t ∧ shape t (len X + 1) (len Y + 1) ∧
       (∀ i, 0 <= i <= len X → get t i 0 = i * g) ∧
       (∀ j, 0 <= j <= len Y → get t 0 j = j * g).
Proof.
  assert (0 <= len X ∧ 0 <= len Y) as [HX HY] by (unfold len; lia).
  unfold NW_makeTable.
  destruct (blank_rows (len X + 1) (len Y + 1)) as (t1 & -> & Hs1); [lia..|].
  simpl.
  destruct (for_range_inv
    (fun k t => shape t (len X + 1) (len Y + 1) ∧
                ∀ i, 0 <= i < k → get t i 0 = i * g)
    (fun i t => set_cell t i 0 (i * g)) 0 (len X + 1) t1)
    as (t2 & -> & Hs2 & Hcol); [lia| | |].
  { split; [done|]. intros; lia. }
  { intros k t Hk [Hs Hc].
    destruct (set_cell_ok t _ _ k 0 (k * g) Hs) as (t' & -> & Hs' & Hv & Hoth);
      [lia..|].
    exists t'. split; [done|]. split; [done|].
    intros i Hi. destruct (decide (i = k)) as [->|Hne]; [done|].
    rewrite Hoth by lia. apply Hc. lia. }
  simpl.
  destruct (for_range_inv
    (fun k t => shape t (len X + 1) (len Y + 1) ∧
                (∀ i, 1 <= i <= len X → get t i 0 = i * g) ∧
                (∀ j, 0 <= j < k → get t 0 j = j * g))
    (fun j t => set_cell t 0 j (j * g)) 0 (len Y + 1) t2)
    as (t3 & -> & Hs3 & Hcol3 & Hrow3); [lia| | |].
  { split; [done|]. split; [|intros; lia]. intros i Hi. apply Hcol. lia. }
  { intros k t Hk (Hs & Hc & Hr).
    destruct (set_cell_ok t _ _ 0 k (k * g) Hs) as (t' & -> & Hs' & Hv & Hoth);
      [lia..|].
    exists t'. split; [done|]. split; [done|]. split.
    - intros i Hi. rewrite Hoth by lia. by apply Hc.
    - intros j Hj. destruct (decide (j = k)) as [->|Hne]; [done|].
      rewrite Hoth by lia. apply Hr. lia. }
  exists t3. split; [done|]. split; [done|]. split.
  - intros i Hi. destruct (decide (i = 0)) as [->|Hne].
    + apply Hrow3. lia.
    + apply Hcol3. lia.
  - intros j Hj. apply Hrow3. lia.
Qed.

(** ** Table fill *)

Section Fill.
Variables (X Y : str) (gap mtch mismatch : Z).

Lemma fill_cell_step t0 r c i j t :
  len X = r → len Y = c → 1 <= i < r → 1 <= j < c →
  fill_inv X Y gap mtch mismatch t0 r c i j t →
  ∃ t',
    (d ← cell t (i - 1) (j - 1);
     xi ← subscript X i;
     yj ← subscript Y j;
     let a := d + score mtch mismatch xi yj in
     u ← cell t (i - 1) j;
     let b := u + gap in
     l ← cell t i (j - 1);
     let c := l + gap in
     set_cell t i j (max3 a b c)) = Ok t' ∧
    fill_inv X Y gap mtch mismatch t0 r c i (j + 1) t'.
Proof.
  intros HX HY Hi Hj (Hs & Hold & Hrec).
  rewrite (cell_ok t r c) by (done || lia). simpl.
  rewrite (subscript_ok X i sentinel) by lia. simpl.
  rewrite (subscript_ok Y j sentinel) by lia. simpl.
  rewrite (cell_ok t r c) by (done || lia). simpl.
  rewrite (cell_ok t r c) by (done || lia). simpl.
  match goal with |- context [set_cell t i j ?v] =>
    destruct (set_cell_ok t r c i j v Hs) as (t' & -> & Hs' & Hv & Hoth)
  end; [lia..|].
  exists t'. split; [done|]. split; [done|]. split.
  - intros i' j' Hi' Hj' Hc. rewrite Hoth by lia. apply Hold; lia.
  - intros i' j' Hi' Hj' Hc. unfold recurrence.
    destruct (decide (i' = i ∧ j' = j)) as [[-> ->]|Hne].
    + rewrite Hv. rewrite !Hoth by lia. done.
    + rewrite !Hoth by lia. apply Hrec; lia.
Qed.

Lemma fill_row_step t0 r c i t :
  len X = r → len Y = c → 1 <= i < r → 1 <= c →
  fill_inv X Y gap mtch mismatch t0 r c i 1 t →
  ∃ t',
    (row ← subscript t i;
     for_range 1 (len row) (fun j t =>
       d ← cell t (i - 1) (j - 1);
       xi ← subscript X i;
       yj ← subscript Y j;
       let a := d + score mtch mismatch xi yj in
       u ← cell t (i - 1) j;
       let b := u + gap in
       l ← cell t i (j - 1);
       let c := l + gap in
       set_cell t i j (max3 a b c)) t) = Ok t' ∧
    fill_inv X Y gap mtch mismatch t0 r c (i + 1) 1 t'.
Proof.
  intros HX HY Hi Hc Hinv.
  pose proof Hinv as (Hs & _).
  eapply bind_post; [apply (subscript_ok t i []); destruct Hs; lia|].
  rewrite (shape_row t r c i Hs) by lia.
  apply (for_range_post (fill_inv X Y gap mtch mismatch t0 r c i)); [done|done| |].
  - intros j t1 Hj Ht1. by apply fill_cell_step.
  - intros t' (Hs' & Hold & Hrec). split; [done|]. split.
    + intros i' j' Hi' Hj' Hcond. apply Hold; lia.
    + intros i' j' Hi' Hj' Hcond. apply Hrec; lia.
Qed.

(** On a table of the right shape the fill loop raises nothing, leaves
    row 0 and column 0 alone and makes every interior cell obey the
    recurrence. *)
Lemma NW_fill_spec t0 r c :
  len X = r → len Y = c → 1 <= r → 1 <= c → shape t0 r c →
  ∃ t, NW_fill t0 X Y gap mtch mismatch = Ok t ∧ shape t r c ∧
       (∀ i j, 0 <= i < r → 0 <= j < c → i = 0 ∨ j = 0 →
               get t i j = get t0 i j) ∧
       (∀ i j, 1 <= i < r → 1 <= j < c → recurrence X Y gap mtch mismatch t i j).
Proof.
  intros HX HY Hr Hc Hs. unfold NW_fill.
  replace (len t0) with r by (by destruct Hs).
  apply (for_range_post (fun i => fill_inv X Y gap mtch mismatch t0 r c i 1)); [done| | |].
  - split; [done|]. split; [done|]. intros; lia.
  - intros i t Hi Hinv. by apply fill_row_step.
  - intros t (Hs' & Hold & Hrec). split; [done|]. split.
    + intros i j Hi Hj Hb. apply Hold; lia.
    + intros i j Hi Hj. apply Hrec; lia.
Qed.

Lemma SW_fill_eq t0 : SW_fill t0 X Y gap mtch mismatch = NW_fill t0 X Y gap mtch mismatch.
Proof. reflexivity. Qed.
End Fill.

(** ** Alignments and their scores *)

Section Optimal.
Variables (gap mtch mismatch : Z).

Lemma alignment_score_nil : alignment_score gap mtch mismatch [] = 0.
Proof. reflexivity. Qed.

Lemma alignment_score_cons c a :
  alignment_score gap mtch mismatch (c :: a) =
  column_score gap mtch mismatch c + alignment_score gap mtch mismatch a.
Proof.
  unfold alignment_score, count, len. simpl.
  destruct c as [x y| |]; simpl; unfold score;
    try destruct (Ascii.eqb x y); simpl length; lia.
Qed.

Lemma alignment_score_app a b :
  alignment_score gap mtch mismatch (a ++ b) =
  alignment_score gap mtch mismatch a + alignment_score gap mtch mismatch b.
Proof.
  induction a as [|c a IH]; simpl.
  - rewrite alignment_score_nil. lia.
  - rewrite !alignment_score_cons, IH. lia.
Qed.

Lemma alignment_score_rev a :
  alignment_score gap mtch mismatch (rev a) = alignment_score gap mtch mismatch a.
Proof.
  induction a as [|c a IH]; simpl; [done|].
  rewrite alignment_score_app, !alignment_score_cons, alignment_score_nil, IH. lia.
Qed.

Lemma top_app a b : top (a ++ b) = top a ++ top b.
Proof. induction a as [|[]]; simpl; congruence. Qed.

Lemma bottom_app a b : bottom (a ++ b) = bottom a ++ bottom b.
Proof. induction a as [|[]]; simpl; congruence. Qed.

Lemma top_rev a : top (rev a) = rev (top a).
Proof.
  induction a as [|c a IH]; simpl; [done|].
  rewrite top_app, IH. by destruct c; simpl; rewrite ?app_nil_r.
Qed.

Lemma bottom_rev a : bottom (rev a) = rev (bottom a).
Proof.
  induction a as [|c a IH]; simpl; [done|].
  rewrite bottom_app, IH. by destruct c; simpl; rewrite ?app_nil_r.
Qed.

Lemma aligns_rev X Y a : aligns X Y a → aligns (rev X) (rev Y) (rev a).
Proof. intros [<- <-]. split; [apply top_rev|apply bottom_rev]. Qed.

Lemma best_nil_r xs : best gap mtch mismatch xs [] = len xs * gap.
Proof. by destruct xs. Qed.

Lemma best_cons x xs y ys :
  best gap mtch mismatch (x :: xs) (y :: ys) =
  max3 (best gap mtch mismatch xs ys + score mtch mismatch x y)
       (best gap mtch mismatch xs (y :: ys) + gap)
       (best gap mtch mismatch (x :: xs) ys + gap).
Proof. reflexivity. Qed.

Lemma best_gap_in_y x xs ys : best gap mtch mismatch xs ys + gap <= best gap mtch mismatch (x :: xs) ys.
Proof.
  destruct ys as [|y ys].
  - rewrite !best_nil_r. unfold len. simpl length. lia.
  - rewrite best_cons. unfold max3. lia.
Qed.

Lemma best_gap_in_x xs y ys : best gap mtch mismatch xs ys + gap <= best gap mtch mismatch xs (y :: ys).
Proof.
  destruct xs as [|x xs].
  - simpl. unfold len. simpl length. lia.
  - rewrite best_cons. unfold max3. lia.
Qed.

Lemma best_upper a :
  ∀ xs ys, aligns xs ys a → alignment_score gap mtch mismatch a <= best gap mtch mismatch xs ys.
Proof.
  induction a as [|c a IH]; intros xs ys [Ht Hb].
  - simpl in *. subst. done.
  - rewrite alignment_score_cons. destruct c as [x y|x|y]; simpl in *; subst.
    + rewrite best_cons. specialize (IH _ _ (conj eq_refl eq_refl)).
      unfold max3. lia.
    + specialize (IH _ _ (conj eq_refl eq_refl)).
      pose proof (best_gap_in_y x (top a) (bottom a)). lia.
    + specialize (IH _ _ (conj eq_refl eq_refl)).
      pose proof (best_gap_in_x (top a) y (bottom a)). lia.
Qed.

Lemma best_attained xs :
  ∀ ys, ∃ a, aligns xs ys a ∧ alignment_score gap mtch mismatch a = best gap mtch mismatch xs ys.
Proof.
  induction xs as [|x xs IHx].
  - induction ys as [|y ys (a & [Ht Hb] & Hsc)].
    + exists []. done.
    + exists (GapInX y :: a). split; [split; simpl; congruence|].
      rewrite alignment_score_cons, Hsc. simpl. unfold len. simpl length. lia.
  - induction ys as [|y ys (a3 & [Ht3 Hb3] & Hsc3)].
    + destruct (IHx []) as (a & [Ht Hb] & Hsc).
      exists (GapInY x :: a). split; [split; simpl; congruence|].
      rewrite alignment_score_cons, Hsc, !best_nil_r. simpl.
      unfold len. simpl length. lia.
    + destruct (IHx ys) as (a1 & [Ht1 Hb1] & Hsc1).
      destruct (IHx (y :: ys)) as (a2 & [Ht2 Hb2] & Hsc2).
      rewrite best_cons.
      set (p := best gap mtch mismatch xs ys + score mtch mismatch x y).
      set (q := best gap mtch mismatch xs (y :: ys) + gap).
      set (r := best gap mtch mismatch (x :: xs) ys + gap).
      assert (max3 p q r = p ∨ max3 p q r = q ∨ max3 p q r = r) as [Hm|[Hm|Hm]]
        by (unfold max3; lia); rewrite Hm.
      * exists (Both x y :: a1). split; [split; simpl; congruence|].
        rewrite alignment_score_cons, Hsc1. subst p. simpl. lia.
      * exists (GapInY x :: a2). split; [split; simpl; congruence|].
        rewrite alignment_score_cons, Hsc2. subst q. simpl. lia.
      * exists (GapInX y :: a3). split; [split; simpl; congruence|].
        rewrite alignment_score_cons, Hsc3. subst r. simpl. lia.
Qed.
End Optimal.

(** ** The filled global table holds the best scores of the prefixes *)

Section GlobalTable.
Variables (X Y : str) (gap mtch mismatch : Z).

Lemma NW_filled_spec :
  ∃ t, NW_filled X Y gap mtch mismatch = Ok t ∧
       shape t (len X + 1) (len Y + 1) ∧
       (∀ i, 0 <= i <= len X → get t i 0 = i * gap) ∧
       (∀ j, 0 <= j <= len Y → get t 0 j = j * gap) ∧
       (∀ i j, 1 <= i <= len X → 1 <= j <= len Y →
               recurrence (sentinel :: X) (sentinel :: Y) gap mtch mismatch t i j).
Proof.
  unfold NW_filled.
  destruct (NW_makeTable_spec X Y gap) as (t0 & -> & Hs0 & Hcol & Hrow).
  cbn [mbind result_bind].
  assert (0 <= len X ∧ 0 <= len Y) as [HX HY] by (unfold len; lia).
  destruct (NW_fill_spec (sentinel :: X) (sentinel :: Y) gap mtch mismatch
              t0 (len X + 1) (len Y + 1))
    as (t & -> & Hs & Hb & Hrec); [unfold len; simpl length; lia..|done|].
  exists t. split; [done|]. split; [done|]. split; [|split].
  - intros i Hi. rewrite Hb by lia. by apply Hcol.
  - intros j Hj. rewrite Hb by lia. by apply Hrow.
  - intros i j Hi Hj. apply Hrec; lia.
Qed.

Lemma char_at_sentinel (W : str) (k : nat) x :
  W !! k = Some x → char_at (sentinel :: W) (Z.of_nat (S k)) = x.
Proof.
  intros H. unfold char_at. rewrite Nat2Z.id. simpl.
  by apply nth_lookup_Some.
Qed.

Lemma rev_take_S (W : str) (k : nat) x :
  W !! k = Some x → rev (take (S k) W) = x :: rev (take k W).
Proof. intros H. rewrite (take_S_r _ _ _ H), rev_app_distr. done. Qed.

Lemma filled_best t :
  NW_filled X Y gap mtch mismatch = Ok t →
  ∀ i j : nat, (i ≤ length X)%nat → (j ≤ length Y)%nat →
    get t (Z.of_nat i) (Z.of_nat j) =
    best gap mtch mismatch (rev (take i X)) (rev (take j Y)).
Proof.
  intros Ht.
  destruct NW_filled_spec as (t' & Ht' & Hs & Hcol & Hrow & Hrec).
  rewrite Ht in Ht'. injection Ht' as <-.
  induction i as [|i IHi].
  - intros j _ Hj. rewrite Hrow by (unfold len; lia). simpl.
    unfold len. rewrite length_rev, length_take, Nat.min_l by lia. done.
  - induction j as [|j IHj]; intros Hi Hj.
    + rewrite Hcol by (unfold len; lia). rewrite best_nil_r.
      unfold len. rewrite length_rev, length_take, Nat.min_l by lia. done.
    + destruct (lookup_lt_is_Some_2 X i) as [x Hx]; [lia|].
      destruct (lookup_lt_is_Some_2 Y j) as [y Hy]; [lia|].
      rewrite (rev_take_S X i x Hx), (rev_take_S Y j y Hy), best_cons.
      rewrite <- (rev_take_S Y j y Hy), <- (rev_take_S X i x Hx).
      rewrite <- (IHi j), <- (IHi (S j)), <- IHj by lia.
      rewrite Hrec by (unfold len; lia).
      rewrite (char_at_sentinel X i x Hx), (char_at_sentinel Y j y Hy).
      replace (Z.of_nat (S i) - 1) with (Z.of_nat i) by lia.
      replace (Z.of_nat (S j) - 1) with (Z.of_nat j) by lia.
      done.
Qed.

Lemma corner_spec t r c :
  shape t r c → 1 <= r → 1 <= c → corner t = Ok (get t (r - 1) (c - 1)).
Proof.
  intros Hs Hr Hc. unfold corner.
  rewrite (subscript_ok t 0 []) by (destruct Hs; lia). cbn [mbind result_bind].
  change (Z.to_nat 0) with O.
  pose proof (shape_row t r c 0 Hs) as Hrow. change (Z.to_nat 0) with O in Hrow.
  rewrite Hrow by lia. destruct Hs as [Hlen Hrows]. rewrite Hlen.
  apply (cell_ok t r c); [done|lia..].
Qed.

(** The score the global aligner reports is the maximum of the scores of
    all alignments of [X] and [Y]. *)
Lemma global_score_optimal :
  ∃ t sc, NW_filled X Y gap mtch mismatch = Ok t ∧
          corner t = Ok sc ∧
          sc = get t (len X) (len Y) ∧
          (∀ a, aligns X Y a → alignment_score gap mtch mismatch a <= sc) ∧
          (∃ a, aligns X Y a ∧ alignment_score gap mtch mismatch a = sc).
Proof.
  destruct NW_filled_spec as (t & Ht & Hs & _).
  assert (0 <= len X ∧ 0 <= len Y) as [HX HY] by (unfold len; lia).
  exists t, (get t (len X) (len Y)). split; [done|]. split.
  { rewrite (corner_spec t _ _ Hs) by lia. do 3 f_equal; lia. }
  split; [done|].
  change (len X) with (Z.of_nat (length X)).
  change (len Y) with (Z.of_nat (length Y)).
  rewrite (filled_best t Ht (length X) (length Y)) by lia.
  rewrite !firstn_all. split.
  - intros a Ha. rewrite <- alignment_score_rev.
    apply best_upper. by apply aligns_rev.
  - destruct (best_attained gap mtch mismatch (rev X) (rev Y)) as (a & Ha & Hsc).
    exists (rev a). split.
    + apply aligns_rev in Ha. by rewrite !rev_involutive in Ha.
    + by rewrite alignment_score_rev.
Qed.
End GlobalTable.

(** ** The start cell of the local traceback *)

Section Locate.
Variables (t : table) (r c : Z).

Lemma locate_cell_step i j st :
  shape t r c → interior r c i j → locate_inv t r c i j st →
  ∃ st', (v ← cell t i j; if snd st <? v then Ok ((i, j), v) else Ok st) = Ok st' ∧
         locate_inv t r c i (j + 1) st'.
Proof.
  intros Hs [Hi Hj] [Hle Hpos].
  rewrite (cell_ok t r c) by (done || lia). cbn [mbind result_bind].
  destruct (Z.ltb_spec (snd st) (get t i j)) as [Hlt|Hge].
  - eexists. split; [reflexivity|]. split; simpl.
    + intros i' j' Hint Hbef.
      destruct (decide (i' = i ∧ j' = j)) as [[-> ->]|Hne]; [lia|].
      assert (before i j i' j') as Hb by (unfold before in *; lia).
      specialize (Hle _ _ Hint Hb). lia.
    + right. split; [done|]. split; [unfold before; lia|].
      split; [done|]. split.
      * destruct Hpos as [[_ ?]|(_ & _ & _ & ? & _)]; lia.
      * intros i' j' Hint Hbef. specialize (Hle _ _ Hint Hbef). lia.
  - exists st. split; [done|]. split.
    + intros i' j' Hint Hbef.
      destruct (decide (i' = i ∧ j' = j)) as [[-> ->]|Hne]; [lia|].
      apply Hle; [done|]. unfold before in *. lia.
    + destruct Hpos as [?|(? & ? & ? & ? & ?)]; [by left|right].
      split; [done|]. split; [unfold before in *; lia|]. done.
Qed.

Lemma locate_row_step i st :
  shape t r c → 1 <= c → 1 <= i < r → locate_inv t r c i 1 st →
  ∃ st', (row ← subscript t i;
          for_range 1 (len row) (fun j st =>
            v ← cell t i j;
            if snd st <? v then Ok ((i, j), v) else Ok st) st) = Ok st' ∧
         locate_inv t r c (i + 1) 1 st'.
Proof.
  intros Hs Hc Hi Hinv.
  eapply bind_post; [apply (subscript_ok t i []); destruct Hs; lia|].
  rewrite (shape_row t r c i Hs) by lia.
  apply (for_range_post (locate_inv t r c i)); [done|done| |].
  - intros j st1 Hj Hst1. by apply locate_cell_step.
  - intros st' [Hle Hpos]. split.
    + intros i' j' Hint Hbef. apply Hle; [done|].
      destruct Hint. unfold before in *. lia.
    + destruct Hpos as [?|(Hint & ? & ? & ? & ?)]; [by left|right].
      split; [done|]. split; [destruct Hint; unfold before in *; lia|]. done.
Qed.

Lemma SW_locate_spec :
  shape t r c → 1 <= r → 1 <= c →
  ∃ st, SW_locate t = Ok st ∧ locate_inv t r c r 1 st.
Proof.
  intros Hs Hr Hc. unfold SW_locate.
  replace (len t) with r by (by destruct Hs).
  apply (for_range_post (fun i => locate_inv t r c i 1)); [done| | |done].
  - split; [|by left]. intros i' j' [? ?] Hbef. unfold before in *. lia.
  - intros i st Hi Hinv. by apply locate_row_step.
Qed.
End Locate.

(** ** Immediate outcomes of the tracebacks *)

Lemma NW_traceBack_out_of_bounds fuel t X Y g m n i j a1 a2 rs :
  i < 0 ∨ j < 0 →
  NW_traceBack (S fuel) t X Y g m n i j a1 a2 rs
  = Some (rs, Raise (TracebackOutOfBounds i j)).
Proof.
  intros H. simpl.
  replace ((i <? 0) || (j <? 0)) with true; [done|].
  symmetry. apply orb_true_iff. rewrite !Z.ltb_lt. done.
Qed.

Lemma SW_traceBack_out_of_bounds fuel t X Y g m n i j a1 a2 rs :
  i < 0 ∨ j < 0 →
  SW_traceBack (S fuel) t X Y g m n i j a1 a2 rs
  = Some (rs, Raise (TracebackOutOfBounds i j)).
Proof.
  intros H. simpl.
  replace ((i <? 0) || (j <? 0)) with true; [done|].
  symmetry. apply orb_true_iff. rewrite !Z.ltb_lt. done.
Qed.

Lemma SW_traceBack_boundary fuel t X Y g m n i j a1 a2 rs :
  0 <= i → 0 <= j → i = 0 ∨ j = 0 →
  SW_traceBack (S fuel) t X Y g m n i j a1 a2 rs
  = Some (rs ++ [(rev a1, rev a2)], Ok tt).
Proof.
  intros Hi Hj H. simpl.
  replace ((i <? 0) || (j <? 0)) with false by lia.
  replace ((i =? 0) || (j =? 0)) with true by lia.
  done.
Qed.

(** ** Outcomes of the tracebacks *)

Section Post.
Context {A B : Type} (E : exn → Prop).

Lemma post_ret (a : A) : post E (mret a).
Proof. intros rs. exists rs, (Ok a). split; [done|]. discriminate. Qed.

Lemma post_append p : post E (append p).
Proof. intros rs. eexists _, _. split; [reflexivity|]. discriminate. Qed.

Lemma post_raise e : E e → post E (@raise A e).
Proof. intros He rs. eexists _, _. split; [reflexivity|]. by intros ? [= <-]. Qed.

Lemma post_lift (r : result A) : (∀ e, r = Raise e → E e) → post E (lift r).
Proof. intros Hr rs. by exists rs, r. Qed.

Lemma post_bind (c : M A) (f : A → M B) :
  post E c → (∀ a, post E (f a)) → post E (c ≫= f).
Proof.
  intros Hc Hf rs. destruct (Hc rs) as (rs1 & r1 & Hrun & Hr1).
  unfold mbind, M_bind. rewrite Hrun. destruct r1 as [a|e].
  - apply Hf.
  - exists rs1, (Raise e). split; [done|]. intros e' [= <-]. by apply Hr1.
Qed.
End Post.

Lemma post_when E (b : bool) (c : M unit) : (b = true → post E c) → post E (when b c).
Proof. destruct b; simpl; [auto|intros _; apply post_ret]. Qed.

Section TracebackPost.
Variables (E : exn → Prop) (t : table) (X Y : str) (g m n : Z) (r c : Z).
Hypothesis Hcell :
  ∀ i j, -1 <= i < r → -1 <= j < c → ∀ e, cell t i j = Raise e → E e.
Hypothesis HX : ∀ i, 0 <= i < r → ∀ e, subscript X i = Raise e → E e.
Hypothesis HY : ∀ j, 0 <= j < c → ∀ e, subscript Y j = Raise e → E e.

#[local] Ltac post_step :=
  first
    [ apply post_ret
    | apply post_append
    | apply post_lift; first [apply Hcell | apply HX | apply HY]; lia
    | apply post_bind; [|intros ?]
    | apply post_when; intros ? ].

(** Every call made from a cell [(i, j)] of the table goes to a cell
    whose [i + j] is one or two less, so [i + j + 1] levels of recursion
    are enough. *)
Lemma NW_traceBack_post fuel :
  (∀ i j, E (TracebackOutOfBounds i j)) →
  ∀ i j a1 a2,
    i < r → j < c → (0 < fuel)%nat →
    (0 <= i → 0 <= j → i + j < Z.of_nat fuel) →
    post E (NW_traceBack fuel t X Y g m n i j a1 a2).
Proof.
  intros Hoob. induction fuel as [|fuel IH]; intros i j a1 a2 Hi Hj Hpos Hsum; [lia|].
  simpl.
  destruct ((i <? 0) || (j <? 0)) eqn:Hneg.
  { by apply post_raise. }
  assert (0 <= i ∧ 0 <= j) as [Hi0 Hj0] by lia.
  specialize (Hsum Hi0 Hj0).
  apply post_bind; [|intros _].
  { apply post_when; intros Hb. repeat post_step. apply IH; lia. }
  apply post_bind; [|intros _].
  { apply post_when; intros Hb. repeat post_step. apply IH; lia. }
  destruct ((i =? 0) && (j =? 0)) eqn:Hz.
  { apply post_append. }
  assert (1 <= i + j) by lia.
  do 4 (apply post_bind; [post_step|intros ?]).
  apply post_bind; [|intros is_m].
  { destruct (_ =? m); repeat post_step. }
  apply post_bind; [|intros _].
  { apply post_when; intros Hb. repeat post_step. apply IH; lia. }
  apply post_bind; [|intros is_mm].
  { destruct (_ =? n); repeat post_step. }
  apply post_bind; [|intros _].
  { apply post_when; intros Hb. repeat post_step. apply IH; lia. }
  apply post_bind; [|intros _].
  { apply post_when; intros Hb. repeat post_step. apply IH; lia. }
  apply post_when; intros Hb. repeat post_step. apply IH; lia.
Qed.

(** The local traceback stops on row 0 and on column 0 and so never
    leaves the table. *)
Lemma SW_traceBack_post fuel :
  ∀ i j a1 a2,
    0 <= i < r → 0 <= j < c → i + j < Z.of_nat fuel →
    post E (SW_traceBack fuel t X Y g m n i j a1 a2).
Proof.
  induction fuel as [|fuel IH]; intros i j a1 a2 Hi Hj Hsum; [lia|].
  simpl.
  destruct ((i <? 0) || (j <? 0)) eqn:Hneg; [lia|].
  destruct ((i =? 0) || (j =? 0)) eqn:Hz.
  { apply post_append. }
  assert (1 <= i ∧ 1 <= j) as [Hi1 Hj1] by lia.
  do 4 (apply post_bind; [post_step|intros ?]).
  apply post_bind; [|intros is_m].
  { destruct (_ =? m); repeat post_step. }
  apply post_bind; [|intros _].
  { apply post_when; intros Hb. repeat post_step. apply IH; lia. }
  apply post_bind; [|intros is_mm].
  { destruct (_ =? n); repeat post_step. }
  apply post_bind; [|intros _].
  { apply post_when; intros Hb. repeat post_step. apply IH; lia. }
  apply post_bind; [|intros _].
  { apply post_when; intros Hb. repeat post_step. apply IH; lia. }
  apply post_when; intros Hb. repeat post_step. apply IH; lia.
Qed.
End TracebackPost.

Lemma run_post E (c : M unit) :
  post E c → (∃ rs, run c = Some (Ok rs)) ∨ (∃ e, run c = Some (Raise e) ∧ E e).
Proof.
  intros Hc. destruct (Hc []) as (rs & r & Hrun & Hr). unfold run. rewrite Hrun.
  destruct r as [[]|e]; [left|right]; eauto.
Qed.

(** The tracebacks come to an end on any table whatsoever. *)
Lemma NW_traceBack_terminates fuel t X Y g m n i j a1 a2 rs :
  0 <= i → 0 <= j → i + j < Z.of_nat fuel →
  ∃ out, NW_traceBack fuel t X Y g m n i j a1 a2 rs = Some out.
Proof.
  intros Hi Hj Hsum.
  destruct (NW_traceBack_post (fun _ => True) t X Y g m n (i + 1) (j + 1)
              ltac:(done) ltac:(done) ltac:(done) fuel ltac:(done) i j a1 a2
              ltac:(lia) ltac:(lia) ltac:(lia) ltac:(lia) rs)
    as (rs' & r & H & _).
  eauto.
Qed.

Lemma SW_traceBack_terminates fuel t X Y g m n i j a1 a2 rs :
  0 <= i → 0 <= j → i + j < Z.of_nat fuel →
  ∃ out, SW_traceBack fuel t X Y g m n i j a1 a2 rs = Some out.
Proof.
  intros Hi Hj Hsum.
  destruct (SW_traceBack_post (fun _ => True) t X Y g m n (i + 1) (j + 1)
              ltac:(done) ltac:(done) ltac:(done) fuel i j a1 a2
              ltac:(lia) ltac:(lia) ltac:(lia) rs)
    as (rs' & r & H & _).
  eauto.
Qed.

Section Aligners.
Variables (X Y : str) (gap mtch mismatch : Z).

Lemma SW_filled_spec :
  ∃ t, SW_filled X Y gap mtch mismatch = Ok t ∧
       shape t (len X + 1) (len Y + 1) ∧
       (∀ i j, 1 <= i <= len X → 1 <= j <= len Y →
               recurrence (sentinel :: X) (sentinel :: Y) gap mtch mismatch t i j).
Proof.
  unfold SW_filled.
  destruct (SW_makeTable_spec X Y) as (t0 & -> & Hs0).
  cbn [mbind result_bind]. rewrite SW_fill_eq.
  assert (0 <= len X ∧ 0 <= len Y) as [HX HY] by (unfold len; lia).
  destruct (NW_fill_spec (sentinel :: X) (sentinel :: Y) gap mtch mismatch
              t0 (len X + 1) (len Y + 1))
    as (t & -> & Hs & Hb & Hrec); [unfold len; simpl length; lia..|done|].
  exists t. split; [done|]. split; [done|].
  intros i j Hi Hj. apply Hrec; lia.
Qed.

Lemma no_subscript_error (E : exn → Prop) t :
  shape t (len X + 1) (len Y + 1) →
  (∀ i j, -1 <= i < len X + 1 → -1 <= j < len Y + 1 →
          ∀ e, cell t i j = Raise e → E e) ∧
  (∀ i, 0 <= i < len X + 1 → ∀ e, subscript (sentinel :: X) i = Raise e → E e) ∧
  (∀ j, 0 <= j < len Y + 1 → ∀ e, subscript (sentinel :: Y) j = Raise e → E e).
Proof.
  intros Hs. split; [|split].
  - intros i j Hi Hj e He.
    destruct (cell_safe t _ _ i j Hs) as [v Hv]; [unfold len in *; lia..|].
    congruence.
  - intros i Hi e He.
    destruct (subscript_safe (sentinel :: X) i) as [v Hv]; [|congruence].
    unfold len in *. simpl length. lia.
  - intros j Hj e He.
    destruct (subscript_safe (sentinel :: Y) j) as [v Hv]; [|congruence].
    unfold len in *. simpl length. lia.
Qed.

End Aligners.

(** ** The aligners under the call-depth limit *)

Section Overflows.
Context {A B : Type}.

Lemma returns_ret (a : A) : returns (mret a) a.
Proof. by intros rs. Qed.

Lemma returns_lift (r : result A) (a : A) : r = Ok a → returns (lift r) a.
Proof. by intros -> rs. Qed.

Lemma returns_bind (c : M A) (f : A → M B) a b :
  returns c a → returns (f a) b → returns (c ≫= f) b.
Proof. intros Hc Hf rs. unfold mbind, M_bind. rewrite Hc. apply Hf. Qed.

Lemma overflows_first (c : M A) (f : A → M B) : overflows c → overflows (c ≫= f).
Proof. intros Hc rs. unfold mbind, M_bind. by rewrite Hc. Qed.

Lemma overflows_after (c : M A) (f : A → M B) a :
  returns c a → overflows (f a) → overflows (c ≫= f).
Proof. intros Hc Hf rs. unfold mbind, M_bind. rewrite Hc. apply Hf. Qed.
End Overflows.

Lemma overflows_when {B} (b : bool) (c : M unit) (k : M B) :
  (b = true → overflows c) → (b = false → overflows k) →
  overflows (when b c ;; k).
Proof.
  destruct b; intros Hc Hk; simpl.
  - by apply overflows_first, Hc.
  - eapply overflows_after; [apply returns_ret|by apply Hk].
Qed.

(** On a filled table the global traceback makes a call from every cell
    but the origin, and no call goes further than one row and one column:
    from cell [(i, j)] it takes more than [max i j] nested calls before
    anything is appended or raised. *)
Section TracebackOverflows.
Variables (t : table) (X Y : str) (g m n : Z) (r c : Z).
Hypothesis Hshape : shape t r c.
Hypothesis HlenX : len X = r.
Hypothesis HlenY : len Y = c.
Hypothesis Hrec : ∀ i j, 1 <= i < r → 1 <= j < c → recurrence X Y g m n t i j.

Lemma returns_test (b : bool) (f : ascii → ascii → bool) i j :
  0 <= i < r → 0 <= j < c →
  returns (if b
           then xi ← lift (subscript X i); yj ← lift (subscript Y j);
                mret (f xi yj)
           else mret false)
          (b && f (char_at X i) (char_at Y j)).
Proof.
  intros Hi Hj. destruct b; [|apply returns_ret]. simpl.
  eapply returns_bind; [apply returns_lift, (subscript_ok X i sentinel); lia|].
  eapply returns_bind; [apply returns_lift, (subscript_ok Y j sentinel); lia|].
  apply returns_ret.
Qed.

Lemma NW_traceBack_overflows fuel :
  ∀ i j a1 a2,
    0 <= i < r → 0 <= j < c → Z.of_nat fuel <= Z.max i j →
    overflows (NW_traceBack fuel t X Y g m n i j a1 a2).
Proof.
  induction fuel as [|fuel IH]; intros i j a1 a2 Hi Hj Hfuel; [done|].
  simpl.
  destruct ((i <? 0) || (j <? 0)) eqn:Hneg; [lia|].
  destruct (Z.eqb_spec i 0) as [->|Hi0]; destruct (Z.eqb_spec j 0) as [->|Hj0];
    cbn [andb negb when]; [lia| | |].
  - apply overflows_first.
    eapply overflows_after;
      [apply returns_lift, (subscript_ok Y j sentinel); lia|].
    apply IH; lia.
  - eapply overflows_after; [apply returns_ret|].
    apply overflows_first.
    eapply overflows_after;
      [apply returns_lift, (subscript_ok X i sentinel); lia|].
    apply IH; lia.
  - do 2 (eapply overflows_after; [apply returns_ret|]).
    do 4 (eapply overflows_after;
            [apply returns_lift, (cell_ok t r c); [done|lia..]|]).
    eapply overflows_after; [apply returns_test; lia|].
    apply overflows_when; intros H1.
    { eapply overflows_after;
        [apply returns_lift, (subscript_ok X i sentinel); lia|].
      eapply overflows_after;
        [apply returns_lift, (subscript_ok Y j sentinel); lia|].
      apply IH; lia. }
    eapply overflows_after;
      [apply (returns_test _ (fun x y => negb (Ascii.eqb x y))); lia|].
    apply overflows_when; intros H2.
    { eapply overflows_after;
        [apply returns_lift, (subscript_ok X i sentinel); lia|].
      eapply overflows_after;
        [apply returns_lift, (subscript_ok Y j sentinel); lia|].
      apply IH; lia. }
    apply overflows_when; intros H3.
    { eapply overflows_after;
        [apply returns_lift, (subscript_ok X i sentinel); lia|].
      apply IH; lia. }
    destruct (get t i j - get t i (j - 1) =? g) eqn:H4; cbn [when].
    { eapply overflows_after;
        [apply returns_lift, (subscript_ok Y j sentinel); lia|].
      apply IH; lia. }
    exfalso. pose proof (Hrec i j ltac:(lia) ltac:(lia)) as Hr.
    unfold recurrence, max3, score in Hr.
    destruct (Ascii.eqb (char_at X i) (char_at Y j));
      rewrite ?andb_true_r, ?andb_false_r in H1, H2; simpl in H1, H2; lia.
Qed.
End TracebackOverflows.

Section AlignersWithin.
Variables (depth : nat) (X Y : str) (gap mtch mismatch : Z).

(** With [len(X) + len(Y) - 1] nested calls (and at least one) the global
    aligner returns a list or raises the error of the traceback guard. *)
Lemma NeedlemanWunsch_within_enough :
  (0 < depth)%nat → len X + len Y - 2 < Z.of_nat depth →
  (∃ rs, NeedlemanWunsch_within depth X Y gap mtch mismatch = Some (Ok rs)) ∨
  (∃ i j, NeedlemanWunsch_within depth X Y gap mtch mismatch
          = Some (Raise (TracebackOutOfBounds i j))).
Proof.
  intros Hpos Hdepth. unfold NeedlemanWunsch_within.
  destruct (NW_filled_spec X Y gap mtch mismatch) as (t & -> & Hs & _).
  set (E := fun e => ∃ i j, e = TracebackOutOfBounds i j).
  destruct (no_subscript_error X Y E t Hs) as (Hc & HX & HY).
  match goal with |- context [run ?c] => destruct (run_post E c) as [?|(e & -> & i & j & ->)] end;
    [|by left|right; eauto].
  apply (NW_traceBack_post E t _ _ gap mtch mismatch _ _ Hc HX HY).
  - intros i j. by exists i, j.
  - unfold len. simpl length. lia.
  - unfold len. simpl length. lia.
  - done.
  - unfold len in *. simpl length. lia.
Qed.

(** With [len(X) + len(Y) + 1] nested calls the local aligner returns a
    list. *)
Lemma SmithWaterman_within_enough :
  len X + len Y < Z.of_nat depth →
  ∃ rs, SmithWaterman_within depth X Y gap mtch mismatch = Some (Ok rs).
Proof.
  intros Hdepth. unfold SmithWaterman_within.
  destruct (SW_filled_spec X Y gap mtch mismatch) as (t & -> & Hs & _).
  assert (0 <= len X ∧ 0 <= len Y) as [HlX HlY] by (unfold len; lia).
  destruct (SW_locate_spec t _ _ Hs) as ([pos val] & -> & _ & Hpos); [lia..|].
  destruct (no_subscript_error X Y (fun _ => False) t Hs) as (Hc & HX & HY).
  match goal with |- context [run ?c] =>
    destruct (run_post (fun _ => False) c) as [?|(e & _ & [])] end; [|done].
  simpl in Hpos.
  assert (0 <= fst pos < len X + 1 ∧ 0 <= snd pos < len Y + 1) as [Hi Hj].
  { destruct Hpos as [[-> _]|([? ?] & _)]; simpl; lia. }
  apply (SW_traceBack_post _ t _ _ gap mtch mismatch _ _ Hc HX HY); [done..|].
  lia.
Qed.

(** With no more than [max(len(X), len(Y)) - 1] nested calls the global
    aligner of two non-empty sequences neither returns nor raises the
    error of the guard: the interpreter ends the call. *)
Lemma NeedlemanWunsch_within_overflows :
  1 <= len X → 1 <= len Y →
  Z.of_nat depth <= Z.max (len X - 1) (len Y - 1) →
  NeedlemanWunsch_within depth X Y gap mtch mismatch = None.
Proof.
  intros HX HY Hdepth. unfold NeedlemanWunsch_within.
  destruct (NW_filled_spec X Y gap mtch mismatch) as (t & -> & Hs & _ & _ & Hrec).
  cbv zeta. unfold run.
  rewrite (NW_traceBack_overflows t (sentinel :: X) (sentinel :: Y)
             gap mtch mismatch (len X + 1) (len Y + 1) Hs); [done| | | | | | ].
  - unfold len. simpl length. lia.
  - unfold len. simpl length. lia.
  - intros i j Hi Hj. apply Hrec; lia.
  - unfold len in *. simpl length. lia.
  - unfold len in *. simpl length. lia.
  - unfold len in *. simpl length. lia.
Qed.
End AlignersWithin.

(** ** What the global traceback appends *)

Section Emits.
Context {A B : Type} (Q : alignment → Prop).

Lemma emits_ret (P : A → Prop) a : P a → emits Q P (mret a).
Proof.
  intros HP rs rs' r [= <- <-]. split; [|by intros ? [= <-]].
  exists []. by rewrite app_nil_r.
Qed.

Lemma emits_raise (P : A → Prop) e : emits Q P (raise e).
Proof.
  intros rs rs' r [= <- <-]. split; [|discriminate].
  exists []. by rewrite app_nil_r.
Qed.

Lemma emits_lift (P : A → Prop) (r : result A) :
  (∀ a, r = Ok a → P a) → emits Q P (lift r).
Proof.
  intros HP rs rs' r' [= <- <-]. split; [|done].
  exists []. by rewrite app_nil_r.
Qed.

Lemma emits_out_of_fuel (P : A → Prop) : emits Q P out_of_fuel.
Proof. intros rs rs' r. discriminate. Qed.

Lemma emits_bind (P : A → Prop) (P' : B → Prop) (c : M A) (f : A → M B) :
  emits Q P c → (∀ a, P a → emits Q P' (f a)) → emits Q P' (c ≫= f).
Proof.
  intros Hc Hf rs rs' r. unfold mbind, M_bind.
  destruct (c rs) as [[rs1 [a|e]]|] eqn:Hrun; [| |discriminate].
  - destruct (Hc _ _ _ Hrun) as [(new1 & -> & Hnew1) Ha].
    intros Hrun2.
    destruct (Hf a (Ha a eq_refl) _ _ _ Hrun2) as [(new2 & -> & Hnew2) Hr].
    split; [|done]. exists (new1 ++ new2).
    split; [by rewrite app_assoc|]. by apply Forall_app.
  - destruct (Hc _ _ _ Hrun) as [Hnew _]. intros [= <- <-]. split; [done|discriminate].
Qed.
End Emits.

Lemma emits_append (Q : alignment → Prop) p : Q p → emits Q (fun _ => True) (append p).
Proof.
  intros HQ rs rs' r [= <- <-]. split; [|done].
  exists [p]. split; [done|]. by constructor.
Qed.

Lemma emits_when (Q : alignment → Prop) (b : bool) (c : M unit) :
  (b = true → emits Q (fun _ => True) c) → emits Q (fun _ => True) (when b c).
Proof. destruct b; simpl; [auto|intros _; by apply emits_ret]. Qed.

Lemma emits_weaken {A} (Q Q' : alignment → Prop) (P : A → Prop) (c : M A) :
  (∀ p, Q' p → Q p) → emits Q' P c → emits Q P c.
Proof.
  intros HQ Hc rs rs' r Hrun.
  destruct (Hc _ _ _ Hrun) as [(new & -> & Hnew) HP]. split; [|done].
  exists new. split; [done|]. eapply Forall_impl; eauto.
Qed.

Lemma strand_top_app a b : strand_top (a ++ b) = strand_top a ++ strand_top b.
Proof. apply map_app. Qed.

Lemma strand_bottom_app a b :
  strand_bottom (a ++ b) = strand_bottom a ++ strand_bottom b.
Proof. apply map_app. Qed.

Lemma take_char_at (W : str) (i : Z) :
  1 <= i <= len W →
  take (Z.to_nat i) W = take (Z.to_nat (i - 1)) W ++ [char_at (sentinel :: W) i].
Proof.
  intros Hi. unfold len in Hi.
  destruct (lookup_lt_is_Some_2 W (Z.to_nat (i - 1))) as [x Hx]; [lia|].
  replace (Z.to_nat i) with (S (Z.to_nat (i - 1))) by lia.
  rewrite (take_S_r _ _ _ Hx). do 2 f_equal.
  replace i with (Z.of_nat (S (Z.to_nat (i - 1)))) by lia.
  symmetry. by apply (char_at_sentinel W).
Qed.

Section Traced.
Variables (X Y : str) (gap mtch mismatch : Z) (t : table).
Hypothesis Hshape : shape t (len X + 1) (len Y + 1).
Hypothesis Hcol : ∀ i, 0 <= i <= len X → get t i 0 = i * gap.
Hypothesis Hrow : ∀ j, 0 <= j <= len Y → get t 0 j = j * gap.

Lemma traced_origin a1 a2 :
  traced X Y gap mtch mismatch t 0 0 a1 a2 (rev a1, rev a2).
Proof.
  exists []. split; [done|]. split; [|done].
  rewrite alignment_score_nil, Hrow by (unfold len; lia). done.
Qed.

Lemma traced_extend col i j i' j' a1 a2 p :
  take (Z.to_nat i) X = take (Z.to_nat i') X ++ top [col] →
  take (Z.to_nat j) Y = take (Z.to_nat j') Y ++ bottom [col] →
  get t i j - get t i' j' = column_score gap mtch mismatch col →
  traced X Y gap mtch mismatch t i' j'
    (a1 ++ strand_top [col]) (a2 ++ strand_bottom [col]) p →
  traced X Y gap mtch mismatch t i j a1 a2 p.
Proof.
  intros HtX HtY Hsc (cols & [Htop Hbot] & Hscore & ->).
  exists (cols ++ [col]). split; [|split].
  - split.
    + by rewrite top_app, Htop, HtX.
    + by rewrite bottom_app, Hbot, HtY.
  - rewrite alignment_score_app, alignment_score_cons, alignment_score_nil. lia.
  - rewrite strand_top_app, strand_bottom_app, !rev_app_distr, <- !app_assoc. done.
Qed.

Lemma traced_diagonal i j a1 a2 p :
  1 <= i <= len X → 1 <= j <= len Y →
  get t i j - get t (i - 1) (j - 1)
  = score mtch mismatch (char_at (sentinel :: X) i) (char_at (sentinel :: Y) j) →
  traced X Y gap mtch mismatch t (i - 1) (j - 1)
    (a1 ++ [char_at (sentinel :: X) i]) (a2 ++ [char_at (sentinel :: Y) j]) p →
  traced X Y gap mtch mismatch t i j a1 a2 p.
Proof.
  intros Hi Hj Hsc.
  apply (traced_extend (Both (char_at (sentinel :: X) i) (char_at (sentinel :: Y) j)));
    [by apply take_char_at|by apply take_char_at|done].
Qed.

Lemma traced_up i j a1 a2 p :
  1 <= i <= len X →
  get t i j - get t (i - 1) j = gap →
  traced X Y gap mtch mismatch t (i - 1) j
    (a1 ++ [char_at (sentinel :: X) i]) (a2 ++ [gap_marker]) p →
  traced X Y gap mtch mismatch t i j a1 a2 p.
Proof.
  intros Hi Hsc.
  apply (traced_extend (GapInY (char_at (sentinel :: X) i)));
    [by apply take_char_at|by rewrite app_nil_r|done].
Qed.

Lemma traced_left i j a1 a2 p :
  1 <= j <= len Y →
  get t i j - get t i (j - 1) = gap →
  traced X Y gap mtch mismatch t i (j - 1)
    (a1 ++ [gap_marker]) (a2 ++ [char_at (sentinel :: Y) j]) p →
  traced X Y gap mtch mismatch t i j a1 a2 p.
Proof.
  intros Hj Hsc.
  apply (traced_extend (GapInX (char_at (sentinel :: Y) j)));
    [by rewrite app_nil_r|by apply take_char_at|done].
Qed.
Lemma NW_traceBack_negative_emits (Q : alignment → Prop) fuel i j a1 a2 :
  i < 0 ∨ j < 0 →
  emits Q (fun _ => True)
    (NW_traceBack fuel t (sentinel :: X) (sentinel :: Y) gap mtch mismatch i j a1 a2).
Proof.
  intros Hneg. destruct fuel as [|fuel]; [apply emits_out_of_fuel|].
  simpl. replace ((i <? 0) || (j <? 0)) with true by lia. apply emits_raise.
Qed.

Lemma NW_traceBack_call_emits fuel i j i' j' a1 a2 b1 b2 :
  (∀ i j a1 a2, i <= len X → j <= len Y →
     emits (traced X Y gap mtch mismatch t i j a1 a2) (fun _ => True)
       (NW_traceBack fuel t (sentinel :: X) (sentinel :: Y) gap mtch mismatch
          i j a1 a2)) →
  i' <= len X → j' <= len Y →
  (0 <= i' → 0 <= j' →
   ∀ p, traced X Y gap mtch mismatch t i' j' b1 b2 p →
        traced X Y gap mtch mismatch t i j a1 a2 p) →
  emits (traced X Y gap mtch mismatch t i j a1 a2) (fun _ => True)
    (NW_traceBack fuel t (sentinel :: X) (sentinel :: Y) gap mtch mismatch
       i' j' b1 b2).
Proof.
  intros IH Hi' Hj' Hstep.
  destruct (decide (0 <= i' ∧ 0 <= j')) as [[? ?]|Hneg].
  - eapply emits_weaken; [by apply Hstep|]. by apply IH.
  - apply NW_traceBack_negative_emits. lia.
Qed.

Lemma subscript_sentinel_emits (Q : alignment → Prop) (W : str) (i : Z) :
  0 <= i <= len W →
  emits Q (fun ch => ch = char_at (sentinel :: W) i)
    (lift (subscript (sentinel :: W) i)).
Proof.
  intros Hi. apply emits_lift. intros ch Hch.
  rewrite (subscript_ok _ i sentinel) in Hch by (unfold len in *; simpl length; lia).
  by injection Hch as <-.
Qed.

Lemma cell_emits (Q : alignment → Prop) (i j : Z) :
  i <= len X → j <= len Y →
  emits Q (fun v => 0 <= i → 0 <= j → v = get t i j) (lift (cell t i j)).
Proof.
  intros Hi Hj. apply emits_lift. intros v Hv Hi0 Hj0.
  rewrite (cell_ok t _ _ i j Hshape) in Hv by lia. by injection Hv as <-.
Qed.

(** Every pair the global traceback appends from a cell of the table is
    an alignment of the two prefixes that end at the cell, with the value
    of the cell as its score, in front of the accumulated strands. *)
Lemma NW_traceBack_emits fuel :
  ∀ i j a1 a2, i <= len X → j <= len Y →
    emits (traced X Y gap mtch mismatch t i j a1 a2) (fun _ => True)
      (NW_traceBack fuel t (sentinel :: X) (sentinel :: Y) gap mtch mismatch
         i j a1 a2).
Proof.
  induction fuel as [|fuel IH]; intros i j a1 a2 Hi Hj;
    [apply emits_out_of_fuel|].
  simpl. destruct ((i <? 0) || (j <? 0)) eqn:Hneg; [apply emits_raise|].
  assert (0 <= i ∧ 0 <= j) as [Hi0 Hj0] by lia.
  eapply emits_bind; [|intros _ _].
  { apply emits_when; intros Hb.
    eapply emits_bind; [apply subscript_sentinel_emits; lia|intros yj ->].
    apply NW_traceBack_call_emits; [done|lia..|]. intros _ _ p.
    apply traced_left; [lia|].
    assert (i = 0) as -> by lia. rewrite !Hrow by lia. lia. }
  eapply emits_bind; [|intros _ _].
  { apply emits_when; intros Hb.
    eapply emits_bind; [apply subscript_sentinel_emits; lia|intros xi ->].
    apply NW_traceBack_call_emits; [done|lia..|]. intros _ _ p.
    apply traced_up; [lia|].
    assert (j = 0) as -> by lia. rewrite !Hcol by lia. lia. }
  destruct ((i =? 0) && (j =? 0)) eqn:Hz.
  { assert (i = 0 ∧ j = 0) as [-> ->] by lia.
    apply emits_append, traced_origin. }
  eapply emits_bind; [apply cell_emits; lia|intros a Ha].
  eapply emits_bind; [apply cell_emits; lia|intros b Hb].
  eapply emits_bind; [apply cell_emits; lia|intros c Hc].
  eapply emits_bind; [apply cell_emits; lia|intros d Hd].
  specialize (Ha Hi0 Hj0). subst a.
  eapply (emits_bind _ (fun is_m : bool =>
            is_m = true →
            get t i j - d = mtch ∧
            Ascii.eqb (char_at (sentinel :: X) i) (char_at (sentinel :: Y) j) = true)).
  { destruct (Z.eqb_spec (get t i j - d) mtch) as [Heq|Hne].
    - eapply emits_bind; [apply subscript_sentinel_emits; lia|intros xi ->].
      eapply emits_bind; [apply subscript_sentinel_emits; lia|intros yj ->].
      by apply emits_ret.
    - by apply emits_ret. }
  intros is_m Hm.
  eapply emits_bind; [|intros _ _].
  { apply emits_when; intros ->. destruct (Hm eq_refl) as [Hdiff Heq].
    eapply emits_bind; [apply subscript_sentinel_emits; lia|intros xi ->].
    eapply emits_bind; [apply subscript_sentinel_emits; lia|intros yj ->].
    apply NW_traceBack_call_emits; [done|lia..|]. intros Hi1 Hj1 p.
    apply traced_diagonal; [lia..|].
    rewrite <- Hd by lia. unfold score. by rewrite Heq. }
  eapply (emits_bind _ (fun is_mm : bool =>
            is_mm = true →
            get t i j - d = mismatch ∧
            Ascii.eqb (char_at (sentinel :: X) i) (char_at (sentinel :: Y) j) = false)).
  { destruct (Z.eqb_spec (get t i j - d) mismatch) as [Heq|Hne].
    - eapply emits_bind; [apply subscript_sentinel_emits; lia|intros xi ->].
      eapply emits_bind; [apply subscript_sentinel_emits; lia|intros yj ->].
      apply emits_ret. intros Hb'. split; [done|]. by apply negb_true_iff.
    - by apply emits_ret. }
  intros is_mm Hmm.
  eapply emits_bind; [|intros _ _].
  { apply emits_when; intros ->. destruct (Hmm eq_refl) as [Hdiff Heq].
    eapply emits_bind; [apply subscript_sentinel_emits; lia|intros xi ->].
    eapply emits_bind; [apply subscript_sentinel_emits; lia|intros yj ->].
    apply NW_traceBack_call_emits; [done|lia..|]. intros Hi1 Hj1 p.
    apply traced_diagonal; [lia..|].
    rewrite <- Hd by lia. unfold score. by rewrite Heq. }
  eapply emits_bind; [|intros _ _].
  { apply emits_when; intros Hup.
    eapply emits_bind; [apply subscript_sentinel_emits; lia|intros xi ->].
    apply NW_traceBack_call_emits; [done|lia..|]. intros Hi1 _ p.
    apply traced_up; [lia|]. rewrite <- Hb by lia. lia. }
  apply emits_when; intros Hleft.
  eapply emits_bind; [apply subscript_sentinel_emits; lia|intros yj ->].
  apply NW_traceBack_call_emits; [done|lia..|]. intros _ Hj1 p.
  apply traced_left; [lia|]. rewrite <- Hc by lia. lia.
Qed.
End Traced.

Lemma length_strands cols : length (strand_top cols) = length (strand_bottom cols).
Proof. unfold strand_top, strand_bottom. by rewrite !length_map. Qed.

Lemma degap_strand_top cols : degap (strand_top cols) = degap (top cols).
Proof.
  induction cols as [|[x y|x|y] cols IH]; simpl; [done|..].
  - by rewrite IH.
  - by rewrite IH.
  - done.
Qed.

Lemma degap_strand_bottom cols : degap (strand_bottom cols) = degap (bottom cols).
Proof.
  induction cols as [|[x y|x|y] cols IH]; simpl; [done|..].
  - by rewrite IH.
  - done.
  - by rewrite IH.
Qed.

Lemma strand_top_symbols cols ch :
  In ch (strand_top cols) → ch = gap_marker ∨ In ch (top cols).
Proof.
  induction cols as [|[x y|x|y] cols IH]; simpl; [done|..];
    intros [<-|Hin]; auto; destruct (IH Hin); auto.
Qed.

Lemma strand_bottom_symbols cols ch :
  In ch (strand_bottom cols) → ch = gap_marker ∨ In ch (bottom cols).
Proof.
  induction cols as [|[x y|x|y] cols IH]; simpl; [done|..];
    intros [<-|Hin]; auto; destruct (IH Hin); auto.
Qed.

Lemma In_take {A} (l : list A) k x : In x (take k l) → In x l.
Proof. rewrite <- !list_elem_of_In. apply subseteq_take. Qed.

(** Every pair the global aligner returns is an alignment of [X] without
    its last symbol and [Y] without its last symbol, and its score is the
    value of cell [(m-1, n-1)] of the filled table. *)
Lemma NeedlemanWunsch_pairs X Y gap mtch mismatch rs p :
  NeedlemanWunsch X Y gap mtch mismatch = Some (Ok rs) → In p rs →
  ∃ t cols,
    NW_filled X Y gap mtch mismatch = Ok t ∧
    aligns (take (length X - 1) X) (take (length Y - 1) Y) cols ∧
    alignment_score gap mtch mismatch cols = get t (len X - 1) (len Y - 1) ∧
    p = (strand_top cols, strand_bottom cols).
Proof.
  unfold NeedlemanWunsch.
  destruct (NW_filled_spec X Y gap mtch mismatch) as (t & -> & Hs & Hcol & Hrow & _).
  unfold run.
  match goal with |- context [NW_traceBack ?f _ _ _ _ _ _ ?i ?j _ _ _] =>
    pose proof (NW_traceBack_emits X Y gap mtch mismatch t Hs Hcol Hrow f i j [] []) as He;
    destruct (NW_traceBack f t (sentinel :: X) (sentinel :: Y) gap mtch mismatch
                i j [] [] []) as [[rs' [[]|e]]|] eqn:Hrun
  end; [|discriminate..].
  intros [= <-] Hin.
  destruct (He ltac:(unfold len; simpl length; lia)
               ltac:(unfold len; simpl length; lia) _ _ _ Hrun)
    as [(new & -> & Hnew) _].
  simpl in Hin. rewrite Forall_forall in Hnew.
  destruct (Hnew p) as (cols & Hal & Hsc & ->); [by apply list_elem_of_In|].
  exists t, cols. split; [done|].
  replace (Z.to_nat (len (sentinel :: X) - 2)) with (length X - 1)%nat in Hal
    by (unfold len; simpl length; lia).
  replace (Z.to_nat (len (sentinel :: Y) - 2)) with (length Y - 1)%nat in Hal
    by (unfold len; simpl length; lia).
  split; [done|]. split.
  - rewrite Hsc. f_equal; unfold len; simpl length; lia.
  - simpl. by rewrite !app_nil_r.
Qed.

(** * The claims *)

Lemma scenario1_corner :
  (t ← NW_filled (s "ATTCGGCT") (s "AGTTGGGCCCGCGT") (-6) 5 (-2); corner t)
  = Ok (-3).
Proof. by vm_compute. Qed.

(** C1 (code defect): the global aligner starts its traceback at
    [(len(X)-2, len(Y)-2)] of the sentinel-prefixed sequences, one cell
    short of the corner, so the strands it returns spell the inputs without
    their last symbols: for "AT" and "AT" the only pair is ("A", "A"), whose
    strands without gap markers are "A", not "AT".  In general every
    returned pair has strands of equal length, made of input symbols and
    gap markers, which without the gap markers are [X] and [Y] less their
    last symbols (and less the gap markers of their own). *)
Theorem global_pairs_miss_last_symbols :
  (NeedlemanWunsch (s "AT") (s "AT") (-6) 5 (-2) = Some (Ok [(s "A", s "A")]) ∧
   degap (s "A") ≠ s "AT") ∧
  ∀ X Y gap mtch mismatch rs p,
    NeedlemanWunsch X Y gap mtch mismatch = Some (Ok rs) → In p rs →
    length (fst p) = length (snd p) ∧
    (∀ ch, In ch (fst p) → ch = gap_marker ∨ In ch X) ∧
    (∀ ch, In ch (snd p) → ch = gap_marker ∨ In ch Y) ∧
    degap (fst p) = degap (take (length X - 1) X) ∧
    degap (snd p) = degap (take (length Y - 1) Y).
Proof.
  split; [split; [by vm_compute|discriminate]|].
  intros X Y gap mtch mismatch rs p Hrun Hin.
  destruct (NeedlemanWunsch_pairs _ _ _ _ _ _ _ Hrun Hin)
    as (t & cols & _ & [Htop Hbot] & _ & ->).
  simpl. split; [apply length_strands|]. split; [|split; [|split]].
  - intros ch Hch. destruct (strand_top_symbols _ _ Hch) as [?|Hx]; [by left|right].
    rewrite Htop in Hx. by eapply In_take.
  - intros ch Hch. destruct (strand_bottom_symbols _ _ Hch) as [?|Hy]; [by left|right].
    rewrite Hbot in Hy. by eapply In_take.
  - by rewrite degap_strand_top, Htop.
  - by rewrite degap_strand_bottom, Hbot.
Qed.

(** C2 (as amended): the first demonstration returns exactly ten pairs,
    the pair ("A-TTCGGC-----", "AGTTGGGCCCGCG") among them, and the optimal
    score of the call, the corner cell [table[m][n]] of the filled table,
    is -3. *)
Theorem scenario1_results :
  NeedlemanWunsch (s "ATTCGGCT") (s "AGTTGGGCCCGCGT") (-6) 5 (-2)
  = Some (Ok scenario1_pairs) ∧
  length scenario1_pairs = 10%nat ∧
  In (s "A-TTCGGC-----", s "AGTTGGGCCCGCG") scenario1_pairs ∧
  (t ← NW_filled (s "ATTCGGCT") (s "AGTTGGGCCCGCGT") (-6) 5 (-2); corner t)
  = Ok (-3).
Proof.
  split; [by vm_compute|]. split; [done|]. split.
  - unfold scenario1_pairs. do 9 right. by left.
  - apply scenario1_corner.
Qed.

(** C2 (as stated) fails: the optimal score of that call is not 1, and
    the pair it names does not have the optimal score of the call. *)
Lemma scenario1_score_not_1 :
  ¬ (∃ rs t,
       NeedlemanWunsch (s "ATTCGGCT") (s "AGTTGGGCCCGCGT") (-6) 5 (-2) = Some (Ok rs) ∧
       length rs = 10%nat ∧
       In (s "A-TTCGGC-----", s "AGTTGGGCCCGCG") rs ∧
       NW_filled (s "ATTCGGCT") (s "AGTTGGGCCCGCGT") (-6) 5 (-2) = Ok t ∧
       corner t = Ok 1) ∧
  ¬ (∃ t,
       NW_filled (s "ATTCGGCT") (s "AGTTGGGCCCGCGT") (-6) 5 (-2) = Ok t ∧
       corner t = Ok (alignment_score (-6) 5 (-2)
                        (pair_columns (s "A-TTCGGC-----", s "AGTTGGGCCCGCG")))).
Proof.
  pose proof scenario1_corner as H. split.
  - intros (rs & t & _ & _ & _ & Ht & Hc).
    rewrite Ht in H. cbn [mbind result_bind] in H. congruence.
  - intros (t & Ht & Hc).
    rewrite Ht in H. cbn [mbind result_bind] in H. rewrite Hc in H.
    revert H. by vm_compute.
Qed.

(** C3: for sequences of length at most 5 and a negative gap penalty, the
    global optimal score, the corner cell [table[m][n]] of the filled
    global table, is the maximum over all alignments of [X] and [Y] of
    matches * match + mismatches * mismatch + gaps * gap: no alignment
    scores more and some alignment scores exactly that.  (The bounds on
    the lengths and the sign of the gap are not used.) *)
Theorem global_score_is_maximum X Y gap mtch mismatch :
  (length X ≤ 5)%nat → (length Y ≤ 5)%nat → gap < 0 →
  ∃ t sc, NW_filled X Y gap mtch mismatch = Ok t ∧
          corner t = Ok sc ∧
          sc = get t (len X) (len Y) ∧
          (∀ a, aligns X Y a → alignment_score gap mtch mismatch a <= sc) ∧
          (∃ a, aligns X Y a ∧ alignment_score gap mtch mismatch a = sc).
Proof. intros _ _ _. apply global_score_optimal. Qed.

Lemma global_score_is_maximum_witness :
  (length (s "ACGTA") ≤ 5)%nat ∧ (length (s "AGT") ≤ 5)%nat ∧ -6 < 0 ∧
  ∃ t sc, NW_filled (s "ACGTA") (s "AGT") (-6) 5 (-2) = Ok t ∧
          corner t = Ok sc ∧
          sc = get t (len (s "ACGTA")) (len (s "AGT")) ∧
          (∀ a, aligns (s "ACGTA") (s "AGT") a →
                alignment_score (-6) 5 (-2) a <= sc) ∧
          (∃ a, aligns (s "ACGTA") (s "AGT") a ∧
                alignment_score (-6) 5 (-2) a = sc).
Proof.
  split; [simpl; lia|]. split; [simpl; lia|]. split; [lia|].
  apply (global_score_is_maximum (s "ACGTA") (s "AGT") (-6) 5 (-2));
    simpl; lia.
Defined.

(** With an empty [X] or an empty [Y] the global traceback is entered
    with a negative subscript and raises. *)
Lemma NeedlemanWunsch_empty_raises X Y gap mtch mismatch :
  X = [] ∨ Y = [] →
  NeedlemanWunsch X Y gap mtch mismatch
  = Some (Raise (TracebackOutOfBounds (len X - 1) (len Y - 1))).
Proof.
  intros Hempty. unfold NeedlemanWunsch.
  destruct (NW_filled_spec X Y gap mtch mismatch) as (t & -> & _).
  change (length (sentinel :: X) + length (sentinel :: Y))%nat
    with (S (length X + length (sentinel :: Y))).
  unfold run. rewrite NW_traceBack_out_of_bounds.
  - do 3 f_equal; unfold len; simpl length; lia.
  - unfold len. simpl length. destruct Hempty as [-> | ->]; simpl length; lia.
Qed.

(** C4 (code defect): [NeedlemanWunsch("", "AC", -6, 5, -2)] raises the
    out-of-bounds error of the traceback guard instead of returning the one
    pair ("--", "AC"): the traceback is entered at (-1, 1).  The local
    aligner returns a list holding the empty pair on the same inputs. *)
Theorem global_empty_input_raises :
  NeedlemanWunsch (s "") (s "AC") (-6) 5 (-2)
  = Some (Raise (TracebackOutOfBounds (-1) 1)) ∧
  SmithWaterman (s "") (s "AC") (-6) 5 (-2) = Some (Ok [(s "", s "")]).
Proof. split; by vm_compute. Qed.

Lemma scenario2_located :
  (t ← SW_filled (s "AAATTGGGCGCCGGGTTTAAA") (s "GGCCCGGGAAATTTA") (-6) 5 (-2);
   SW_locate t) = Ok ((19, 15), 36).
Proof. by vm_compute. Qed.

(** C5 (as amended): the second demonstration returns exactly the pair
    ("GGCGCCGGG---TTTA", "GGC-CCGGGAAATTTA"); the located maximum of the
    filled table is 36, at cell (19, 15), which is also the score of the
    pair; 30 is the corner cell of the table. *)
Theorem scenario2_results :
  SmithWaterman (s "AAATTGGGCGCCGGGTTTAAA") (s "GGCCCGGGAAATTTA") (-6) 5 (-2)
  = Some (Ok [(s "GGCGCCGGG---TTTA", s "GGC-CCGGGAAATTTA")]) ∧
  (t ← SW_filled (s "AAATTGGGCGCCGGGTTTAAA") (s "GGCCCGGGAAATTTA") (-6) 5 (-2);
   SW_locate t) = Ok ((19, 15), 36) ∧
  alignment_score (-6) 5 (-2)
    (pair_columns (s "GGCGCCGGG---TTTA", s "GGC-CCGGGAAATTTA")) = 36 ∧
  (t ← SW_filled (s "AAATTGGGCGCCGGGTTTAAA") (s "GGCCCGGGAAATTTA") (-6) 5 (-2);
   corner t) = Ok 30.
Proof.
  split; [by vm_compute|]. split; [apply scenario2_located|].
  split; by vm_compute.
Qed.

(** C5 (as stated) fails: the located maximum of that call is not 30. *)
Lemma scenario2_maximum_not_30 :
  ¬ (∃ t pos,
       SW_filled (s "AAATTGGGCGCCGGGTTTAAA") (s "GGCCCGGGAAATTTA") (-6) 5 (-2) = Ok t ∧
       SW_locate t = Ok (pos, 30)).
Proof.
  intros (t & pos & Ht & Hloc). pose proof scenario2_located as H.
  rewrite Ht in H. cbn [mbind result_bind] in H. congruence.
Qed.

(** C6 (code defect): after the forced step from a cell of row 0 or of
    column 0 the global traceback falls into the four checks of the
    interior case.  From cell (0, 1) of the table of "A" and "A" the left
    move is taken twice, so the pair is appended twice; the second
    demonstration of the notebook returns its first pair twice for the
    same reason; and with mismatch 0 the diagonal move is taken from
    (0, 1) to (-1, 0), so that the call raises. *)
Theorem row0_explores_interior_moves :
  (t ← NW_filled (s "A") (s "A") (-6) 5 (-2);
   Ok (NW_traceBack 2 t (s "*A") (s "*A") (-6) 5 (-2) 0 1 [] [] []))
  = Ok (Some ([(s "-", s "A"); (s "-", s "A")], Ok tt)) ∧
  NeedlemanWunsch (s "TATATATATA") (s "GCATAAGGT") (-6) 5 (-2)
  = Some (Ok [ (s "TATATATAT", s "-GCATAAGG");
               (s "TATATATAT", s "-GCATAAGG");
               (s "TATATATAT", s "G-CATAAGG");
               (s "TATATATAT", s "GC-ATAAGG") ]) ∧
  NeedlemanWunsch (s "A") (s "AB") (-6) 5 0
  = Some (Raise (TracebackOutOfBounds (-1) 0)).
Proof. split; [|split]; by vm_compute. Qed.

Lemma SmithWaterman_from_origin X Y gap mtch mismatch t val :
  SW_filled X Y gap mtch mismatch = Ok t →
  SW_locate t = Ok ((0, 0), val) →
  SmithWaterman X Y gap mtch mismatch = Some (Ok [([], [])]).
Proof.
  intros Ht Hloc. unfold SmithWaterman. rewrite Ht, Hloc.
  change (length (sentinel :: X) + length (sentinel :: Y))%nat
    with (S (length X + length (sentinel :: Y))).
  unfold run. simpl fst. simpl snd. rewrite SW_traceBack_boundary by lia. done.
Qed.

(** C7: the local traceback starts at the located position.  When some
    interior cell is positive, that position is an interior cell holding
    the maximum interior value, and no interior cell before it in row-major
    order holds that value.  When every interior value is at most 0, and so
    when there is no interior cell, the position is (0, 0), the located
    value is 0 and the aligner returns the single pair of empty strands;
    this is the outcome of aligning two empty sequences. *)
Theorem local_start_cell X Y gap mtch mismatch :
  ∃ t pos val,
    SW_filled X Y gap mtch mismatch = Ok t ∧
    SW_locate t = Ok (pos, val) ∧
    SmithWaterman X Y gap mtch mismatch
    = run (SW_traceBack (length (sentinel :: X) + length (sentinel :: Y)) t
             (sentinel :: X) (sentinel :: Y) gap mtch mismatch
             (fst pos) (snd pos) [] []) ∧
    ((∃ i j, interior (len X + 1) (len Y + 1) i j ∧ 0 < get t i j) →
     interior (len X + 1) (len Y + 1) (fst pos) (snd pos) ∧
     get t (fst pos) (snd pos) = val ∧
     (∀ i j, interior (len X + 1) (len Y + 1) i j → get t i j <= val) ∧
     (∀ i j, interior (len X + 1) (len Y + 1) i j → get t i j = val →
             fst pos < i ∨ (fst pos = i ∧ snd pos <= j))) ∧
    ((∀ i j, interior (len X + 1) (len Y + 1) i j → get t i j <= 0) →
     pos = (0, 0) ∧ val = 0 ∧
     SmithWaterman X Y gap mtch mismatch = Some (Ok [([], [])])) ∧
    (X = [] ∨ Y = [] →
     pos = (0, 0) ∧ val = 0 ∧
     SmithWaterman X Y gap mtch mismatch = Some (Ok [([], [])])).
Proof.
  destruct (SW_filled_spec X Y gap mtch mismatch) as (t & Ht & Hs & _).
  assert (0 <= len X ∧ 0 <= len Y) as [HlX HlY] by (unfold len; lia).
  destruct (SW_locate_spec t _ _ Hs) as ([pos val] & Hloc & Hle & Hpos); [lia..|].
  simpl in Hle, Hpos.
  assert (∀ i j, interior (len X + 1) (len Y + 1) i j → get t i j <= val) as Hmax.
  { intros i j Hint. apply Hle; [done|]. destruct Hint. unfold before. lia. }
  assert ((∀ i j, interior (len X + 1) (len Y + 1) i j → get t i j <= 0) →
          pos = (0, 0) ∧ val = 0 ∧
          SmithWaterman X Y gap mtch mismatch = Some (Ok [([], [])])) as Hnone.
  { intros Hall. destruct Hpos as [[-> ->]|(Hint & _ & Hv & Hp & _)].
    - split; [done|]. split; [done|]. by eapply SmithWaterman_from_origin.
    - specialize (Hall _ _ Hint). lia. }
  exists t, pos, val. split; [done|]. split; [done|]. split; [|split; [|split]].
  - unfold SmithWaterman. by rewrite Ht, Hloc.
  - intros (i & j & Hint & Hgt).
    destruct Hpos as [[-> ->]|(Hint' & _ & Hv & Hp & Hfirst)].
    { specialize (Hmax _ _ Hint). lia. }
    split; [done|]. split; [done|]. split; [done|].
    intros i' j' Hint'' Heq.
    destruct (decide (before (fst pos) (snd pos) i' j')) as [Hb|Hnb].
    + specialize (Hfirst _ _ Hint'' Hb). lia.
    + unfold before in Hnb. lia.
  - done.
  - intros Hempty. apply Hnone. intros i j [Hi Hj].
    unfold len in *. destruct Hempty as [-> | ->]; simpl length in *; lia.
Qed.

Lemma local_start_cell_witness :
  ∃ t pos val,
    SW_filled (s "A") (s "GA") (-6) 5 (-2) = Ok t ∧
    SW_locate t = Ok (pos, val) ∧
    (∃ i j, interior (len (s "A") + 1) (len (s "GA") + 1) i j ∧ 0 < get t i j) ∧
    interior (len (s "A") + 1) (len (s "GA") + 1) (fst pos) (snd pos) ∧
    get t (fst pos) (snd pos) = val.
Proof.
  destruct (local_start_cell (s "A") (s "GA") (-6) 5 (-2))
    as (t & pos & val & Ht & Hloc & _ & Hpos & _).
  assert (∃ i j, interior (len (s "A") + 1) (len (s "GA") + 1) i j ∧ 0 < get t i j)
    as Hex.
  { vm_compute in Ht. injection Ht as <-. exists 1, 2.
    split; [unfold interior, len; simpl; lia|reflexivity]. }
  destruct (Hpos Hex) as (Hint & Hval & _).
  exists t, pos, val. split; [exact Ht|]. split; [exact Hloc|].
  split; [exact Hex|]. split; [exact Hint|exact Hval].
Defined.

(** C8: the fill loop of the local aligner is the fill loop of the global
    aligner.  From the same table the two loops give the same table; on a
    table of the shape of the (sentinel-prefixed) sequences they raise
    nothing, keep row 0 and column 0, and every interior cell holds the
    maximum of the three candidates of the recurrence, negative or not:
    the cell is no less than any of the three and is one of them. *)
Theorem local_fill_is_global_fill t0 X Y gap mtch mismatch r c :
  len X = r → len Y = c → 1 <= r → 1 <= c → shape t0 r c →
  (∀ t0' X' Y', SW_fill t0' X' Y' gap mtch mismatch
                = NW_fill t0' X' Y' gap mtch mismatch) ∧
  ∃ t, SW_fill t0 X Y gap mtch mismatch = Ok t ∧
       NW_fill t0 X Y gap mtch mismatch = Ok t ∧
       shape t r c ∧
       (∀ i j, 0 <= i < r → 0 <= j < c → i = 0 ∨ j = 0 →
               get t i j = get t0 i j) ∧
       (∀ i j, 1 <= i < r → 1 <= j < c →
               get t i j =
               Z.max (Z.max (get t (i - 1) (j - 1)
                             + (if Ascii.eqb (char_at X i) (char_at Y j)
                                then mtch else mismatch))
                            (get t (i - 1) j + gap))
                     (get t i (j - 1) + gap)) ∧
       (∀ i j, 1 <= i < r → 1 <= j < c →
               ∀ diag up left,
                 diag = get t (i - 1) (j - 1)
                        + (if Ascii.eqb (char_at X i) (char_at Y j)
                           then mtch else mismatch) →
                 up = get t (i - 1) j + gap →
                 left = get t i (j - 1) + gap →
                 diag <= get t i j ∧ up <= get t i j ∧ left <= get t i j ∧
                 (get t i j = diag ∨ get t i j = up ∨ get t i j = left)).
Proof.
  intros HX HY Hr Hc Hs. split; [intros; apply SW_fill_eq|].
  destruct (NW_fill_spec X Y gap mtch mismatch t0 r c HX HY Hr Hc Hs)
    as (t & Ht & Hs' & Hb & Hrec).
  exists t. rewrite SW_fill_eq.
  split; [done|]. split; [done|]. split; [done|]. split; [done|]. split.
  - intros i j Hi Hj. apply (Hrec i j Hi Hj).
  - intros i j Hi Hj diag up left -> -> ->.
    pose proof (Hrec i j Hi Hj) as H.
    unfold recurrence, max3, score in H. lia.
Qed.

Lemma local_fill_is_global_fill_witness :
  len (s "*AC") = 3 ∧ len (s "*A") = 2 ∧ 1 <= 3 ∧ 1 <= 2 ∧
  shape [[0; -6]; [-6; 0]; [-12; 0]] 3 2 ∧
  ∃ t, SW_fill [[0; -6]; [-6; 0]; [-12; 0]] (s "*AC") (s "*A") (-6) 5 (-2) = Ok t ∧
       NW_fill [[0; -6]; [-6; 0]; [-12; 0]] (s "*AC") (s "*A") (-6) 5 (-2) = Ok t ∧
       get t 1 1 = 5 ∧ get t 2 1 = -1 ∧
       get t 1 0 + -2 = -8 ∧ get t 1 1 + -6 = -1 ∧ get t 2 0 + -6 = -18.
Proof.
  assert (shape [[0; -6]; [-6; 0]; [-12; 0]] 3 2) as Hs.
  { split; [reflexivity|]. repeat constructor. }
  split; [reflexivity|]. split; [reflexivity|]. split; [lia|]. split; [lia|].
  split; [exact Hs|].
  destruct (local_fill_is_global_fill [[0; -6]; [-6; 0]; [-12; 0]]
              (s "*AC") (s "*A") (-6) 5 (-2) 3 2
              eq_refl eq_refl ltac:(lia) ltac:(lia) Hs)
    as (_ & t & Hsw & Hnw & _ & Hb & Hrec & _).
  exists t. split; [exact Hsw|]. split; [exact Hnw|].
  assert (get t 1 1 = 5) as H11.
  { rewrite Hrec by lia. rewrite !Hb by lia. reflexivity. }
  assert (get t 2 1 = -1) as H21.
  { rewrite Hrec by lia. change (2 - 1) with 1. change (1 - 1) with 0.
    rewrite H11. rewrite !Hb by lia. reflexivity. }
  split; [exact H11|]. split; [exact H21|].
  rewrite H11. rewrite !Hb by lia. done.
Defined.

(** C9: entered with [i < 0] or [j < 0], either traceback raises its
    out-of-bounds error at once: whatever the table and the sequences are
    (none of them is read), the [results] list at the raise is the list
    the call was given. *)
Theorem traceback_out_of_bounds_fails_fast fuel t X Y g m n i j a1 a2 rs :
  i < 0 ∨ j < 0 →
  NW_traceBack (S fuel) t X Y g m n i j a1 a2 rs
  = Some (rs, Raise (TracebackOutOfBounds i j)) ∧
  SW_traceBack (S fuel) t X Y g m n i j a1 a2 rs
  = Some (rs, Raise (TracebackOutOfBounds i j)).
Proof.
  intros H. split.
  - by apply NW_traceBack_out_of_bounds.
  - by apply SW_traceBack_out_of_bounds.
Qed.

Lemma traceback_out_of_bounds_fails_fast_witness :
  (-1 < 0 ∨ 2 < 0) ∧
  NW_traceBack 1 [] [] [] (-6) 5 (-2) (-1) 2 (s "A") (s "-") [(s "C", s "C")]
  = Some ([(s "C", s "C")], Raise (TracebackOutOfBounds (-1) 2)) ∧
  SW_traceBack 1 [] [] [] (-6) 5 (-2) (-1) 2 (s "A") (s "-") [(s "C", s "C")]
  = Some ([(s "C", s "C")], Raise (TracebackOutOfBounds (-1) 2)).
Proof.
  split; [left; lia|].
  apply (traceback_out_of_bounds_fails_fast 0 [] [] [] (-6) 5 (-2) (-1) 2).
  left; lia.
Defined.

(** C10 (as amended): every recursive call of either traceback goes to a
    cell whose [i + j] is smaller, so a traceback started at a cell with
    [i >= 0] and [j >= 0] nests at most [i + j + 1] calls: when the
    interpreter allows that many, the traceback comes to an end, on any
    table; on a table of the shape of the sequences and from a cell of the
    table the global traceback then returns or raises its out-of-bounds
    error and the local traceback returns.  Hence an aligner that is
    allowed [len(X) + len(Y) + 1] nested calls returns a list or, the
    global one only, raises that error; [NeedlemanWunsch] and
    [SmithWaterman] are the aligners with that allowance.  With fewer
    nested calls than the longer sequence has symbols, the global aligner
    of two non-empty sequences does neither: the call is ended by the
    interpreter. *)
Theorem traceback_ends_within_call_depth :
  (∀ depth t X Y g m n i j a1 a2 rs,
     0 <= i → 0 <= j → i + j < Z.of_nat depth →
     (∃ out, NW_traceBack depth t X Y g m n i j a1 a2 rs = Some out) ∧
     (∃ out, SW_traceBack depth t X Y g m n i j a1 a2 rs = Some out) ∧
     (shape t (len X) (len Y) → i < len X → j < len Y →
      (∃ rs' r, NW_traceBack depth t X Y g m n i j a1 a2 rs = Some (rs', r) ∧
                (r = Ok tt ∨ ∃ i' j', r = Raise (TracebackOutOfBounds i' j'))) ∧
      (∃ rs', SW_traceBack depth t X Y g m n i j a1 a2 rs = Some (rs', Ok tt)))) ∧
  (∀ depth X Y gap mtch mismatch,
     len X + len Y < Z.of_nat depth →
     ((∃ rs, NeedlemanWunsch_within depth X Y gap mtch mismatch = Some (Ok rs)) ∨
      (∃ i j, NeedlemanWunsch_within depth X Y gap mtch mismatch
              = Some (Raise (TracebackOutOfBounds i j)))) ∧
     (∃ rs, SmithWaterman_within depth X Y gap mtch mismatch = Some (Ok rs))) ∧
  (∀ X Y gap mtch mismatch,
     NeedlemanWunsch X Y gap mtch mismatch
     = NeedlemanWunsch_within (S (length X) + S (length Y)) X Y gap mtch mismatch ∧
     SmithWaterman X Y gap mtch mismatch
     = SmithWaterman_within (S (length X) + S (length Y)) X Y gap mtch mismatch) ∧
  (∀ depth X Y gap mtch mismatch,
     1 <= len X → 1 <= len Y →
     Z.of_nat depth <= Z.max (len X - 1) (len Y - 1) →
     NeedlemanWunsch_within depth X Y gap mtch mismatch = None).
Proof.
  split; [|split; [|split]].
  - intros depth t X Y g m n i j a1 a2 rs Hi Hj Hsum.
    split; [by apply NW_traceBack_terminates|].
    split; [by apply SW_traceBack_terminates|].
    intros Hs HiX HjY.
    assert (∀ E : exn → Prop,
              (∀ i j, -1 <= i < len X → -1 <= j < len Y →
                      ∀ e, cell t i j = Raise e → E e) ∧
              (∀ i, 0 <= i < len X → ∀ e, subscript X i = Raise e → E e) ∧
              (∀ j, 0 <= j < len Y → ∀ e, subscript Y j = Raise e → E e))
      as Hsafe.
    { intros E. split; [|split].
      - intros i' j' Hi' Hj' e He.
        destruct (cell_safe t _ _ i' j' Hs) as [v Hv]; [lia..|]. congruence.
      - intros i' Hi' e He.
        destruct (subscript_safe X i') as [v Hv]; [lia|congruence].
      - intros j' Hj' e He.
        destruct (subscript_safe Y j') as [v Hv]; [lia|congruence]. }
    split.
    + destruct (Hsafe (fun e => ∃ i' j', e = TracebackOutOfBounds i' j'))
        as (Hc & HX & HY).
      assert (∀ i' j' : Z, ∃ i'' j'', TracebackOutOfBounds i' j'
                                      = TracebackOutOfBounds i'' j'') as Hoob
        by (intros i' j'; by exists i', j').
      destruct (NW_traceBack_post _ t X Y g m n _ _ Hc HX HY depth
                  Hoob i j a1 a2 HiX HjY ltac:(lia) ltac:(lia) rs)
        as (rs' & r & Hrun & Hr).
      exists rs', r. split; [done|]. destruct r as [[]|e]; [by left|right].
      destruct (Hr e eq_refl) as (i' & j' & ->). by exists i', j'.
    + destruct (Hsafe (fun _ => False)) as (Hc & HX & HY).
      destruct (SW_traceBack_post _ t X Y g m n _ _ Hc HX HY depth
                  i j a1 a2 ltac:(lia) ltac:(lia) ltac:(lia) rs)
        as (rs' & r & Hrun & Hr).
      exists rs'. destruct r as [[]|e]; [done|]. destruct (Hr e eq_refl).
  - intros depth X Y gap mtch mismatch Hdepth.
    assert (0 <= len X ∧ 0 <= len Y) as [HX HY] by (unfold len; lia).
    split.
    + apply NeedlemanWunsch_within_enough; lia.
    + by apply SmithWaterman_within_enough.
  - done.
  - intros depth X Y gap mtch mismatch. apply NeedlemanWunsch_within_overflows.
Qed.

Lemma traceback_ends_within_call_depth_witness :
  (∃ out, NW_traceBack 3 [[0; -6]; [-6; 5]] (s "*A") (s "*A") (-6) 5 (-2)
            1 1 [] [] [] = Some out) ∧
  (∃ out, SW_traceBack 3 [[0; -6]; [-6; 5]] (s "*A") (s "*A") (-6) 5 (-2)
            1 1 [] [] [] = Some out) ∧
  (∃ rs, SmithWaterman_within 7 (s "TAC") (s "GAC") (-6) 5 (-2) = Some (Ok rs)) ∧
  NeedlemanWunsch_within 2 (s "ACG") (s "ACG") (-6) 5 (-2) = None.
Proof.
  destruct traceback_ends_within_call_depth as (Hcell & Henough & _ & Hover).
  destruct (Hcell 3%nat [[0; -6]; [-6; 5]] (s "*A") (s "*A") (-6) 5 (-2)
              1 1 [] [] [] ltac:(lia) ltac:(lia) ltac:(simpl; lia))
    as (Hnw & Hsw & _).
  split; [exact Hnw|]. split; [exact Hsw|]. split.
  - apply (Henough 7%nat (s "TAC") (s "GAC") (-6) 5 (-2)). vm_compute. reflexivity.
  - apply (Hover 2%nat (s "ACG") (s "ACG") (-6) 5 (-2)); vm_compute; discriminate.
Defined.

(** C10 (as stated) fails: the interpreter allows fewer than 1000 nested
    calls (its default recursion limit), and with as many as 1000 the
    global aligner of two sequences of 1200 symbols neither returns a list
    nor raises the out-of-bounds error: the traceback asks for 1200 nested
    calls before it appends or raises anything, and the interpreter ends
    the call with its own error. *)
Lemma aligner_exceeds_call_depth :
  ¬ ((∃ rs, NeedlemanWunsch_within 1000 (replicate 1200 "A"%char)
              (replicate 1200 "A"%char) (-6) 5 (-2) = Some (Ok rs)) ∨
     (∃ i j, NeedlemanWunsch_within 1000 (replicate 1200 "A"%char)
               (replicate 1200 "A"%char) (-6) 5 (-2)
             = Some (Raise (TracebackOutOfBounds i j)))).
Proof.
  rewrite NeedlemanWunsch_within_overflows.
  - by intros [[rs ?]|(i & j & ?)].
  - unfold len. rewrite length_replicate. lia.
  - unfold len. rewrite length_replicate. lia.
  - unfold len. rewrite length_replicate. lia.
Qed.

(** * Further properties of the aligners *)

(** ** The starting tables *)

Lemma blank_rows_zero (r c : Z) :
  0 <= r → 0 <= c →
  ∃ t, for_range 0 r (fun _ t => Ok (t ++ [replicate (Z.to_nat c) 0])) []
       = Ok t ∧ shape t r c ∧ ∀ i j, get t i j = 0.
Proof.
  intros Hr Hc.
  apply (for_range_post (fun k t => shape t k c ∧ ∀ i j, get t i j = 0));
    [done| | |by intros t [? ?]].
  - split; [split; [done|constructor]|]. intros i j. unfold get.
    by destruct (Z.to_nat i), (Z.to_nat j).
  - intros k t Hk [[Hlen Hrows] Hzero]. eexists. split; [reflexivity|].
    split.
    + unfold shape, len in *. split.
      * rewrite length_app. simpl. lia.
      * apply Forall_app. split; [done|].
        constructor; [|constructor]. rewrite length_replicate. lia.
    + intros i j. unfold get in *. rewrite !nth_lookup.
      destruct (decide (Z.to_nat i < length t)%nat) as [Hlt|Hge].
      * rewrite lookup_app_l by done. specialize (Hzero i j).
        by rewrite !nth_lookup in Hzero.
      * rewrite lookup_app_r by lia.
        destruct (Z.to_nat i - length t)%nat as [|k'] eqn:Hk'; simpl.
        -- destruct (replicate (Z.to_nat c) 0 !! Z.to_nat j) as [v|] eqn:Hv; [|done].
           simpl. by apply lookup_replicate in Hv as [-> _].
        -- by destruct (Z.to_nat j).
Qed.

(** X1: [NW_makeTable] raises nothing and returns a table of [len(X)+1]
    rows and [len(Y)+1] columns whose row 0 holds [j * g], whose column 0
    holds [i * g] and whose other cells hold 0. *)
Theorem NW_makeTable_contents X Y g :
  ∃ t, NW_makeTable X Y g = Ok t ∧ shape t (len X + 1) (len Y + 1) ∧
       ∀ i j, 0 <= i <= len X → 0 <= j <= len Y →
              get t i j = if i =? 0 then j * g else if j =? 0 then i * g else 0.
Proof.
  assert (0 <= len X ∧ 0 <= len Y) as [HX HY] by (unfold len; lia).
  unfold NW_makeTable.
  destruct (blank_rows_zero (len X + 1) (len Y + 1)) as (t1 & -> & Hs1 & Hz1);
    [lia..|].
  cbn [mbind result_bind].
  destruct (for_range_inv
    (fun k t => shape t (len X + 1) (len Y + 1) ∧
                ∀ i j, 0 <= i <= len X → 0 <= j <= len Y →
                       get t i j = if (j =? 0) && (i <? k) then i * g else 0)
    (fun i t => set_cell t i 0 (i * g)) 0 (len X + 1) t1)
    as (t2 & -> & Hs2 & Hv2); [lia| | |].
  { split; [done|]. intros i j Hi Hj. rewrite Hz1.
    by replace ((j =? 0) && (i <? 0)) with false by lia. }
  { intros k t Hk [Hs Hv].
    destruct (set_cell_ok t _ _ k 0 (k * g) Hs) as (t' & -> & Hs' & Hnew & Hoth);
      [lia..|].
    exists t'. split; [done|]. split; [done|].
    intros i j Hi Hj. destruct (decide (i = k ∧ j = 0)) as [[-> ->]|Hne].
    - rewrite Hnew. by replace ((0 =? 0) && (k <? k + 1)) with true by lia.
    - rewrite Hoth, Hv by lia.
      by replace ((j =? 0) && (i <? k + 1)) with ((j =? 0) && (i <? k)) by lia. }
  cbn [mbind result_bind].
  destruct (for_range_inv
    (fun k t => shape t (len X + 1) (len Y + 1) ∧
                ∀ i j, 0 <= i <= len X → 0 <= j <= len Y →
                       get t i j = if (i =? 0) && (j <? k) then j * g
                                   else if j =? 0 then i * g else 0)
    (fun j t => set_cell t 0 j (j * g)) 0 (len Y + 1) t2)
    as (t3 & -> & Hs3 & Hv3); [lia| | |].
  { split; [done|]. intros i j Hi Hj. rewrite Hv2 by done.
    replace ((i =? 0) && (j <? 0)) with false by lia.
    replace (i <? len X + 1) with true by lia. by rewrite andb_true_r. }
  { intros k t Hk [Hs Hv].
    destruct (set_cell_ok t _ _ 0 k (k * g) Hs) as (t' & -> & Hs' & Hnew & Hoth);
      [lia..|].
    exists t'. split; [done|]. split; [done|].
    intros i j Hi Hj. destruct (decide (i = 0 ∧ j = k)) as [[-> ->]|Hne].
    - rewrite Hnew. by replace ((0 =? 0) && (k <? k + 1)) with true by lia.
    - rewrite Hoth, Hv by lia.
      by replace ((i =? 0) && (j <? k + 1)) with ((i =? 0) && (j <? k)) by lia. }
  exists t3. split; [done|]. split; [done|].
  intros i j Hi Hj. rewrite Hv3 by done.
  replace (j <? len Y + 1) with true by lia. by rewrite andb_true_r.
Qed.

(** X2: [SW_makeTable] raises nothing and returns a table of [len(X)+1]
    rows and [len(Y)+1] columns in which every cell holds 0. *)
Theorem SW_makeTable_contents X Y :
  ∃ t, SW_makeTable X Y = Ok t ∧ shape t (len X + 1) (len Y + 1) ∧
       ∀ i j, 0 <= i <= len X → 0 <= j <= len Y → get t i j = 0.
Proof.
  destruct (blank_rows_zero (len X + 1) (len Y + 1)) as (t & Ht & Hs & Hz);
    [unfold len; lia..|].
  exists t. split; [exact Ht|]. split; [done|]. intros i j _ _. apply Hz.
Qed.

(** ** The cells of the filled global table *)

Lemma filled_best_Z X Y gap mtch mismatch t (i j : Z) :
  NW_filled X Y gap mtch mismatch = Ok t →
  0 <= i <= len X → 0 <= j <= len Y →
  get t i j =
  best gap mtch mismatch (rev (take (Z.to_nat i) X)) (rev (take (Z.to_nat j) Y)).
Proof.
  intros Ht Hi Hj. unfold len in *.
  pose proof (filled_best X Y gap mtch mismatch t Ht (Z.to_nat i) (Z.to_nat j)) as H.
  rewrite !Z2Nat.id in H by lia. apply H; lia.
Qed.

Lemma filled_cell_upper X Y gap mtch mismatch t (i j : Z) a :
  NW_filled X Y gap mtch mismatch = Ok t →
  0 <= i <= len X → 0 <= j <= len Y →
  aligns (take (Z.to_nat i) X) (take (Z.to_nat j) Y) a →
  alignment_score gap mtch mismatch a <= get t i j.
Proof.
  intros Ht Hi Hj Ha.
  rewrite (filled_best_Z X Y gap mtch mismatch t i j Ht) by done.
  rewrite <- alignment_score_rev. apply best_upper. by apply aligns_rev.
Qed.

Lemma filled_cell_attained X Y gap mtch mismatch t (i j : Z) :
  NW_filled X Y gap mtch mismatch = Ok t →
  0 <= i <= len X → 0 <= j <= len Y →
  ∃ a, aligns (take (Z.to_nat i) X) (take (Z.to_nat j) Y) a ∧
       alignment_score gap mtch mismatch a = get t i j.
Proof.
  intros Ht Hi Hj.
  rewrite (filled_best_Z X Y gap mtch mismatch t i j Ht) by done.
  destruct (best_attained gap mtch mismatch
              (rev (take (Z.to_nat i) X)) (rev (take (Z.to_nat j) Y)))
    as (a & Ha & Hsc).
  exists (rev a). split.
  - apply aligns_rev in Ha. by rewrite !rev_involutive in Ha.
  - by rewrite alignment_score_rev.
Qed.

(** X3: every cell [(i, j)] of the table filled by [NeedlemanWunsch] holds
    the best score of the alignments of the first [i] symbols of [X] with
    the first [j] symbols of [Y]: no such alignment scores more and one of
    them scores exactly that. *)
Theorem global_table_cells_are_prefix_optima X Y gap mtch mismatch (i j : Z) :
  0 <= i <= len X → 0 <= j <= len Y →
  ∃ t, NW_filled X Y gap mtch mismatch = Ok t ∧
       (∀ a, aligns (take (Z.to_nat i) X) (take (Z.to_nat j) Y) a →
             alignment_score gap mtch mismatch a <= get t i j) ∧
       (∃ a, aligns (take (Z.to_nat i) X) (take (Z.to_nat j) Y) a ∧
             alignment_score gap mtch mismatch a = get t i j).
Proof.
  intros Hi Hj.
  destruct (NW_filled_spec X Y gap mtch mismatch) as (t & Ht & _).
  exists t. split; [done|]. split.
  - intros a. by apply filled_cell_upper.
  - by apply filled_cell_attained.
Qed.

Lemma global_table_cells_are_prefix_optima_witness :
  0 <= 2 <= len (s "ACGT") ∧ 0 <= 1 <= len (s "AG") ∧
  ∃ t, NW_filled (s "ACGT") (s "AG") (-6) 5 (-2) = Ok t ∧
       (∀ a, aligns (take (Z.to_nat 2) (s "ACGT")) (take (Z.to_nat 1) (s "AG")) a →
             alignment_score (-6) 5 (-2) a <= get t 2 1) ∧
       (∃ a, aligns (take (Z.to_nat 2) (s "ACGT")) (take (Z.to_nat 1) (s "AG")) a ∧
             alignment_score (-6) 5 (-2) a = get t 2 1).
Proof.
  assert (0 <= 2 <= len (s "ACGT")) as H1 by (unfold len; simpl; lia).
  assert (0 <= 1 <= len (s "AG")) as H2 by (unfold len; simpl; lia).
  split; [exact H1|]. split; [exact H2|].
  exact (global_table_cells_are_prefix_optima (s "ACGT") (s "AG") (-6) 5 (-2) 2 1 H1 H2).
Defined.

(** ** Exchanging the two sequences *)

Lemma aligns_flip X Y a : aligns X Y a → aligns Y X (map flip a).
Proof.
  intros [<- <-]. split; induction a as [|[x y|x|y] a IH]; simpl; congruence.
Qed.

Lemma alignment_score_flip gap mtch mismatch a :
  alignment_score gap mtch mismatch (map flip a) = alignment_score gap mtch mismatch a.
Proof.
  induction a as [|col a IH]; [done|].
  simpl map. rewrite !alignment_score_cons, IH. f_equal.
  destruct col as [x y|x|y]; simpl; [|done..].
  unfold score. by rewrite Ascii.eqb_sym.
Qed.

Lemma best_sym gap mtch mismatch xs ys :
  best gap mtch mismatch xs ys = best gap mtch mismatch ys xs.
Proof.
  assert (∀ xs ys, best gap mtch mismatch xs ys <= best gap mtch mismatch ys xs) as Hle.
  { clear. intros xs ys.
    destruct (best_attained gap mtch mismatch xs ys) as (a & Ha & <-).
    rewrite <- alignment_score_flip. apply best_upper. by apply aligns_flip. }
  apply Z.le_antisymm; apply Hle.
Qed.

(** X4: the global score does not depend on the order of the two
    sequences: the table filled for [Y] and [X] is the transpose of the
    table filled for [X] and [Y], and the two corner cells, the scores
    reported, are equal. *)
Theorem global_table_transpose X Y gap mtch mismatch :
  ∃ t t' sc,
    NW_filled X Y gap mtch mismatch = Ok t ∧
    NW_filled Y X gap mtch mismatch = Ok t' ∧
    (∀ i j, 0 <= i <= len X → 0 <= j <= len Y → get t i j = get t' j i) ∧
    corner t = Ok sc ∧ corner t' = Ok sc.
Proof.
  destruct (NW_filled_spec X Y gap mtch mismatch) as (t & Ht & Hs & _).
  destruct (NW_filled_spec Y X gap mtch mismatch) as (t' & Ht' & Hs' & _).
  assert (∀ i j, 0 <= i <= len X → 0 <= j <= len Y → get t i j = get t' j i) as Htr.
  { intros i j Hi Hj.
    rewrite (filled_best_Z X Y gap mtch mismatch t i j Ht) by done.
    rewrite (filled_best_Z Y X gap mtch mismatch t' j i Ht') by done.
    apply best_sym. }
  assert (0 <= len X ∧ 0 <= len Y) as [HX HY] by (unfold len; lia).
  exists t, t', (get t (len X) (len Y)).
  split; [done|]. split; [done|]. split; [done|]. split.
  - rewrite (corner_spec t _ _ Hs) by lia. do 3 f_equal; lia.
  - rewrite (corner_spec t' _ _ Hs') by lia. rewrite Htr by lia.
    do 3 f_equal; lia.
Qed.

(** ** What the global aligner returns *)

(** X5: every pair returned by [NeedlemanWunsch] is an optimal alignment of
    [X] without its last symbol and [Y] without its last symbol, written as
    two strands: no alignment of these two sequences scores more. *)
Theorem NeedlemanWunsch_returns_optimal X Y gap mtch mismatch rs p :
  NeedlemanWunsch X Y gap mtch mismatch = Some (Ok rs) → In p rs →
  ∃ cols, optimal gap mtch mismatch (but_last X) (but_last Y) cols ∧
          p = (strand_top cols, strand_bottom cols).
Proof.
  intros Hrun Hin.
  destruct (NeedlemanWunsch_pairs _ _ _ _ _ _ _ Hrun Hin)
    as (t & cols & Ht & Hal & Hsc & ->).
  assert (X ≠ [] ∧ Y ≠ []) as [HX HY].
  { split; intros ->.
    - rewrite NeedlemanWunsch_empty_raises in Hrun by (by left). discriminate.
    - rewrite NeedlemanWunsch_empty_raises in Hrun by (by right). discriminate. }
  assert (1 <= len X ∧ 1 <= len Y) as [HlX HlY].
  { unfold len. destruct X, Y; simpl length; try done; lia. }
  exists cols. split; [|done]. split; [done|].
  intros a Ha. rewrite Hsc.
  apply (filled_cell_upper X Y gap mtch mismatch t _ _ a Ht); [lia..|].
  unfold but_last in Ha.
  replace (Z.to_nat (len X - 1)) with (length X - 1)%nat by (unfold len; lia).
  replace (Z.to_nat (len Y - 1)) with (length Y - 1)%nat by (unfold len; lia).
  done.
Qed.

Lemma NeedlemanWunsch_returns_optimal_witness :
  NeedlemanWunsch (s "ACT") (s "AGT") (-6) 5 (-2) = Some (Ok [(s "AC", s "AG")]) ∧
  In (s "AC", s "AG") [(s "AC", s "AG")] ∧
  ∃ cols, optimal (-6) 5 (-2) (but_last (s "ACT")) (but_last (s "AGT")) cols ∧
          (s "AC", s "AG") = (strand_top cols, strand_bottom cols).
Proof.
  assert (NeedlemanWunsch (s "ACT") (s "AGT") (-6) 5 (-2)
          = Some (Ok [(s "AC", s "AG")])) as Hrun by (vm_compute; reflexivity).
  assert (In (s "AC", s "AG") [(s "AC", s "AG")]) as Hin by (left; reflexivity).
  split; [exact Hrun|]. split; [exact Hin|].
  exact (NeedlemanWunsch_returns_optimal _ _ _ _ _ _ _ Hrun Hin).
Defined.

(** ** Every optimal alignment is returned *)

Lemma grows_In {A} (c : M A) rs rs' r p :
  grows c → c rs = Some (rs', r) → In p rs → In p rs'.
Proof.
  intros Hc Hrun Hin. destruct (Hc _ _ _ Hrun) as [(new & -> & _) _].
  apply in_or_app. by left.
Qed.

Lemma yields_append p : yields p (append p).
Proof. intros rs rs' [= <-]. apply in_or_app. right. by left. Qed.

Lemma yields_first p (c : M unit) (f : unit → M unit) :
  yields p c → grows (f tt) → yields p (c ≫= f).
Proof.
  intros Hc Hf rs rs'. unfold mbind, M_bind.
  destruct (c rs) as [[rs1 [[]|e]]|] eqn:Hrun; [|discriminate..].
  intros Hrun2. eapply grows_In; [exact Hf|exact Hrun2|]. by eapply Hc.
Qed.

Lemma yields_later {A} Q (P : A → Prop) p (c : M A) (f : A → M unit) :
  emits Q P c → (∀ a, P a → yields p (f a)) → yields p (c ≫= f).
Proof.
  intros Hc Hf rs rs'. unfold mbind, M_bind.
  destruct (c rs) as [[rs1 [a|e]]|] eqn:Hrun; [|discriminate..].
  intros Hrun2. destruct (Hc _ _ _ Hrun) as [_ HP].
  by eapply (Hf a (HP a eq_refl)).
Qed.

Lemma yields_skip {A} p (c : M A) (f : A → M unit) :
  grows c → (∀ a, yields p (f a)) → yields p (c ≫= f).
Proof. intros Hc Hf. eapply yields_later; [exact Hc|]. intros a _. apply Hf. Qed.

Lemma grows_bind {A B} (c : M A) (f : A → M B) :
  grows c → (∀ a, grows (f a)) → grows (c ≫= f).
Proof. intros Hc Hf. eapply emits_bind; [exact Hc|]. intros a _. apply Hf. Qed.

Lemma grows_lift {A} (r : result A) : grows (lift r).
Proof. by apply emits_lift. Qed.

Lemma grows_ret {A} (a : A) : grows (mret a).
Proof. by apply emits_ret. Qed.

Lemma grows_when b c : grows c → grows (when b c).
Proof. intros Hc. apply emits_when. by intros _. Qed.

Lemma grows_append p : grows (append p).
Proof. by apply emits_append. Qed.

Ltac grows_step :=
  first
    [ apply grows_ret
    | apply grows_append
    | apply grows_lift
    | apply emits_raise
    | apply emits_out_of_fuel
    | apply grows_when
    | apply grows_bind; [|intros ?]
    | match goal with |- grows (if ?b then _ else _) => destruct b end ].

Lemma NW_traceBack_grows fuel t X Y g m n :
  ∀ i j a1 a2, grows (NW_traceBack fuel t X Y g m n i j a1 a2).
Proof.
  induction fuel as [|fuel IH]; intros i j a1 a2; simpl.
  - apply emits_out_of_fuel.
  - repeat first [apply IH | grows_step].
Qed.

Lemma SW_traceBack_grows fuel t X Y g m n :
  ∀ i j a1 a2, grows (SW_traceBack fuel t X Y g m n i j a1 a2).
Proof.
  induction fuel as [|fuel IH]; intros i j a1 a2; simpl.
  - apply emits_out_of_fuel.
  - repeat first [apply IH | grows_step].
Qed.

Lemma take_snoc_inv (W : str) (i : Z) l x :
  0 <= i <= len W → l ++ [x] = take (Z.to_nat i) W →
  1 <= i ∧ l = take (Z.to_nat (i - 1)) W ∧ x = char_at (sentinel :: W) i.
Proof.
  intros Hi Heq.
  assert (1 <= i) as Hi1.
  { destruct (decide (i = 0)) as [->|]; [|lia].
    simpl in Heq. by destruct l. }
  rewrite (take_char_at W i) in Heq by lia.
  apply app_inj_tail in Heq as [-> ->]. done.
Qed.

Lemma take_nil_inv (W : str) (i : Z) :
  0 <= i <= len W → [] = take (Z.to_nat i) W → i = 0.
Proof.
  intros Hi Heq. unfold len in Hi.
  destruct (Z.to_nat i) as [|k] eqn:Hk; [lia|].
  destruct W; simpl in *; [lia|discriminate].
Qed.

Section Complete.
Variables (X Y : str) (gap mtch mismatch : Z) (t : table).
Hypothesis Hshape : shape t (len X + 1) (len Y + 1).
Hypothesis Hcol : ∀ i, 0 <= i <= len X → get t i 0 = i * gap.
Hypothesis Hrow : ∀ j, 0 <= j <= len Y → get t 0 j = j * gap.
Hypothesis Hrec :
  ∀ i j, 1 <= i <= len X → 1 <= j <= len Y →
         recurrence (sentinel :: X) (sentinel :: Y) gap mtch mismatch t i j.
Hypothesis Hupper :
  ∀ i j a, 0 <= i <= len X → 0 <= j <= len Y →
           aligns (take (Z.to_nat i) X) (take (Z.to_nat j) Y) a →
           alignment_score gap mtch mismatch a <= get t i j.

Lemma step_up_lower i j :
  1 <= i <= len X → 0 <= j <= len Y → get t (i - 1) j + gap <= get t i j.
Proof.
  intros Hi Hj. destruct (decide (j = 0)) as [->|Hj0].
  - rewrite !Hcol by lia. lia.
  - rewrite (Hrec i j) by lia. unfold max3. lia.
Qed.

Lemma step_left_lower i j :
  0 <= i <= len X → 1 <= j <= len Y → get t i (j - 1) + gap <= get t i j.
Proof.
  intros Hi Hj. destruct (decide (i = 0)) as [->|Hi0].
  - rewrite !Hrow by lia. lia.
  - rewrite (Hrec i j) by lia. unfold max3. lia.
Qed.

Lemma step_diagonal_lower i j :
  1 <= i <= len X → 1 <= j <= len Y →
  get t (i - 1) (j - 1)
  + score mtch mismatch (char_at (sentinel :: X) i) (char_at (sentinel :: Y) j)
  <= get t i j.
Proof. intros Hi Hj. rewrite (Hrec i j) by lia. unfold max3. lia. Qed.

Lemma match_test_emits (Q : alignment → Prop) (i j a d wanted : Z) (neg : bool) :
  0 <= i <= len X → 0 <= j <= len Y →
  emits Q
    (fun b : bool =>
       b = (a - d =? wanted)
           && xorb neg (Ascii.eqb (char_at (sentinel :: X) i)
                                  (char_at (sentinel :: Y) j)))
    (if a - d =? wanted
     then xi ← lift (subscript (sentinel :: X) i);
          yj ← lift (subscript (sentinel :: Y) j);
          mret (xorb neg (Ascii.eqb xi yj))
     else mret false).
Proof.
  intros Hi Hj. destruct (a - d =? wanted).
  - eapply emits_bind; [apply subscript_sentinel_emits; lia|intros xi ->].
    eapply emits_bind; [apply subscript_sentinel_emits; lia|intros yj ->].
    by apply emits_ret.
  - by apply emits_ret.
Qed.

Ltac skip_step :=
  apply yields_skip; [repeat first [apply NW_traceBack_grows | grows_step]|intros ?].

Ltac read_cell :=
  eapply (yields_later (fun _ => True)); [apply (cell_emits X Y t Hshape); lia|cbv beta; intros ? ?].

Ltac read_char :=
  eapply (yields_later (fun _ => True)); [apply subscript_sentinel_emits; lia|intros ? ->].

(** From a cell of the table the traceback appends every alignment of the
    two prefixes whose score is the value of the cell, unless it raises. *)
Lemma NW_traceBack_yields cols :
  ∀ fuel i j a1 a2,
    0 <= i <= len X → 0 <= j <= len Y → i + j < Z.of_nat fuel →
    aligns (take (Z.to_nat i) X) (take (Z.to_nat j) Y) cols →
    alignment_score gap mtch mismatch cols = get t i j →
    yields (strand_top cols ++ rev a1, strand_bottom cols ++ rev a2)
           (NW_traceBack fuel t (sentinel :: X) (sentinel :: Y) gap mtch mismatch
                         i j a1 a2).
Proof.
  induction cols as [|col cols IH] using rev_ind;
    intros fuel i j a1 a2 Hi Hj Hfuel [Htop Hbot] Hsc;
    (destruct fuel as [|fuel]; [lia|]).
  - simpl in Htop, Hbot.
    apply take_nil_inv in Htop as ->; [|done].
    apply take_nil_inv in Hbot as ->; [|done].
    simpl. intros rs rs' [= <-]. apply in_or_app. right. by left.
  - rewrite top_app in Htop. rewrite bottom_app in Hbot.
    rewrite alignment_score_app, alignment_score_cons, alignment_score_nil in Hsc.
    rewrite strand_top_app, strand_bottom_app, <- !app_assoc.
    simpl NW_traceBack.
    replace ((i <? 0) || (j <? 0)) with false by lia.
    destruct col as [x y|x|y]; simpl in Htop, Hbot, Hsc |- *.
    + (* a symbol of each sequence *)
      apply take_snoc_inv in Htop as (Hi1 & Htop & ->); [|done].
      apply take_snoc_inv in Hbot as (Hj1 & Hbot & ->); [|done].
      pose proof (Hupper (i - 1) (j - 1) cols ltac:(lia) ltac:(lia)
                    (conj Htop Hbot)) as Hup.
      pose proof (step_diagonal_lower i j ltac:(lia) ltac:(lia)) as Hlow.
      assert (∀ b1 b2,
                yields (strand_top cols ++ rev b1, strand_bottom cols ++ rev b2)
                       (NW_traceBack fuel t (sentinel :: X) (sentinel :: Y) gap mtch mismatch
                         (i - 1) (j - 1) b1 b2)) as Hcall.
      { intros b1 b2. apply IH; [lia..|done|lia]. }
      do 2 skip_step.
      replace ((i =? 0) && (j =? 0)) with false by lia.
      read_cell. read_cell. read_cell. read_cell.
      match goal with Ha : _ → _ → ?a = get t i j,
                      Hd : _ → _ → ?d = get t (i - 1) (j - 1) |- _ =>
        rewrite (Ha ltac:(lia) ltac:(lia)), (Hd ltac:(lia) ltac:(lia)) end.
      unfold score in *.
      destruct (Ascii.eqb (char_at (sentinel :: X) i) (char_at (sentinel :: Y) j))
        eqn:Heq.
      * eapply (yields_later (fun _ => True));
          [apply (match_test_emits _ i j _ _ mtch false); lia|cbv beta; intros ? ->].
        rewrite Heq.
        replace (get t i j - get t (i - 1) (j - 1) =? mtch) with true by lia.
        apply yields_first;
          [|repeat first [apply NW_traceBack_grows | grows_step]].
        simpl when. read_char. read_char.
        specialize (Hcall (a1 ++ [char_at (sentinel :: X) i])
                          (a2 ++ [char_at (sentinel :: Y) j])).
        by rewrite !rev_app_distr in Hcall.
      * apply yields_skip.
        { repeat first [apply NW_traceBack_grows | grows_step]. }
        intros is_m. skip_step.
        eapply (yields_later (fun _ => True));
          [apply (match_test_emits _ i j _ _ mismatch true); lia|cbv beta; intros ? ->].
        rewrite Heq.
        replace (get t i j - get t (i - 1) (j - 1) =? mismatch) with true by lia.
        apply yields_first;
          [|repeat first [apply NW_traceBack_grows | grows_step]].
        simpl when. read_char. read_char.
        specialize (Hcall (a1 ++ [char_at (sentinel :: X) i])
                          (a2 ++ [char_at (sentinel :: Y) j])).
        by rewrite !rev_app_distr in Hcall.
    + (* a symbol of X over a gap *)
      apply take_snoc_inv in Htop as (Hi1 & Htop & ->); [|done].
      rewrite app_nil_r in Hbot.
      pose proof (Hupper (i - 1) j cols ltac:(lia) ltac:(lia)
                    (conj Htop Hbot)) as Hup.
      pose proof (step_up_lower i j ltac:(lia) ltac:(lia)) as Hlow.
      assert (∀ b1 b2,
                yields (strand_top cols ++ rev b1, strand_bottom cols ++ rev b2)
                       (NW_traceBack fuel t (sentinel :: X) (sentinel :: Y) gap mtch mismatch
                         (i - 1) j b1 b2)) as Hcall.
      { intros b1 b2. apply IH; [lia..|done|lia]. }
      skip_step.
      destruct (decide (j = 0)) as [->|Hj0].
      * replace ((0 =? 0) && negb (i =? 0)) with true by lia.
        apply yields_first;
          [|repeat first [apply NW_traceBack_grows | grows_step]].
        simpl when. read_char.
        specialize (Hcall (a1 ++ [char_at (sentinel :: X) i]) (a2 ++ [gap_marker])).
        by rewrite !rev_app_distr in Hcall.
      * skip_step.
        replace ((i =? 0) && (j =? 0)) with false by lia.
        read_cell. read_cell. read_cell. read_cell.
        do 4 skip_step.
        match goal with Ha : _ → _ → ?a = get t i j,
                        Hb : _ → _ → ?b = get t (i - 1) j |- _ =>
          rewrite (Ha ltac:(lia) ltac:(lia)), (Hb ltac:(lia) ltac:(lia)) end.
        replace (get t i j - get t (i - 1) j =? gap) with true by lia.
        apply yields_first;
          [|repeat first [apply NW_traceBack_grows | grows_step]].
        simpl when. read_char.
        specialize (Hcall (a1 ++ [char_at (sentinel :: X) i]) (a2 ++ [gap_marker])).
        by rewrite !rev_app_distr in Hcall.
    + (* a gap over a symbol of Y *)
      apply take_snoc_inv in Hbot as (Hj1 & Hbot & ->); [|done].
      rewrite app_nil_r in Htop.
      pose proof (Hupper i (j - 1) cols ltac:(lia) ltac:(lia)
                    (conj Htop Hbot)) as Hup.
      pose proof (step_left_lower i j ltac:(lia) ltac:(lia)) as Hlow.
      assert (∀ b1 b2,
                yields (strand_top cols ++ rev b1, strand_bottom cols ++ rev b2)
                       (NW_traceBack fuel t (sentinel :: X) (sentinel :: Y) gap mtch mismatch
                         i (j - 1) b1 b2)) as Hcall.
      { intros b1 b2. apply IH; [lia..|done|lia]. }
      destruct (decide (i = 0)) as [->|Hi0].
      * replace ((0 =? 0) && negb (j =? 0)) with true by lia.
        apply yields_first;
          [|repeat first [apply NW_traceBack_grows | grows_step]].
        simpl when. read_char.
        specialize (Hcall (a1 ++ [gap_marker]) (a2 ++ [char_at (sentinel :: Y) j])).
        by rewrite !rev_app_distr in Hcall.
      * do 2 skip_step.
        replace ((i =? 0) && (j =? 0)) with false by lia.
        read_cell. read_cell. read_cell. read_cell.
        do 5 skip_step.
        match goal with Ha : _ → _ → ?a = get t i j,
                        Hc : _ → _ → ?c = get t i (j - 1) |- _ =>
          rewrite (Ha ltac:(lia) ltac:(lia)), (Hc ltac:(lia) ltac:(lia)) end.
        replace (get t i j - get t i (j - 1) =? gap) with true by lia.
        simpl when. read_char.
        specialize (Hcall (a1 ++ [gap_marker]) (a2 ++ [char_at (sentinel :: Y) j])).
        by rewrite !rev_app_distr in Hcall.
Qed.
End Complete.

Lemma NeedlemanWunsch_returns_nonempty_inputs X Y gap mtch mismatch rs :
  NeedlemanWunsch X Y gap mtch mismatch = Some (Ok rs) →
  1 <= len X ∧ 1 <= len Y.
Proof.
  intros Hrun.
  assert (X ≠ [] ∧ Y ≠ []) as [HX HY].
  { split; intros ->.
    - rewrite NeedlemanWunsch_empty_raises in Hrun by (by left). discriminate.
    - rewrite NeedlemanWunsch_empty_raises in Hrun by (by right). discriminate. }
  unfold len. destruct X, Y; simpl length; try done; lia.
Qed.

Lemma NeedlemanWunsch_yields X Y gap mtch mismatch rs cols :
  NeedlemanWunsch X Y gap mtch mismatch = Some (Ok rs) →
  optimal gap mtch mismatch (but_last X) (but_last Y) cols →
  In (strand_top cols, strand_bottom cols) rs.
Proof.
  intros Hrun [Hal Hopt].
  destruct (NeedlemanWunsch_returns_nonempty_inputs _ _ _ _ _ _ Hrun) as [HlX HlY].
  unfold NeedlemanWunsch in Hrun.
  destruct (NW_filled_spec X Y gap mtch mismatch)
    as (t & Ht & Hs & Hcol & Hrow & Hrec).
  rewrite Ht in Hrun. unfold run in Hrun.
  assert (Z.to_nat (len X - 1) = (length X - 1)%nat ∧
          Z.to_nat (len Y - 1) = (length Y - 1)%nat) as [HnX HnY]
    by (unfold len; lia).
  unfold but_last in Hal, Hopt. rewrite <- HnX, <- HnY in Hal, Hopt.
  assert (alignment_score gap mtch mismatch cols = get t (len X - 1) (len Y - 1))
    as Hsc.
  { apply Z.le_antisymm.
    - apply (filled_cell_upper X Y gap mtch mismatch t _ _ cols Ht); [lia..|done].
    - destruct (filled_cell_attained X Y gap mtch mismatch t (len X - 1) (len Y - 1) Ht)
        as (a & Ha & <-); [lia..|]. by apply Hopt. }
  pose proof (NW_traceBack_yields X Y gap mtch mismatch t Hs Hcol Hrow Hrec
                (fun i j a => filled_cell_upper X Y gap mtch mismatch t i j a Ht)
                cols (length (sentinel :: X) + length (sentinel :: Y))
                (len X - 1) (len Y - 1) [] []
                ltac:(lia) ltac:(lia) ltac:(unfold len; simpl length; lia) Hal Hsc)
    as Hy.
  simpl rev in Hy. rewrite !app_nil_r in Hy.
  replace (len (sentinel :: X) - 2) with (len X - 1) in Hrun
    by (unfold len; simpl length; lia).
  replace (len (sentinel :: Y) - 2) with (len Y - 1) in Hrun
    by (unfold len; simpl length; lia).
  destruct (NW_traceBack _ t _ _ gap mtch mismatch (len X - 1) (len Y - 1) [] [] [])
    as [[rs' [[]|e]]|] eqn:Hc; [|discriminate..].
  injection Hrun as <-. by eapply Hy.
Qed.

(** X6: when [NeedlemanWunsch] returns, its list holds every optimal
    alignment of [X] without its last symbol and [Y] without its last
    symbol: the enumeration of the tied moves leaves no optimal alignment
    out. *)
Theorem NeedlemanWunsch_returns_every_optimal X Y gap mtch mismatch rs cols :
  NeedlemanWunsch X Y gap mtch mismatch = Some (Ok rs) →
  optimal gap mtch mismatch (but_last X) (but_last Y) cols →
  In (strand_top cols, strand_bottom cols) rs.
Proof. apply NeedlemanWunsch_yields. Qed.

Lemma NeedlemanWunsch_returns_every_optimal_witness :
  NeedlemanWunsch (s "ACT") (s "AGT") (-6) 5 (-2) = Some (Ok [(s "AC", s "AG")]) ∧
  optimal (-6) 5 (-2) (but_last (s "ACT")) (but_last (s "AGT"))
    [Both "A" "A"; Both "C" "G"] ∧
  In (strand_top [Both "A" "A"; Both "C" "G"],
      strand_bottom [Both "A" "A"; Both "C" "G"]) [(s "AC", s "AG")].
Proof.
  assert (NeedlemanWunsch (s "ACT") (s "AGT") (-6) 5 (-2)
          = Some (Ok [(s "AC", s "AG")])) as Hrun by (vm_compute; reflexivity).
  assert (optimal (-6) 5 (-2) (but_last (s "ACT")) (but_last (s "AGT"))
            [Both "A" "A"; Both "C" "G"]) as Hopt.
  { split; [split; reflexivity|]. intros a Ha.
    destruct (NW_filled_spec (s "ACT") (s "AGT") (-6) 5 (-2)) as (t & Ht & _).
    pose proof (filled_cell_upper (s "ACT") (s "AGT") (-6) 5 (-2) t 2 2 a Ht
                  ltac:(unfold len; simpl; lia) ltac:(unfold len; simpl; lia) Ha) as Hup.
    vm_compute in Ht. injection Ht as <-.
    change (alignment_score (-6) 5 (-2) [Both "A" "A"; Both "C" "G"]) with 3.
    exact Hup. }
  split; [exact Hrun|]. split; [exact Hopt|].
  exact (NeedlemanWunsch_returns_every_optimal _ _ _ _ _ _ _ Hrun Hopt).
Defined.

(** X7: when [NeedlemanWunsch] returns, the list is not empty. *)
Theorem NeedlemanWunsch_returns_some_pair X Y gap mtch mismatch rs :
  NeedlemanWunsch X Y gap mtch mismatch = Some (Ok rs) → rs ≠ [].
Proof.
  intros Hrun.
  destruct (NeedlemanWunsch_returns_nonempty_inputs _ _ _ _ _ _ Hrun) as [HlX HlY].
  destruct (NW_filled_spec X Y gap mtch mismatch) as (t & Ht & _).
  destruct (filled_cell_attained X Y gap mtch mismatch t (len X - 1) (len Y - 1) Ht)
    as (a & Ha & Hsc); [lia..|].
  assert (optimal gap mtch mismatch (but_last X) (but_last Y) a) as Hopt.
  { unfold optimal, but_last.
    replace (length X - 1)%nat with (Z.to_nat (len X - 1)) by (unfold len; lia).
    replace (length Y - 1)%nat with (Z.to_nat (len Y - 1)) by (unfold len; lia).
    split; [done|]. intros a' Ha'. rewrite Hsc.
    apply (filled_cell_upper X Y gap mtch mismatch t _ _ a' Ht); [lia..|done]. }
  pose proof (NeedlemanWunsch_yields _ _ _ _ _ _ _ Hrun Hopt) as Hin.
  intros ->. destruct Hin.
Qed.

Lemma NeedlemanWunsch_returns_some_pair_witness :
  NeedlemanWunsch (s "ACT") (s "AGT") (-6) 5 (-2) = Some (Ok [(s "AC", s "AG")]) ∧
  [(s "AC", s "AG")] ≠ [].
Proof.
  assert (NeedlemanWunsch (s "ACT") (s "AGT") (-6) 5 (-2)
          = Some (Ok [(s "AC", s "AG")])) as Hrun by (vm_compute; reflexivity).
  split; [exact Hrun|].
  exact (NeedlemanWunsch_returns_some_pair _ _ _ _ _ _ Hrun).
Defined.

(** ** What the local aligner returns *)

Lemma SW_filled_borders X Y gap mtch mismatch :
  ∃ t, SW_filled X Y gap mtch mismatch = Ok t ∧
       shape t (len X + 1) (len Y + 1) ∧
       (∀ i j, 0 <= i <= len X → 0 <= j <= len Y → i = 0 ∨ j = 0 → get t i j = 0) ∧
       (∀ i j, 1 <= i <= len X → 1 <= j <= len Y →
               recurrence (sentinel :: X) (sentinel :: Y) gap mtch mismatch t i j).
Proof.
  unfold SW_filled, SW_makeTable.
  assert (0 <= len X ∧ 0 <= len Y) as [HX HY] by (unfold len; lia).
  destruct (blank_rows_zero (len X + 1) (len Y + 1)) as (t0 & -> & Hs0 & Hz);
    [lia..|].
  cbn [mbind result_bind]. rewrite SW_fill_eq.
  destruct (NW_fill_spec (sentinel :: X) (sentinel :: Y) gap mtch mismatch
              t0 (len X + 1) (len Y + 1))
    as (t & -> & Hs & Hb & Hrec); [unfold len; simpl length; lia..|done|].
  exists t. split; [done|]. split; [done|]. split.
  - intros i j Hi Hj Hz'. rewrite Hb by lia. apply Hz.
  - intros i j Hi Hj. apply Hrec; lia.
Qed.

Lemma drop_take_char_at (W : str) (i i0 : Z) :
  1 <= i <= len W → 0 <= i0 <= i - 1 →
  drop (Z.to_nat i0) (take (Z.to_nat i) W)
  = drop (Z.to_nat i0) (take (Z.to_nat (i - 1)) W) ++ [char_at (sentinel :: W) i].
Proof.
  intros Hi Hi0. rewrite (take_char_at W i) by done.
  apply drop_app_le. rewrite length_take. unfold len in *. lia.
Qed.

Section TracedLocal.
Variables (X Y : str) (gap mtch mismatch : Z) (t : table).
Hypothesis Hshape : shape t (len X + 1) (len Y + 1).

Lemma traced_local_stop i j a1 a2 :
  0 <= i → 0 <= j → i = 0 ∨ j = 0 →
  traced_local X Y gap mtch mismatch t i j a1 a2 (rev a1, rev a2).
Proof.
  intros Hi Hj Hz. exists i, j, [].
  split; [lia|]. split; [lia|]. split; [done|]. split; [|split; [|done]].
  - split; simpl; symmetry; apply drop_ge; rewrite length_take; lia.
  - rewrite alignment_score_nil. lia.
Qed.

Lemma traced_local_extend col i j i' j' a1 a2 p :
  i' <= i → j' <= j →
  (∀ i0, 0 <= i0 <= i' →
     drop (Z.to_nat i0) (take (Z.to_nat i) X)
     = drop (Z.to_nat i0) (take (Z.to_nat i') X) ++ top [col]) →
  (∀ j0, 0 <= j0 <= j' →
     drop (Z.to_nat j0) (take (Z.to_nat j) Y)
     = drop (Z.to_nat j0) (take (Z.to_nat j') Y) ++ bottom [col]) →
  get t i j - get t i' j' = column_score gap mtch mismatch col →
  traced_local X Y gap mtch mismatch t i' j'
    (a1 ++ strand_top [col]) (a2 ++ strand_bottom [col]) p →
  traced_local X Y gap mtch mismatch t i j a1 a2 p.
Proof.
  intros Hii Hjj HtX HtY Hsc
    (i0 & j0 & cols & Hi0 & Hj0 & Hz & [Htop Hbot] & Hscore & ->).
  exists i0, j0, (cols ++ [col]).
  split; [lia|]. split; [lia|]. split; [done|]. split; [|split].
  - split.
    + by rewrite top_app, Htop, HtX.
    + by rewrite bottom_app, Hbot, HtY.
  - rewrite alignment_score_app, alignment_score_cons, alignment_score_nil. lia.
  - rewrite strand_top_app, strand_bottom_app, !rev_app_distr, <- !app_assoc. done.
Qed.

Lemma traced_local_diagonal i j a1 a2 p :
  1 <= i <= len X → 1 <= j <= len Y →
  get t i j - get t (i - 1) (j - 1)
  = score mtch mismatch (char_at (sentinel :: X) i) (char_at (sentinel :: Y) j) →
  traced_local X Y gap mtch mismatch t (i - 1) (j - 1)
    (a1 ++ [char_at (sentinel :: X) i]) (a2 ++ [char_at (sentinel :: Y) j]) p →
  traced_local X Y gap mtch mismatch t i j a1 a2 p.
Proof.
  intros Hi Hj Hsc.
  apply (traced_local_extend
           (Both (char_at (sentinel :: X) i) (char_at (sentinel :: Y) j)));
    [lia|lia| | |done].
  - intros i0 Hi0. by apply drop_take_char_at.
  - intros j0 Hj0. by apply drop_take_char_at.
Qed.

Lemma traced_local_up i j a1 a2 p :
  1 <= i <= len X →
  get t i j - get t (i - 1) j = gap →
  traced_local X Y gap mtch mismatch t (i - 1) j
    (a1 ++ [char_at (sentinel :: X) i]) (a2 ++ [gap_marker]) p →
  traced_local X Y gap mtch mismatch t i j a1 a2 p.
Proof.
  intros Hi Hsc.
  apply (traced_local_extend (GapInY (char_at (sentinel :: X) i)));
    [lia|lia| | |done].
  - intros i0 Hi0. by apply drop_take_char_at.
  - intros j0 Hj0. by rewrite app_nil_r.
Qed.

Lemma traced_local_left i j a1 a2 p :
  1 <= j <= len Y →
  get t i j - get t i (j - 1) = gap →
  traced_local X Y gap mtch mismatch t i (j - 1)
    (a1 ++ [gap_marker]) (a2 ++ [char_at (sentinel :: Y) j]) p →
  traced_local X Y gap mtch mismatch t i j a1 a2 p.
Proof.
  intros Hj Hsc.
  apply (traced_local_extend (GapInX (char_at (sentinel :: Y) j)));
    [lia|lia| | |done].
  - intros i0 Hi0. by rewrite app_nil_r.
  - intros j0 Hj0. by apply drop_take_char_at.
Qed.

(** Every pair the local traceback appends from a cell of the table is an
    alignment of two segments that end at the cell. *)
Lemma SW_traceBack_emits fuel :
  ∀ i j a1 a2, 0 <= i <= len X → 0 <= j <= len Y →
    emits (traced_local X Y gap mtch mismatch t i j a1 a2) (fun _ => True)
      (SW_traceBack fuel t (sentinel :: X) (sentinel :: Y) gap mtch mismatch
         i j a1 a2).
Proof.
  induction fuel as [|fuel IH]; intros i j a1 a2 Hi Hj;
    [apply emits_out_of_fuel|].
  simpl. replace ((i <? 0) || (j <? 0)) with false by lia.
  destruct ((i =? 0) || (j =? 0)) eqn:Hz.
  { apply emits_append, traced_local_stop; lia. }
  assert (1 <= i ∧ 1 <= j) as [Hi1 Hj1] by lia.
  eapply emits_bind; [apply (cell_emits X Y t Hshape); lia|intros a Ha].
  eapply emits_bind; [apply (cell_emits X Y t Hshape); lia|intros b Hb].
  eapply emits_bind; [apply (cell_emits X Y t Hshape); lia|intros c Hc].
  eapply emits_bind; [apply (cell_emits X Y t Hshape); lia|intros d Hd].
  rewrite (Ha ltac:(lia) ltac:(lia)), (Hb ltac:(lia) ltac:(lia)),
          (Hc ltac:(lia) ltac:(lia)), (Hd ltac:(lia) ltac:(lia)).
  eapply emits_bind;
    [apply (match_test_emits X Y _ i j _ _ mtch false); lia|cbv beta; intros ? ->].
  eapply emits_bind; [|intros _ _].
  { apply emits_when; intros Hb'.
    eapply emits_bind; [apply subscript_sentinel_emits; lia|intros xi ->].
    eapply emits_bind; [apply subscript_sentinel_emits; lia|intros yj ->].
    eapply emits_weaken; [|apply IH; lia]. intros p.
    apply traced_local_diagonal; [lia..|].
    unfold score. simpl in Hb'.
    destruct (Ascii.eqb _ _); [lia|]. by rewrite andb_false_r in Hb'. }
  eapply emits_bind;
    [apply (match_test_emits X Y _ i j _ _ mismatch true); lia|cbv beta; intros ? ->].
  eapply emits_bind; [|intros _ _].
  { apply emits_when; intros Hb'.
    eapply emits_bind; [apply subscript_sentinel_emits; lia|intros xi ->].
    eapply emits_bind; [apply subscript_sentinel_emits; lia|intros yj ->].
    eapply emits_weaken; [|apply IH; lia]. intros p.
    apply traced_local_diagonal; [lia..|].
    unfold score. simpl in Hb'.
    destruct (Ascii.eqb _ _); [by rewrite andb_false_r in Hb'|lia]. }
  eapply emits_bind; [|intros _ _].
  { apply emits_when; intros Hup.
    eapply emits_bind; [apply subscript_sentinel_emits; lia|intros xi ->].
    eapply emits_weaken; [|apply IH; lia]. intros p.
    apply traced_local_up; lia. }
  apply emits_when; intros Hleft.
  eapply emits_bind; [apply subscript_sentinel_emits; lia|intros yj ->].
  eapply emits_weaken; [|apply IH; lia]. intros p.
  apply traced_local_left; lia.
Qed.
End TracedLocal.

Lemma SW_start_cell X Y gap mtch mismatch :
  ∃ t pos val,
    SW_filled X Y gap mtch mismatch = Ok t ∧
    SW_locate t = Ok (pos, val) ∧
    shape t (len X + 1) (len Y + 1) ∧
    (∀ i j, 0 <= i <= len X → 0 <= j <= len Y → i = 0 ∨ j = 0 → get t i j = 0) ∧
    (∀ i j, 1 <= i <= len X → 1 <= j <= len Y →
            recurrence (sentinel :: X) (sentinel :: Y) gap mtch mismatch t i j) ∧
    0 <= fst pos <= len X ∧ 0 <= snd pos <= len Y ∧
    get t (fst pos) (snd pos) = val.
Proof.
  destruct (SW_filled_borders X Y gap mtch mismatch) as (t & Ht & Hs & Hz & Hrec).
  assert (0 <= len X ∧ 0 <= len Y) as [HX HY] by (unfold len; lia).
  destruct (SW_locate_spec t _ _ Hs) as ([pos val] & Hloc & _ & Hpos); [lia..|].
  exists t, pos, val. do 5 (split; [done|]). simpl in Hpos.
  destruct Hpos as [[-> ->]|([? ?] & _ & Hv & _)]; simpl.
  - split; [lia|]. split; [lia|]. apply Hz; lia.
  - split; [lia|]. split; [lia|]. done.
Qed.

(** X8: every pair returned by [SmithWaterman] is an alignment of a segment
    of [X] that ends at row [i] of the located position with a segment of
    [Y] that ends at its column [j]; one of the two segments starts at the
    first symbol, and the score of the alignment is the located maximum. *)
Theorem SmithWaterman_returns_segments X Y gap mtch mismatch rs p :
  SmithWaterman X Y gap mtch mismatch = Some (Ok rs) → In p rs →
  ∃ t pos val i0 j0 cols,
    SW_filled X Y gap mtch mismatch = Ok t ∧
    SW_locate t = Ok (pos, val) ∧
    0 <= i0 <= fst pos ∧ fst pos <= len X ∧
    0 <= j0 <= snd pos ∧ snd pos <= len Y ∧
    (i0 = 0 ∨ j0 = 0) ∧
    aligns (drop (Z.to_nat i0) (take (Z.to_nat (fst pos)) X))
           (drop (Z.to_nat j0) (take (Z.to_nat (snd pos)) Y)) cols ∧
    alignment_score gap mtch mismatch cols = val ∧
    p = (strand_top cols, strand_bottom cols).
Proof.
  intros Hrun Hin.
  destruct (SW_start_cell X Y gap mtch mismatch)
    as (t & pos & val & Ht & Hloc & Hs & Hz & _ & Hpi & Hpj & Hval).
  unfold SmithWaterman in Hrun. rewrite Ht, Hloc in Hrun. unfold run in Hrun.
  match type of Hrun with context [SW_traceBack ?f _ _ _ _ _ _ _ _ _ _ _] =>
    pose proof (SW_traceBack_emits X Y gap mtch mismatch t Hs f
                  (fst pos) (snd pos) [] [] Hpi Hpj) as He;
    destruct (SW_traceBack f t (sentinel :: X) (sentinel :: Y) gap mtch mismatch
                (fst pos) (snd pos) [] [] []) as [[rs' [[]|e]]|] eqn:Hc
  end; [|discriminate..].
  injection Hrun as <-.
  destruct (He _ _ _ Hc) as [(new & -> & Hnew) _].
  simpl in Hin. rewrite Forall_forall in Hnew.
  destruct (Hnew p) as (i0 & j0 & cols & Hi0 & Hj0 & Hzero & Hal & Hsc & ->);
    [by apply list_elem_of_In|].
  exists t, pos, val, i0, j0, cols.
  split; [done|]. split; [done|]. split; [lia|]. split; [lia|].
  split; [lia|]. split; [lia|]. split; [done|]. split; [done|]. split.
  - rewrite Hsc, Hval, Hz by lia. lia.
  - simpl. by rewrite !app_nil_r.
Qed.

Lemma SmithWaterman_returns_segments_witness :
  SmithWaterman (s "TAC") (s "GAC") (-6) 5 (-2) = Some (Ok [(s "TAC", s "GAC")]) ∧
  In (s "TAC", s "GAC") [(s "TAC", s "GAC")] ∧
  ∃ val cols, alignment_score (-6) 5 (-2) cols = val ∧
              (s "TAC", s "GAC") = (strand_top cols, strand_bottom cols).
Proof.
  assert (SmithWaterman (s "TAC") (s "GAC") (-6) 5 (-2)
          = Some (Ok [(s "TAC", s "GAC")])) as Hrun by (vm_compute; reflexivity).
  assert (In (s "TAC", s "GAC") [(s "TAC", s "GAC")]) as Hin by (left; reflexivity).
  split; [exact Hrun|]. split; [exact Hin|].
  destruct (SmithWaterman_returns_segments _ _ _ _ _ _ _ Hrun Hin)
    as (t & pos & val & i0 & j0 & cols & _ & _ & _ & _ & _ & _ & _ & _ & Hsc & Hp).
  exists val, cols. split; [exact Hsc|exact Hp].
Defined.

(** ** The local aligner always finds a pair *)

Lemma adds_append p : adds (append p).
Proof. intros rs rs' [= <-]. rewrite length_app. simpl. lia. Qed.

Lemma grows_length {A} (c : M A) rs rs' r :
  grows c → c rs = Some (rs', r) → (length rs <= length rs')%nat.
Proof.
  intros Hc Hrun. destruct (Hc _ _ _ Hrun) as [(new & -> & _) _].
  rewrite length_app. lia.
Qed.

Lemma adds_first (c : M unit) (f : unit → M unit) :
  adds c → grows (f tt) → adds (c ≫= f).
Proof.
  intros Hc Hf rs rs'. unfold mbind, M_bind.
  destruct (c rs) as [[rs1 [[]|e]]|] eqn:Hrun; [|discriminate..].
  intros Hrun2. pose proof (grows_length _ _ _ _ Hf Hrun2).
  pose proof (Hc _ _ Hrun). lia.
Qed.

Lemma adds_later {A} Q (P : A → Prop) (c : M A) (f : A → M unit) :
  emits Q P c → (∀ a, P a → adds (f a)) → adds (c ≫= f).
Proof.
  intros Hc Hf rs rs'. unfold mbind, M_bind.
  destruct (c rs) as [[rs1 [a|e]]|] eqn:Hrun; [|discriminate..].
  intros Hrun2. destruct (Hc _ _ _ Hrun) as [(new & -> & _) HP].
  pose proof (Hf a (HP a eq_refl) _ _ Hrun2). rewrite length_app in *. lia.
Qed.

Lemma adds_skip {A} (c : M A) (f : A → M unit) :
  grows c → (∀ a, adds (f a)) → adds (c ≫= f).
Proof. intros Hc Hf. eapply adds_later; [exact Hc|]. intros a _. apply Hf. Qed.

Section LocalAdds.
Variables (X Y : str) (gap mtch mismatch : Z) (t : table).
Hypothesis Hshape : shape t (len X + 1) (len Y + 1).
Hypothesis Hrec :
  ∀ i j, 1 <= i <= len X → 1 <= j <= len Y →
         recurrence (sentinel :: X) (sentinel :: Y) gap mtch mismatch t i j.

Ltac pass_step :=
  apply adds_skip; [repeat first [apply SW_traceBack_grows | grows_step]|intros ?].

Ltac take_char :=
  eapply (adds_later (fun _ => True));
    [apply subscript_sentinel_emits; lia|intros ? ->].

(** At an interior cell one of the four tests of the traceback holds,
    because the cell was filled with the maximum of the three candidates;
    so every path reaches row 0 or column 0 and appends a pair. *)
Lemma SW_traceBack_adds fuel :
  ∀ i j a1 a2, 0 <= i <= len X → 0 <= j <= len Y →
    adds (SW_traceBack fuel t (sentinel :: X) (sentinel :: Y) gap mtch mismatch
            i j a1 a2).
Proof.
  induction fuel as [|fuel IH]; intros i j a1 a2 Hi Hj; [by intros rs rs'|].
  simpl. replace ((i <? 0) || (j <? 0)) with false by lia.
  destruct ((i =? 0) || (j =? 0)) eqn:Hz; [apply adds_append|].
  assert (1 <= i ∧ 1 <= j) as [Hi1 Hj1] by lia.
  eapply (adds_later (fun _ => True));
    [apply (cell_emits X Y t Hshape); lia|cbv beta; intros a Ha].
  eapply (adds_later (fun _ => True));
    [apply (cell_emits X Y t Hshape); lia|cbv beta; intros b Hb].
  eapply (adds_later (fun _ => True));
    [apply (cell_emits X Y t Hshape); lia|cbv beta; intros c Hc].
  eapply (adds_later (fun _ => True));
    [apply (cell_emits X Y t Hshape); lia|cbv beta; intros d Hd].
  rewrite (Ha ltac:(lia) ltac:(lia)), (Hb ltac:(lia) ltac:(lia)),
          (Hc ltac:(lia) ltac:(lia)), (Hd ltac:(lia) ltac:(lia)).
  pose proof (Hrec i j ltac:(lia) ltac:(lia)) as Hcell.
  unfold recurrence, score in Hcell.
  set (p := get t (i - 1) (j - 1)
            + (if Ascii.eqb (char_at (sentinel :: X) i) (char_at (sentinel :: Y) j)
               then mtch else mismatch)) in Hcell.
  set (q := get t (i - 1) j + gap) in Hcell.
  set (r := get t i (j - 1) + gap) in Hcell.
  assert (get t i j = p ∨ get t i j = q ∨ get t i j = r) as [Hm|[Hm|Hm]]
    by (unfold max3 in Hcell; lia); subst p q r.
  - destruct (Ascii.eqb (char_at (sentinel :: X) i) (char_at (sentinel :: Y) j))
      eqn:Heq.
    + eapply (adds_later (fun _ => True));
        [apply (match_test_emits X Y _ i j _ _ mtch false); lia
        |cbv beta; intros ? ->].
      rewrite Heq.
      replace (get t i j - get t (i - 1) (j - 1) =? mtch) with true by lia.
      apply adds_first; [|repeat first [apply SW_traceBack_grows | grows_step]].
      simpl when. take_char. take_char. apply IH; lia.
    + do 2 pass_step.
      eapply (adds_later (fun _ => True));
        [apply (match_test_emits X Y _ i j _ _ mismatch true); lia
        |cbv beta; intros ? ->].
      rewrite Heq.
      replace (get t i j - get t (i - 1) (j - 1) =? mismatch) with true by lia.
      apply adds_first; [|repeat first [apply SW_traceBack_grows | grows_step]].
      simpl when. take_char. take_char. apply IH; lia.
  - do 4 pass_step.
    replace (get t i j - get t (i - 1) j =? gap) with true by lia.
    apply adds_first; [|repeat first [apply SW_traceBack_grows | grows_step]].
    simpl when. take_char. apply IH; lia.
  - do 5 pass_step.
    replace (get t i j - get t i (j - 1) =? gap) with true by lia.
    simpl when. take_char. apply IH; lia.
Qed.
End LocalAdds.

(** X9: whenever [SmithWaterman] returns, with whatever number of nested
    calls the interpreter allowed, the list it returns is not empty: at
    every interior cell of the filled table one of the four tests of the
    traceback holds, so the traceback reaches row 0 or column 0. *)
Theorem SmithWaterman_returns_some_pair depth X Y gap mtch mismatch rs :
  SmithWaterman_within depth X Y gap mtch mismatch = Some (Ok rs) ∨
  SmithWaterman X Y gap mtch mismatch = Some (Ok rs) →
  rs ≠ [].
Proof.
  destruct (SW_start_cell X Y gap mtch mismatch)
    as (t & pos & val & Ht & Hloc & Hs & _ & Hrec & Hpi & Hpj & _).
  assert (∀ fuel,
            run (SW_traceBack fuel t (sentinel :: X) (sentinel :: Y)
                   gap mtch mismatch (fst pos) (snd pos) [] []) = Some (Ok rs) →
            rs ≠ []) as Hrun.
  { intros fuel. unfold run.
    pose proof (SW_traceBack_adds X Y gap mtch mismatch t Hs Hrec fuel
                  (fst pos) (snd pos) [] [] Hpi Hpj) as Ha.
    destruct (SW_traceBack fuel t (sentinel :: X) (sentinel :: Y)
                gap mtch mismatch (fst pos) (snd pos) [] [] [])
      as [[rs' [[]|e]]|] eqn:Hc; [|discriminate..].
    intros [= <-] ->. specialize (Ha _ _ Hc). simpl in Ha. lia. }
  unfold SmithWaterman_within, SmithWaterman. rewrite Ht, Hloc.
  intros [H|H]; by apply Hrun in H.
Qed.

Lemma SmithWaterman_returns_some_pair_witness :
  SmithWaterman (s "TAC") (s "GAC") (-6) 5 (-2) = Some (Ok [(s "TAC", s "GAC")]) ∧
  [(s "TAC", s "GAC")] ≠ [].
Proof.
  assert (SmithWaterman (s "TAC") (s "GAC") (-6) 5 (-2)
          = Some (Ok [(s "TAC", s "GAC")])) as H by (vm_compute; reflexivity).
  split; [exact H|].
  exact (SmithWaterman_returns_some_pair 0 (s "TAC") (s "GAC") (-6) 5 (-2)
           [(s "TAC", s "GAC")] (or_intror H)).
Defined.

(** ** Empty inputs of the global aligner *)

(** X10: whenever [X] or [Y] is empty, [NeedlemanWunsch] raises the
    out-of-bounds error of its traceback, with the position
    [(len(X) - 1, len(Y) - 1)] at which the traceback was entered. *)
Theorem NeedlemanWunsch_raises_on_empty_input X Y gap mtch mismatch :
  X = [] ∨ Y = [] →
  NeedlemanWunsch X Y gap mtch mismatch
  = Some (Raise (TracebackOutOfBounds (len X - 1) (len Y - 1))).
Proof. apply NeedlemanWunsch_empty_raises. Qed.

Lemma NeedlemanWunsch_raises_on_empty_input_witness :
  (s "ACGT" = [] ∨ s "" = []) ∧
  NeedlemanWunsch (s "ACGT") (s "") (-6) 5 (-2)
  = Some (Raise (TracebackOutOfBounds (len (s "ACGT") - 1) (len (s "") - 1))).
Proof.
  assert (s "ACGT" = [] ∨ s "" = []) as H by (right; reflexivity).
  split; [exact H|].
  exact (NeedlemanWunsch_raises_on_empty_input (s "ACGT") (s "") (-6) 5 (-2) H).
Defined.

(** ** The cells of the filled local table *)

Lemma drop_take_snoc_inv (W : str) (i i0 : Z) l x :
  0 <= i0 <= i → i <= len W →
  l ++ [x] = drop (Z.to_nat i0) (take (Z.to_nat i) W) →
  i0 <= i - 1 ∧ l = drop (Z.to_nat i0) (take (Z.to_nat (i - 1)) W) ∧
  x = char_at (sentinel :: W) i.
Proof.
  intros Hi0 Hi Heq.
  assert (i0 <= i - 1) as Hlt.
  { apply (f_equal length) in Heq.
    rewrite length_app, length_drop, length_take in Heq. simpl in Heq.
    unfold len in *. lia. }
  rewrite (drop_take_char_at W i i0) in Heq by lia.
  apply app_inj_tail in Heq as [-> ->]. done.
Qed.

Lemma drop_take_nil_inv (W : str) (i i0 : Z) :
  0 <= i0 <= i → i <= len W →
  [] = drop (Z.to_nat i0) (take (Z.to_nat i) W) → i0 = i.
Proof.
  intros Hi0 Hi Heq. apply (f_equal length) in Heq.
  rewrite length_drop, length_take in Heq. simpl in Heq. unfold len in *. lia.
Qed.

Section LocalCells.
Variables (X Y : str) (gap mtch mismatch : Z) (t : table).
Hypothesis Hzero :
  ∀ i j, 0 <= i <= len X → 0 <= j <= len Y → i = 0 ∨ j = 0 → get t i j = 0.
Hypothesis Hrec :
  ∀ i j, 1 <= i <= len X → 1 <= j <= len Y →
         recurrence (sentinel :: X) (sentinel :: Y) gap mtch mismatch t i j.

Lemma local_cell_upper cols :
  gap <= 0 →
  ∀ i j i0 j0,
    0 <= i0 <= i → i <= len X → 0 <= j0 <= j → j <= len Y → i0 = 0 ∨ j0 = 0 →
    aligns (drop (Z.to_nat i0) (take (Z.to_nat i) X))
           (drop (Z.to_nat j0) (take (Z.to_nat j) Y)) cols →
    alignment_score gap mtch mismatch cols <= get t i j.
Proof.
  intros Hgap.
  induction cols as [|col cols IH] using rev_ind;
    intros i j i0 j0 Hi0 Hi Hj0 Hj Hz [Htop Hbot].
  - simpl in Htop, Hbot.
    apply drop_take_nil_inv in Htop; [|lia..].
    apply drop_take_nil_inv in Hbot; [|lia..].
    rewrite alignment_score_nil, Hzero by lia. done.
  - rewrite top_app in Htop. rewrite bottom_app in Hbot.
    rewrite alignment_score_app, alignment_score_cons, alignment_score_nil.
    destruct col as [x y|x|y]; simpl in Htop, Hbot |- *.
    + apply drop_take_snoc_inv in Htop as (Hi1 & Htop & ->); [|lia..].
      apply drop_take_snoc_inv in Hbot as (Hj1 & Hbot & ->); [|lia..].
      pose proof (IH (i - 1) (j - 1) i0 j0 ltac:(lia) ltac:(lia) ltac:(lia)
                    ltac:(lia) Hz (conj Htop Hbot)).
      rewrite (Hrec i j) by lia. unfold max3. lia.
    + apply drop_take_snoc_inv in Htop as (Hi1 & Htop & ->); [|lia..].
      rewrite app_nil_r in Hbot.
      pose proof (IH (i - 1) j i0 j0 ltac:(lia) ltac:(lia) ltac:(lia)
                    ltac:(lia) Hz (conj Htop Hbot)) as Hle.
      destruct (decide (j = 0)) as [->|Hj1].
      * rewrite Hzero in Hle |- * by lia. lia.
      * rewrite (Hrec i j) by lia. unfold max3. lia.
    + apply drop_take_snoc_inv in Hbot as (Hj1 & Hbot & ->); [|lia..].
      rewrite app_nil_r in Htop.
      pose proof (IH i (j - 1) i0 j0 ltac:(lia) ltac:(lia) ltac:(lia)
                    ltac:(lia) Hz (conj Htop Hbot)) as Hle.
      destruct (decide (i = 0)) as [->|Hi1].
      * rewrite Hzero in Hle |- * by lia. lia.
      * rewrite (Hrec i j) by lia. unfold max3. lia.
Qed.

Lemma local_cell_traced (k : nat) :
  ∀ i j a1 a2,
    0 <= i <= len X → 0 <= j <= len Y → i + j <= Z.of_nat k →
    ∃ p, traced_local X Y gap mtch mismatch t i j a1 a2 p.
Proof.
  induction k as [|k IH]; intros i j a1 a2 Hi Hj Hk.
  - eexists. apply traced_local_stop; lia.
  - destruct (decide (i = 0 ∨ j = 0)) as [Hz|Hnz].
    { eexists. apply traced_local_stop; lia. }
    pose proof (Hrec i j ltac:(lia) ltac:(lia)) as Hcell. unfold recurrence in Hcell.
    set (u := get t (i - 1) (j - 1)
              + score mtch mismatch (char_at (sentinel :: X) i)
                                    (char_at (sentinel :: Y) j)) in Hcell.
    set (v := get t (i - 1) j + gap) in Hcell.
    set (w := get t i (j - 1) + gap) in Hcell.
    assert (get t i j = u ∨ get t i j = v ∨ get t i j = w) as [Hm|[Hm|Hm]]
      by (unfold max3 in Hcell; lia); subst u v w.
    + destruct (IH (i - 1) (j - 1) (a1 ++ [char_at (sentinel :: X) i])
                  (a2 ++ [char_at (sentinel :: Y) j])) as [p Hp]; [lia..|].
      exists p. apply traced_local_diagonal; [lia..|done].
    + destruct (IH (i - 1) j (a1 ++ [char_at (sentinel :: X) i])
                  (a2 ++ [gap_marker])) as [p Hp]; [lia..|].
      exists p. apply traced_local_up; [lia..|done].
    + destruct (IH i (j - 1) (a1 ++ [gap_marker])
                  (a2 ++ [char_at (sentinel :: Y) j])) as [p Hp]; [lia..|].
      exists p. apply traced_local_left; [lia..|done].
Qed.

Lemma local_cell_attained i j :
  0 <= i <= len X → 0 <= j <= len Y →
  ∃ i0 j0 cols,
    0 <= i0 <= i ∧ 0 <= j0 <= j ∧ (i0 = 0 ∨ j0 = 0) ∧
    aligns (drop (Z.to_nat i0) (take (Z.to_nat i) X))
           (drop (Z.to_nat j0) (take (Z.to_nat j) Y)) cols ∧
    alignment_score gap mtch mismatch cols = get t i j.
Proof.
  intros Hi Hj.
  destruct (local_cell_traced (Z.to_nat (i + j)) i j [] [] Hi Hj ltac:(lia))
    as (p & i0 & j0 & cols & Hi0 & Hj0 & Hz & Hal & Hsc & _).
  exists i0, j0, cols. do 4 (split; [done|]).
  rewrite Hsc, (Hzero i0 j0) by lia. lia.
Qed.
End LocalCells.

(** X11: with a gap penalty that is not positive, every cell [(i, j)] of
    the table filled by [SmithWaterman] holds the best score of the
    alignments of the symbols [i0+1 .. i] of [X] with the symbols
    [j0+1 .. j] of [Y] over all starts [(i0, j0)] on row 0 or on column 0:
    the two segments end at the cell and one of them is a whole prefix.
    Negative values are kept, so a segment is never cut short where the
    score drops below 0. *)
Theorem local_table_cells_are_overlap_optima X Y gap mtch mismatch (i j : Z) :
  gap <= 0 → 0 <= i <= len X → 0 <= j <= len Y →
  ∃ t, SW_filled X Y gap mtch mismatch = Ok t ∧
       (∀ i0 j0 cols,
          0 <= i0 <= i → 0 <= j0 <= j → i0 = 0 ∨ j0 = 0 →
          aligns (drop (Z.to_nat i0) (take (Z.to_nat i) X))
                 (drop (Z.to_nat j0) (take (Z.to_nat j) Y)) cols →
          alignment_score gap mtch mismatch cols <= get t i j) ∧
       (∃ i0 j0 cols,
          0 <= i0 <= i ∧ 0 <= j0 <= j ∧ (i0 = 0 ∨ j0 = 0) ∧
          aligns (drop (Z.to_nat i0) (take (Z.to_nat i) X))
                 (drop (Z.to_nat j0) (take (Z.to_nat j) Y)) cols ∧
          alignment_score gap mtch mismatch cols = get t i j).
Proof.
  intros Hgap Hi Hj.
  destruct (SW_filled_borders X Y gap mtch mismatch) as (t & Ht & Hs & Hz & Hrec).
  exists t. split; [done|]. split.
  - intros i0 j0 cols Hi0 Hj0 Hz0 Hal.
    by apply (local_cell_upper X Y gap mtch mismatch t Hz Hrec cols Hgap i j i0 j0);
      try lia.
  - by apply (local_cell_attained X Y gap mtch mismatch t Hz Hrec).
Qed.

Lemma local_table_cells_are_overlap_optima_witness :
  -6 <= 0 ∧ 0 <= 2 <= len (s "TAC") ∧ 0 <= 2 <= len (s "GAC") ∧
  ∃ t, SW_filled (s "TAC") (s "GAC") (-6) 5 (-2) = Ok t ∧
       ∃ i0 j0 cols,
          0 <= i0 <= 2 ∧ 0 <= j0 <= 2 ∧ (i0 = 0 ∨ j0 = 0) ∧
          aligns (drop (Z.to_nat i0) (take (Z.to_nat 2) (s "TAC")))
                 (drop (Z.to_nat j0) (take (Z.to_nat 2) (s "GAC"))) cols ∧
          alignment_score (-6) 5 (-2) cols = get t 2 2.
Proof.
  assert (0 <= 2 <= len (s "TAC")) as H1 by (unfold len; simpl; lia).
  assert (0 <= 2 <= len (s "GAC")) as H2 by (unfold len; simpl; lia).
  split; [lia|]. split; [exact H1|]. split; [exact H2|].
  destruct (local_table_cells_are_overlap_optima (s "TAC") (s "GAC") (-6) 5 (-2)
              2 2 ltac:(lia) H1 H2) as (t & Ht & _ & Hex).
  exists t. split; [exact Ht|exact Hex].
Defined.

(** ** Exchanging the two sequences of the local aligner *)

Lemma recurrence_transpose X Y gap mtch mismatch t t' :
  (∀ i j, 0 <= i <= len X → 0 <= j <= len Y → i = 0 ∨ j = 0 → get t i j = 0) →
  (∀ j i, 0 <= j <= len Y → 0 <= i <= len X → j = 0 ∨ i = 0 → get t' j i = 0) →
  (∀ i j, 1 <= i <= len X → 1 <= j <= len Y →
          recurrence (sentinel :: X) (sentinel :: Y) gap mtch mismatch t i j) →
  (∀ j i, 1 <= j <= len Y → 1 <= i <= len X →
          recurrence (sentinel :: Y) (sentinel :: X) gap mtch mismatch t' j i) →
  ∀ i j : nat, Z.of_nat i <= len X → Z.of_nat j <= len Y →
    get t (Z.of_nat i) (Z.of_nat j) = get t' (Z.of_nat j) (Z.of_nat i).
Proof.
  intros Hz Hz' Hrec Hrec'. unfold len in *. induction i as [|i IHi].
  - intros j _ Hj. rewrite Hz, Hz' by lia. done.
  - induction j as [|j IHj]; intros Hi Hj.
    + rewrite Hz, Hz' by lia. done.
    + rewrite (Hrec (Z.of_nat (S i)) (Z.of_nat (S j))) by lia.
      rewrite (Hrec' (Z.of_nat (S j)) (Z.of_nat (S i))) by lia.
      replace (Z.of_nat (S i) - 1) with (Z.of_nat i) by lia.
      replace (Z.of_nat (S j) - 1) with (Z.of_nat j) by lia.
      rewrite (IHi j), (IHi (S j)), IHj by lia.
      unfold score. rewrite (Ascii.eqb_sym (char_at (sentinel :: Y) _)).
      unfold max3. lia.
Qed.

(** X12: the local score does not depend on the order of the two
    sequences: the table filled for [Y] and [X] is the transpose of the
    table filled for [X] and [Y], and the located maximum is the same.
    (The located position need not be the transposed one: ties are broken
    by rows first.) *)
Theorem local_table_transpose X Y gap mtch mismatch :
  ∃ t t' pos pos' val,
    SW_filled X Y gap mtch mismatch = Ok t ∧
    SW_filled Y X gap mtch mismatch = Ok t' ∧
    (∀ i j, 0 <= i <= len X → 0 <= j <= len Y → get t i j = get t' j i) ∧
    SW_locate t = Ok (pos, val) ∧ SW_locate t' = Ok (pos', val).
Proof.
  destruct (SW_filled_borders X Y gap mtch mismatch) as (t & Ht & Hs & Hz & Hrec).
  destruct (SW_filled_borders Y X gap mtch mismatch) as (t' & Ht' & Hs' & Hz' & Hrec').
  assert (0 <= len X ∧ 0 <= len Y) as [HX HY] by (unfold len; lia).
  assert (∀ i j, 0 <= i <= len X → 0 <= j <= len Y → get t i j = get t' j i) as Htr.
  { intros i j Hi Hj.
    pose proof (recurrence_transpose X Y gap mtch mismatch t t' Hz Hz' Hrec Hrec'
                  (Z.to_nat i) (Z.to_nat j)) as H.
    rewrite !Z2Nat.id in H by lia. apply H; lia. }
  destruct (SW_locate_spec t _ _ Hs) as ([pos val] & Hloc & Hle & Hpos); [lia..|].
  destruct (SW_locate_spec t' _ _ Hs') as ([pos' val'] & Hloc' & Hle' & Hpos');
    [lia..|].
  simpl in Hle, Hpos, Hle', Hpos'.
  assert (val = val') as <-.
  { apply Z.le_antisymm.
    - destruct Hpos as [[_ ->]|([Hpi Hpj] & _ & <- & _)].
      + destruct Hpos' as [[_ ->]|(_ & _ & _ & ? & _)]; lia.
      + rewrite Htr by lia. apply Hle'; [split; lia|unfold before; lia].
    - destruct Hpos' as [[_ ->]|([Hpj Hpi] & _ & <- & _)].
      + destruct Hpos as [[_ ->]|(_ & _ & _ & ? & _)]; lia.
      + rewrite <- Htr by lia. apply Hle; [split; lia|unfold before; lia]. }
  exists t, t', pos, pos', val. done.
Qed.

(** * The Bloom filter *)

(** ** Primes *)

Lemma no_divisor_spec n l :
  no_divisor n l = true ↔ ∀ i, In i l → n mod i ≠ 0.
Proof.
  induction l as [|i l IH]; simpl.
  - split; [by intros _ i []|done].
  - destruct (Z.eqb_spec (n mod i) 0) as [Hz|Hnz].
    + split; [done|]. intros H. exfalso. by apply (H i); [left|].
    + rewrite IH. split.
      * intros H j [<-|Hj]; [done|by apply H].
      * intros H j Hj. apply H. by right.
Qed.

Lemma In_xrange_odd i stop :
  In i (xrange 3 stop 2) ↔ 3 <= i < stop ∧ i mod 2 = 1.
Proof.
  unfold xrange. rewrite in_map_iff. split.
  - intros (k & <- & Hk). apply in_seq in Hk.
    assert (Z.of_nat k < (stop - 3 + 2 - 1) / 2) as Hk' by lia. clear Hk.
    Z.div_mod_to_equations. lia.
  - intros [Hi Hodd]. exists (Z.to_nat ((i - 3) / 2)). split.
    + rewrite Z2Nat.id by (Z.div_mod_to_equations; lia).
      Z.div_mod_to_equations. lia.
    + apply in_seq.
      assert ((i - 3) / 2 < (stop - 3 + 2 - 1) / 2)
        by (Z.div_mod_to_equations; lia).
      assert (0 <= (i - 3) / 2) by (Z.div_mod_to_equations; lia). lia.
Qed.

Lemma small_factor n d :
  1 < d < n → (d | n) → ∃ k, 1 < k ∧ k * k <= n ∧ (k | n).
Proof.
  intros Hd [e He].
  assert (1 < e) as He1 by nia.
  destruct (Z.le_gt_cases d e).
  - exists d. split; [lia|]. split; [nia|]. by exists e.
  - exists e. split; [lia|]. split; [nia|]. exists d. lia.
Qed.

Section Primes.
Variable int_root : Z → Z.
Hypothesis Hroot : ∀ n, 3 <= n → Z.sqrt n <= int_root n < n.

Lemma is_prime_sound n : is_prime int_root n = true → Z.prime n.
Proof.
  unfold is_prime.
  destruct (Z.ltb_spec n 2); [done|].
  destruct (Z.eqb_spec n 2) as [->|Hn2]; [intros _; apply Z.prime_2|].
  destruct (Z.eqb_spec (n mod 2) 0) as [|Hodd]; [done|].
  rewrite no_divisor_spec. intros Hnone. split; [lia|].
  intros d Hd Hdiv.
  destruct (small_factor n d Hd Hdiv) as (k & Hk1 & Hkk & Hkn).
  assert (k mod 2 = 1) as Hkodd.
  { destruct (Z.eqb_spec (k mod 2) 0) as [Hev|]; [|Z.div_mod_to_equations; lia].
    exfalso. apply Hodd. apply Z.mod_divide; [lia|].
    apply Z.divide_trans with k; [|done]. apply Z.mod_divide; [lia|done]. }
  apply (Hnone k).
  - apply In_xrange_odd. split; [|done].
    assert (k <= Z.sqrt n) by (apply Z.sqrt_le_square; lia).
    pose proof (Hroot n ltac:(lia)). Z.div_mod_to_equations. lia.
  - apply Z.mod_divide; [lia|done].
Qed.

Lemma is_prime_complete n : Z.prime n → is_prime int_root n = true.
Proof.
  intros [Hn Hnone]. unfold is_prime.
  destruct (Z.ltb_spec n 2); [lia|].
  destruct (Z.eqb_spec n 2) as [->|Hn2]; [done|].
  destruct (Z.eqb_spec (n mod 2) 0) as [Hev|Hodd].
  { exfalso. apply (Hnone 2); [lia|]. apply Z.mod_divide; [lia|done]. }
  apply no_divisor_spec. intros i Hi Hmod.
  apply In_xrange_odd in Hi as [Hi _].
  pose proof (Hroot n ltac:(lia)).
  apply (Hnone i); [lia|]. apply Z.mod_divide; [lia|done].
Qed.
End Primes.



(** ** The table sizes *)

Section GetPrimes.
Variable int_root : Z → Z.
Variables (c0 n_primes : Z).

Lemma get_primes_inv_step found cur_num :
  get_primes_inv int_root c0 n_primes found cur_num →
  len found ≠ n_primes → 0 < cur_num →
  get_primes_inv int_root c0 n_primes
    (if is_prime int_root cur_num then found ++ [cur_num] else found)
    (cur_num - 2).
Proof.
  intros (Hodd & Hle & Hlow & Hin & Hdec & Hlen) Hn Hpos.
  split; [Z.div_mod_to_equations; lia|]. split; [lia|]. split; [right; lia|].
  assert (∀ q, cur_num - 2 < q ∧ q mod 2 = 1 ↔ q = cur_num ∨ (cur_num < q ∧ q mod 2 = 1))
    as Hnext by (intros q; Z.div_mod_to_equations; lia).
  destruct (is_prime int_root cur_num) eqn:Hp.
  - split; [|split].
    + intros q. rewrite in_app_iff, Hin. simpl. split.
      * intros [(? & ? & ?)|[<-|[]]]; [|by repeat split; try lia].
        repeat split; try done; lia.
      * intros (Hq & Hqo & Hqp).
        destruct (proj1 (Hnext q) (conj (proj1 Hq) Hqo)) as [->|[? ?]];
          [right; by left|left]. repeat split; try done; lia.
    + intros i j p q Hij Hi Hj.
      apply lookup_app_Some in Hj as [Hj|[Hjl Hj]].
      * rewrite lookup_app_l in Hi by (apply lookup_lt_Some in Hj; lia).
        by apply (Hdec i j).
      * assert (j = length found) as ->
          by (apply lookup_lt_Some in Hj; simpl in Hj; lia).
        rewrite Nat.sub_diag in Hj. injection Hj as <-.
        rewrite lookup_app_l in Hi by lia.
        assert (In p found) as Hp' by (apply list_elem_of_In; by eapply list_elem_of_lookup_2).
        apply Hin in Hp'. lia.
    + intros Hn0. specialize (Hlen Hn0). unfold len in *.
      rewrite length_app. simpl. lia.
  - split; [|done]. intros q. rewrite Hin. split.
    + intros (? & ? & ?). repeat split; try done; lia.
    + intros (Hq & Hqo & Hqp).
      destruct (proj1 (Hnext q) (conj (proj1 Hq) Hqo)) as [->|[? ?]];
        [congruence|]. repeat split; try done; lia.
Qed.

Lemma get_primes_loop_spec fuel :
  ∀ found cur_num,
    get_primes_inv int_root c0 n_primes found cur_num →
    (0 < fuel)%nat → cur_num < Z.of_nat fuel →
    ∃ l cur_num',
      get_primes_loop int_root fuel found cur_num n_primes = Some l ∧
      get_primes_inv int_root c0 n_primes l cur_num' ∧
      (len l = n_primes ∨ cur_num' <= 0).
Proof.
  induction fuel as [|fuel IH]; intros found cur_num Hinv Hpos Hfuel; [lia|].
  simpl.
  destruct (negb (len found =? n_primes) && (0 <? cur_num)) eqn:Hcond.
  - apply IH; [|lia..]. apply get_primes_inv_step; [done|lia..].
  - exists found, cur_num. split; [done|]. split; [done|]. lia.
Qed.
End GetPrimes.

Lemma get_primes_found int_root start n :
  ∃ l cur_num,
    get_primes int_root start n = Some l ∧
    get_primes_inv int_root (if start mod 2 =? 0 then start - 1 else start) n
      l cur_num ∧
    (len l = n ∨ cur_num <= 0).
Proof.
  unfold get_primes.
  set (c0 := if start mod 2 =? 0 then start - 1 else start).
  apply (get_primes_loop_spec int_root c0 n); [|lia..].
  split; [|split; [lia|split; [by left|split; [|split]]]].
  - subst c0. destruct (Z.eqb_spec (start mod 2) 0); Z.div_mod_to_equations; lia.
  - intros q. simpl. split; [done|]. lia.
  - intros i j p q _ Hi. by rewrite lookup_nil in Hi.
  - unfold len. simpl. lia.
Qed.

(** X14: a list returned by [get_primes(start, n_primes)] is a strictly
    decreasing list of odd numbers between 1 and [start] that pass
    [is_prime]; for [n_primes >= 0] it has at most [n_primes] elements;
    and it skips no candidate: an odd number up to [start] that passes
    [is_prime] is in the list as soon as the list is shorter than
    [n_primes] or holds a smaller number.  (All elements being odd, 2 is
    never returned.)  Here [int_root] gives the values that
    [int(n ** 0.5)] takes at the candidates of the call; of a call in
    which that expression has no value, and which so returns no list,
    nothing is said. *)
Theorem get_primes_spec int_root start n l :
  get_primes int_root start n = Some l →
  decreasing l ∧
  (∀ q, In q l → 0 < q <= start ∧ q mod 2 = 1 ∧ is_prime int_root q = true) ∧
  (0 <= n → len l <= n) ∧
  (∀ q, 0 < q <= start → q mod 2 = 1 → is_prime int_root q = true →
        len l ≠ n ∨ (∃ p, In p l ∧ p <= q) → In q l).
Proof.
  destruct (get_primes_found int_root start n)
    as (l' & cur & Hrun & (Hodd & Hle & Hlow & Hin & Hdec & Hlen) & Hexit).
  rewrite Hrun. intros [= ->].
  set (c0 := if start mod 2 =? 0 then start - 1 else start) in *.
  assert (c0 <= start) as Hc0 by (subst c0; destruct (start mod 2 =? 0); lia).
  assert (∀ q, q <= start → q mod 2 = 1 → q <= c0) as Hodd_le.
  { intros q Hq Hqo. subst c0.
    destruct (Z.eqb_spec (start mod 2) 0); Z.div_mod_to_equations; lia. }
  split; [done|]. split; [|split; [done|]].
  - intros q Hq. apply Hin in Hq as (Hq & Hqo & Hqp).
    split; [|done].
    destruct Hlow as [->|Hcur].
    + exfalso. by apply (proj2 (Hin q)).
    + split; [Z.div_mod_to_equations; lia|lia].
  - intros q Hq Hqo Hqp Hwhy. apply Hin. split; [|done].
    split; [|by apply Hodd_le; lia].
    destruct Hwhy as [Hne|(p & Hp & Hpq)].
    + destruct Hexit; [done|lia].
    + apply Hin in Hp. lia.
Qed.

Lemma get_primes_spec_witness :
  get_primes Z.sqrt 100 4 = Some [97; 89; 83; 79] ∧
  decreasing [97; 89; 83; 79] ∧
  (0 <= 4 → len [97; 89; 83; 79] <= 4) ∧
  (len [97; 89; 83; 79] ≠ 4 ∨ (∃ p, In p [97; 89; 83; 79] ∧ p <= 83) →
   In 83 [97; 89; 83; 79]).
Proof.
  assert (get_primes Z.sqrt 100 4 = Some [97; 89; 83; 79]) as H
    by (vm_compute; reflexivity).
  destruct (get_primes_spec Z.sqrt 100 4 [97; 89; 83; 79] H)
    as (Hdec & _ & Hlen & Hall).
  split; [exact H|]. split; [exact Hdec|]. split; [exact Hlen|].
  apply Hall; [lia|reflexivity|vm_compute; reflexivity].
Defined.

(** ** The filter *)

Lemma indices_of_pos h ps :
  Forall (fun p => 0 < p) ps → indices_of h ps = Value (bins h ps).
Proof.
  induction 1 as [|p ps Hp _ IH]; [done|].
  simpl. destruct (Z.eqb_spec p 0); [lia|]. by rewrite IH.
Qed.

Lemma bins_in_range h ps (rows : list (list bool)) :
  Forall2 (fun p row => 0 < p ∧ len row = p) ps rows →
  Forall2 (fun idx row => 0 <= idx < len row) (bins h ps) rows.
Proof.
  induction 1 as [|p row ps rows [Hp Hlen] _ IH]; simpl; constructor; [|done].
  rewrite Hlen. by apply Z.mod_pos_bound.
Qed.

Lemma sized_pos f : sized f → Forall (fun p => 0 < p) (primes f).
Proof.
  unfold sized. induction 1 as [|p row ps rows [Hp _] _ IH]; by constructor.
Qed.

Lemma subscript_middle {A} (pre : list A) x suf :
  subscript (pre ++ x :: suf) (len pre) = Ok x.
Proof.
  rewrite (subscript_ok _ _ x).
  - unfold len. by rewrite Nat2Z.id, nth_middle.
  - unfold len. rewrite length_app. simpl. lia.
Qed.

Lemma store_middle {A} (pre : list A) x y suf :
  store (pre ++ x :: suf) (len pre) y = Ok (pre ++ y :: suf).
Proof.
  unfold store, len. rewrite length_app. simpl length.
  destruct (Z.ltb_spec (Z.of_nat (length pre)) 0); [lia|].
  destruct (Z.ltb_spec (Z.of_nat (length pre)) 0); [lia|].
  destruct (Z.ltb_spec (Z.of_nat (length pre))
              (Z.of_nat (length pre + S (length suf)))); [|lia].
  rewrite Nat2Z.id.
  replace (length pre) with (length pre + 0)%nat at 1 by lia.
  by rewrite insert_app_r.
Qed.

Lemma store_in_range {A} (l : list A) i y :
  0 <= i < len l → store l i y = Ok (<[Z.to_nat i := y]> l).
Proof.
  intros Hi. unfold store.
  destruct (Z.ltb_spec i 0); [lia|]. destruct (Z.ltb_spec i 0); [lia|].
  destruct (Z.ltb_spec i (len l)); [done|lia].
Qed.

Lemma add_loop_spec idxs :
  ∀ pre suf,
    Forall2 (fun idx (row : list bool) => 0 <= idx < len row) idxs suf →
    add_loop (len pre) idxs (pre ++ suf) = Value (pre ++ set_bins idxs suf).
Proof.
  induction idxs as [|idx idxs IH]; intros pre suf Hr.
  - apply Forall2_nil_inv_l in Hr as ->. done.
  - apply Forall2_cons_inv_l in Hr as (row & suf' & Hidx & Hr & ->).
    simpl. rewrite subscript_middle. simpl.
    rewrite store_in_range by done. simpl.
    rewrite store_middle. simpl.
    replace (len pre + 1) with (len (pre ++ [<[Z.to_nat idx := true]> row]))
      by (unfold len; rewrite length_app; simpl; lia).
    replace (pre ++ <[Z.to_nat idx := true]> row :: suf')
      with ((pre ++ [<[Z.to_nat idx := true]> row]) ++ suf')
      by (by rewrite <- app_assoc).
    rewrite IH by done. by rewrite <- app_assoc.
Qed.

Lemma count_loop_spec idxs :
  ∀ pre suf c,
    Forall2 (fun idx (row : list bool) => 0 <= idx < len row) idxs suf →
    count_loop (len pre) idxs (pre ++ suf) c = Value (c + hits idxs suf).
Proof.
  induction idxs as [|idx idxs IH]; intros pre suf c Hr.
  - apply Forall2_nil_inv_l in Hr as ->. simpl. f_equal. lia.
  - apply Forall2_cons_inv_l in Hr as (row & suf' & Hidx & Hr & ->).
    simpl. rewrite subscript_middle. simpl.
    rewrite (subscript_ok row idx false) by done. simpl.
    replace (len pre + 1) with (len (pre ++ [row]))
      by (unfold len; rewrite length_app; simpl; lia).
    replace (pre ++ row :: suf') with ((pre ++ [row]) ++ suf')
      by (by rewrite <- app_assoc).
    rewrite IH by done.
    f_equal. destruct (nth (Z.to_nat idx) row false); lia.
Qed.

Lemma hits_bounds idxs rows :
  0 <= hits idxs rows <= len idxs.
Proof.
  unfold len. revert rows. induction idxs as [|idx idxs IH]; intros [|row rows];
    simpl; try lia.
  specialize (IH rows). destruct (nth (Z.to_nat idx) row false); lia.
Qed.

Lemma hits_full idxs rows :
  length idxs = length rows →
  hits idxs rows = len idxs ↔ all_set idxs rows.
Proof.
  unfold len, all_set. revert rows.
  induction idxs as [|idx idxs IH]; intros [|row rows] Hlen; simpl in *;
    try discriminate.
  - split; [constructor|done].
  - pose proof (hits_bounds idxs rows) as Hb. unfold len in Hb.
    specialize (IH rows ltac:(lia)).
    destruct (nth (Z.to_nat idx) row false) eqn:Hbit.
    + split.
      * intros H. constructor; [done|]. apply IH. lia.
      * intros H. apply Forall2_cons_1 in H as [_ H]. apply IH in H. lia.
    + split; [lia|]. intros H. apply Forall2_cons_1 in H as [H _]. congruence.
Qed.

Lemma nth_insert_true (row : list bool) i k :
  (i < length row)%nat →
  nth k (<[i := true]> row) false = true ↔ nth k row false = true ∨ k = i.
Proof.
  intros Hi. rewrite !nth_lookup. destruct (decide (k = i)) as [->|Hne].
  - rewrite list_lookup_insert_eq by done. simpl. split; auto.
  - rewrite list_lookup_insert_ne by done. split; [auto|]. by intros [?|?].
Qed.

Lemma all_set_set_bins idxs idys rows :
  Forall2 (fun idy (row : list bool) => 0 <= idy < len row) idys rows →
  length idxs = length rows →
  all_set idxs (set_bins idys rows) ↔
  ∀ (k : nat) idx idy row,
    idxs !! k = Some idx → idys !! k = Some idy → rows !! k = Some row →
    nth (Z.to_nat idx) row false = true ∨ Z.to_nat idx = Z.to_nat idy.
Proof.
  unfold all_set, set_bins. intros Hr. revert idxs.
  induction Hr as [|idy row idys rows Hidy _ IH]; intros [|idx idxs] Hlen;
    simpl in *; try discriminate.
  - split; [by intros _ k ? ? ? ?|constructor].
  - rewrite Forall2_cons, (IH idxs) by lia.
    rewrite nth_insert_true by (unfold len in *; lia).
    split.
    + intros [Hhd Htl] [|k] idx' idy' row'; simpl.
      * by intros [= <-] [= <-] [= <-].
      * apply Htl.
    + intros H. split.
      * by apply (H O).
      * intros k. apply (H (S k)).
Qed.

Lemma set_bins_sized ps idxs rows :
  Forall2 (fun p (row : list bool) => 0 < p ∧ len row = p) ps rows →
  length idxs = length rows →
  Forall2 (fun p (row : list bool) => 0 < p ∧ len row = p) ps (set_bins idxs rows).
Proof.
  unfold set_bins. intros Hs. revert idxs.
  induction Hs as [|p row ps rows [Hp Hlen] _ IH]; intros [|idx idxs] Hl;
    simpl in *; try discriminate; constructor.
  - unfold len in *. by rewrite length_insert.
  - apply IH. lia.
Qed.

Section Filter.
Context {item : Type} (hash : item → Z).

Lemma add_sized f x :
  sized f →
  add hash f x
  = Value {| n_tables := n_tables f; primes := primes f;
             tables := set_bins (bins (hash x) (primes f)) (tables f) |}.
Proof.
  intros Hs. unfold add, get_indices.
  rewrite indices_of_pos by (by apply sized_pos). simpl.
  pose proof (add_loop_spec (bins (hash x) (primes f)) [] (tables f)
                (bins_in_range _ _ _ Hs)) as H.
  simpl in H. change (len []) with 0 in H. by rewrite H.
Qed.

Lemma contains_sized f x :
  sized f →
  contains hash f x
  = Value (hits (bins (hash x) (primes f)) (tables f) =? n_tables f).
Proof.
  intros Hs. unfold contains, get_indices.
  rewrite indices_of_pos by (by apply sized_pos). simpl.
  pose proof (count_loop_spec (bins (hash x) (primes f)) [] (tables f) 0
                (bins_in_range _ _ _ Hs)) as H.
  simpl in H. change (len []) with 0 in H. by rewrite H.
Qed.

Lemma bins_length h (f : BloomFilter) :
  sized f → length (bins h (primes f)) = length (tables f).
Proof.
  intros Hs. unfold bins. rewrite length_map. by eapply Forall2_length.
Qed.
End Filter.

Lemma get_primes_positive int_root start n l :
  get_primes int_root start n = Some l → Forall (fun p => 0 < p) l.
Proof.
  intros Hrun.
  destruct (get_primes_found int_root start n)
    as (l' & cur & Hrun' & (Hodd & _ & Hlow & Hin & _) & _).
  rewrite Hrun in Hrun'. injection Hrun' as <-.
  apply Forall_forall. intros q Hq. apply list_elem_of_In, Hin in Hq.
  destruct Hlow as [->|?].
  - exfalso. destruct Hq as (Hq & Hqo & Hqp).
    by apply (proj2 (Hin q) (conj Hq (conj Hqo Hqp))).
  - Z.div_mod_to_equations. lia.
Qed.

Lemma blank_tables_sized ps :
  Forall (fun p => 0 < p) ps →
  Forall2 (fun p (row : list bool) => 0 < p ∧ len row = p) ps
    (map (fun b => replicate (Z.to_nat b) false) ps).
Proof.
  induction 1 as [|p ps Hp _ IH]; simpl; constructor; [|done].
  split; [done|]. unfold len. rewrite length_replicate. lia.
Qed.

Lemma hits_blank idxs (rows : list (list bool)) :
  Forall (Forall (fun b => b = false)) rows → hits idxs rows = 0.
Proof.
  intros Hrows. revert idxs.
  induction Hrows as [|row rows Hrow _ IH]; intros [|idx idxs]; simpl; try done.
  rewrite IH. rewrite nth_lookup.
  destruct (row !! Z.to_nat idx) as [b|] eqn:Hb; [|done]. simpl.
  rewrite Forall_forall in Hrow.
  by rewrite (Hrow b (list_elem_of_lookup_2 _ _ _ Hb)).
Qed.

Lemma BloomFilter_init_built int_root n_bins n :
  ∃ f, BloomFilter_init int_root n_bins n = Some f ∧
       get_primes int_root n_bins n = Some (primes f) ∧
       n_tables f = n ∧ sized f ∧
       Forall (Forall (fun b => b = false)) (tables f).
Proof.
  destruct (get_primes_found int_root n_bins n) as (l & cur & Hrun & _).
  unfold BloomFilter_init. rewrite Hrun. simpl. eexists. split; [reflexivity|].
  simpl. split; [done|]. split; [done|]. split.
  - unfold sized. simpl. apply blank_tables_sized.
    by eapply get_primes_positive.
  - apply Forall_forall. intros row Hrow.
    apply list_elem_of_fmap in Hrow as (p & -> & _).
    apply Forall_forall. intros b Hb. by apply elem_of_replicate in Hb as [-> _].
Qed.

(** X15: a filter built by [BloomFilter(n_bins, n_tables)] keeps
    [n_tables], its primes are the list [get_primes(n_bins, n_tables)]
    returned, every prime is positive and is the size of its table, and
    every bin of every table is [False]. *)
Theorem BloomFilter_init_spec int_root n_bins n f :
  BloomFilter_init int_root n_bins n = Some f →
  get_primes int_root n_bins n = Some (primes f) ∧
  n_tables f = n ∧ sized f ∧
  tables f = map (fun p => replicate (Z.to_nat p) false) (primes f) ∧
  Forall (Forall (fun b => b = false)) (tables f).
Proof.
  destruct (BloomFilter_init_built int_root n_bins n)
    as (f' & Hf & Hp & Hn & Hs & Hblank).
  rewrite Hf. intros [= <-]. split; [done|]. split; [done|]. split; [done|].
  split; [|done].
  unfold BloomFilter_init in Hf. rewrite Hp in Hf. simpl in Hf.
  by injection Hf as <-.
Qed.

Lemma BloomFilter_init_spec_witness :
  BloomFilter_init Z.sqrt 12 2 = Some filter_12_2 ∧
  get_primes Z.sqrt 12 2 = Some [11; 7] ∧
  n_tables filter_12_2 = 2 ∧ sized filter_12_2 ∧
  Forall (Forall (fun b => b = false)) (tables filter_12_2).
Proof.
  assert (BloomFilter_init Z.sqrt 12 2 = Some filter_12_2) as H
    by (vm_compute; reflexivity).
  destruct (BloomFilter_init_spec Z.sqrt 12 2 filter_12_2 H)
    as (Hp & Hn & Hs & _ & Hblank).
  split; [exact H|]. split; [exact Hp|]. split; [exact Hn|].
  split; [exact Hs|exact Hblank].
Defined.

Section FilterProperties.
Context {item : Type} (hash : item → Z).

(** X16: on a filter whose tables have the sizes of its positive primes,
    [add] and [__contains__] raise nothing, and [add] keeps the primes,
    [n_tables] and the sizes of the tables. *)
Theorem filter_methods_raise_nothing f x :
  sized f →
  (∃ f', add hash f x = Value f' ∧ sized f' ∧
         primes f' = primes f ∧ n_tables f' = n_tables f) ∧
  (∃ b, contains hash f x = Value b).
Proof.
  intros Hs. split.
  - eexists. split; [by apply add_sized|]. split; [|done].
    unfold sized. simpl. apply set_bins_sized; [done|by apply bins_length].
  - eexists. by apply contains_sized.
Qed.

(** X17: no false negatives.  When the filter has as many primes as
    [n_tables], an item is in the filter right after it was added. *)
Theorem added_item_is_contained f x :
  sized f → len (primes f) = n_tables f →
  ∃ f', add hash f x = Value f' ∧ contains hash f' x = Value true.
Proof.
  intros Hs Hn. eexists. split; [by apply add_sized|].
  assert (sized {| n_tables := n_tables f; primes := primes f;
                   tables := set_bins (bins (hash x) (primes f)) (tables f) |})
    as Hs'.
  { unfold sized. simpl. apply set_bins_sized; [done|by apply bins_length]. }
  rewrite (contains_sized hash _ x Hs'). simpl. do 2 f_equal.
  apply Z.eqb_eq. rewrite <- Hn.
  replace (len (primes f)) with (len (bins (hash x) (primes f)))
    by (unfold len, bins; by rewrite length_map).
  apply hits_full.
  - unfold set_bins. rewrite length_zip_with, bins_length by done. lia.
  - apply all_set_set_bins; [by apply bins_in_range|by apply bins_length|].
    intros k idx idy row Hidx Hidy _. right. congruence.
Qed.

(** X18: adding never removes.  When the filter has at most [n_tables]
    primes, an item that is in the filter is still in it after any other
    item is added. *)
Theorem contained_item_stays f x y :
  sized f → len (primes f) <= n_tables f →
  contains hash f x = Value true →
  ∃ f', add hash f y = Value f' ∧ contains hash f' x = Value true.
Proof.
  intros Hs Hn Hx. eexists. split; [by apply add_sized|].
  assert (sized {| n_tables := n_tables f; primes := primes f;
                   tables := set_bins (bins (hash y) (primes f)) (tables f) |})
    as Hs'.
  { unfold sized. simpl. apply set_bins_sized; [done|by apply bins_length]. }
  rewrite (contains_sized hash _ x Hs'). simpl.
  rewrite (contains_sized hash f x Hs) in Hx. injection Hx as Hx.
  apply Z.eqb_eq in Hx.
  pose proof (hits_bounds (bins (hash x) (primes f)) (tables f)) as Hb.
  assert (len (bins (hash x) (primes f)) = len (primes f)) as Hlen
    by (unfold len, bins; by rewrite length_map).
  assert (all_set (bins (hash x) (primes f)) (tables f)) as Hall.
  { apply hits_full; [by apply bins_length|]. lia. }
  do 2 f_equal. apply Z.eqb_eq.
  replace (n_tables f) with (len (bins (hash x) (primes f))) by lia.
  apply hits_full.
  - unfold set_bins. rewrite length_zip_with, !bins_length by done. lia.
  - apply all_set_set_bins; [by apply bins_in_range|by apply bins_length|].
    intros k idx idy row Hidx Hidy Hrow. left.
    unfold all_set in Hall.
    by apply (Forall2_lookup_lr _ _ _ k idx row Hall).
Qed.

(** X19: when the filter has fewer primes than [n_tables] (too few odd
    primes up to [n_bins]), no item is ever reported, added or not: the
    count of set bins cannot reach [n_tables]. *)
Theorem short_filter_contains_nothing f x :
  sized f → len (primes f) < n_tables f →
  contains hash f x = Value false.
Proof.
  intros Hs Hn. rewrite (contains_sized hash f x Hs). do 2 f_equal.
  apply Z.eqb_neq.
  pose proof (hits_bounds (bins (hash x) (primes f)) (tables f)) as Hb.
  assert (len (bins (hash x) (primes f)) = len (primes f)) as Hlen
    by (unfold len, bins; by rewrite length_map).
  lia.
Qed.

(** X20: a filter just built reports no item, unless it was built with
    [n_tables = 0]: then it has no table and reports every item. *)
Theorem new_filter_contains int_root n_bins n f x :
  BloomFilter_init int_root n_bins n = Some f →
  contains hash f x = Value (0 =? n).
Proof.
  destruct (BloomFilter_init_built int_root n_bins n)
    as (f' & Hf & _ & Hn & Hs & Hblank).
  rewrite Hf. intros [= <-].
  by rewrite (contains_sized hash f' x Hs), hits_blank, Hn.
Qed.

(** X21: false positives.  When the filter has as many primes as
    [n_tables], [x] is in the filter after [y] was added exactly when, in
    every table, the bin of [x] was set before or is the bin of [y]. *)
Theorem contains_after_add f x y :
  sized f → len (primes f) = n_tables f →
  ∃ f', add hash f y = Value f' ∧
        (contains hash f' x = Value true ↔
         ∀ (k : nat) p row,
           primes f !! k = Some p → tables f !! k = Some row →
           nth (Z.to_nat (hash x mod p)) row false = true ∨
           hash x mod p = hash y mod p).
Proof.
  intros Hs Hn. eexists. split; [by apply add_sized|].
  assert (sized {| n_tables := n_tables f; primes := primes f;
                   tables := set_bins (bins (hash y) (primes f)) (tables f) |})
    as Hs'.
  { unfold sized. simpl. apply set_bins_sized; [done|by apply bins_length]. }
  rewrite (contains_sized hash _ x Hs'). simpl.
  assert (len (bins (hash x) (primes f)) = n_tables f) as Hlen
    by (unfold len, bins in *; by rewrite length_map).
  rewrite <- Hlen.
  split.
  - intros [= Heq]. apply Z.eqb_eq in Heq.
    apply hits_full in Heq;
      [|unfold set_bins; rewrite length_zip_with, !bins_length by done; lia].
    pose proof (proj1 (all_set_set_bins _ _ _
                         (bins_in_range (hash y) _ _ Hs)
                         (bins_length (hash x) f Hs)) Heq) as Hbits.
    intros k p row Hp Hrow.
    destruct (Hbits k (hash x mod p) (hash y mod p) row) as [?|Hsame];
      [unfold bins; by rewrite list_lookup_fmap, Hp..|done|by left|right].
    pose proof (sized_pos f Hs) as Hpos. rewrite Forall_forall in Hpos.
    pose proof (Hpos p (list_elem_of_lookup_2 _ _ _ Hp)).
    pose proof (Z.mod_pos_bound (hash x) p ltac:(lia)).
    pose proof (Z.mod_pos_bound (hash y) p ltac:(lia)). lia.
  - intros Hall. do 2 f_equal. apply Z.eqb_eq. apply hits_full.
    { unfold set_bins. rewrite length_zip_with, !bins_length by done. lia. }
    apply all_set_set_bins; [by apply bins_in_range|by apply bins_length|].
    intros k idx idy row Hidx Hidy Hrow.
    unfold bins in Hidx, Hidy. rewrite list_lookup_fmap in Hidx, Hidy.
    destruct (primes f !! k) as [p|] eqn:Hp; [|done].
    simpl in Hidx, Hidy. injection Hidx as <-. injection Hidy as <-.
    destruct (Hall k p row Hp Hrow) as [?|Heq]; [by left|right]. by rewrite Heq.
Qed.
End FilterProperties.

(** ** Instances on two small filters *)

Lemma filter_12_2_sized : sized filter_12_2.
Proof. repeat constructor. Qed.

Lemma filter_3_4_sized : sized filter_3_4.
Proof. repeat constructor. Qed.

Lemma filter_methods_raise_nothing_witness :
  sized filter_12_2 ∧
  (∃ f', add (fun x : Z => x) filter_12_2 25 = Value f' ∧ sized f' ∧
         primes f' = primes filter_12_2 ∧ n_tables f' = n_tables filter_12_2) ∧
  (∃ b, contains (fun x : Z => x) filter_12_2 25 = Value b).
Proof.
  split; [exact filter_12_2_sized|].
  exact (filter_methods_raise_nothing (fun x : Z => x) filter_12_2 25
           filter_12_2_sized).
Defined.

Lemma added_item_is_contained_witness :
  sized filter_12_2 ∧ len (primes filter_12_2) = n_tables filter_12_2 ∧
  ∃ f', add (fun x : Z => x) filter_12_2 25 = Value f' ∧
        contains (fun x : Z => x) f' 25 = Value true.
Proof.
  split; [exact filter_12_2_sized|]. split; [reflexivity|].
  exact (added_item_is_contained (fun x : Z => x) filter_12_2 25
           filter_12_2_sized eq_refl).
Defined.

Lemma contained_item_stays_witness :
  sized filter_12_2_with_25 ∧
  len (primes filter_12_2_with_25) <= n_tables filter_12_2_with_25 ∧
  contains (fun x : Z => x) filter_12_2_with_25 25 = Value true ∧
  ∃ f', add (fun x : Z => x) filter_12_2_with_25 40 = Value f' ∧
        contains (fun x : Z => x) f' 25 = Value true.
Proof.
  assert (sized filter_12_2_with_25) as Hs by repeat constructor.
  assert (len (primes filter_12_2_with_25) <= n_tables filter_12_2_with_25) as Hle
    by (unfold len; simpl; lia).
  assert (contains (fun x : Z => x) filter_12_2_with_25 25 = Value true) as Hc
    by reflexivity.
  split; [exact Hs|]. split; [exact Hle|]. split; [exact Hc|].
  exact (contained_item_stays (fun x : Z => x) filter_12_2_with_25 25 40 Hs Hle Hc).
Defined.

Lemma short_filter_contains_nothing_witness :
  BloomFilter_init Z.sqrt 3 4 = Some filter_3_4 ∧
  sized filter_3_4 ∧ len (primes filter_3_4) < n_tables filter_3_4 ∧
  contains (fun x : Z => x) filter_3_4 25 = Value false.
Proof.
  split; [reflexivity|]. split; [exact filter_3_4_sized|].
  assert (len (primes filter_3_4) < n_tables filter_3_4) as H
    by (unfold len; simpl; lia).
  split; [exact H|].
  exact (short_filter_contains_nothing (fun x : Z => x) filter_3_4 25
           filter_3_4_sized H).
Defined.

Lemma new_filter_contains_witness :
  BloomFilter_init Z.sqrt 12 2 = Some filter_12_2 ∧
  contains (fun x : Z => x) filter_12_2 25 = Value false ∧
  BloomFilter_init Z.sqrt 12 0 = Some {| n_tables := 0; primes := []; tables := [] |} ∧
  contains (fun x : Z => x) {| n_tables := 0; primes := []; tables := [] |} 25
  = Value true.
Proof.
  assert (BloomFilter_init Z.sqrt 12 2 = Some filter_12_2) as H
    by (vm_compute; reflexivity).
  assert (BloomFilter_init Z.sqrt 12 0
          = Some {| n_tables := 0; primes := []; tables := [] |}) as H0
    by (vm_compute; reflexivity).
  split; [exact H|]. split.
  - exact (new_filter_contains (fun x : Z => x) Z.sqrt 12 2 filter_12_2 25 H).
  - split; [exact H0|].
    exact (new_filter_contains (fun x : Z => x) Z.sqrt 12 0 _ 25 H0).
Defined.

Lemma contains_after_add_witness :
  sized filter_12_2 ∧ len (primes filter_12_2) = n_tables filter_12_2 ∧
  ∃ f', add (fun x : Z => x) filter_12_2 25 = Value f' ∧
        (contains (fun x : Z => x) f' 102 = Value true ↔
         ∀ (k : nat) p row,
           primes filter_12_2 !! k = Some p → tables filter_12_2 !! k = Some row →
           nth (Z.to_nat (102 mod p)) row false = true ∨ 102 mod p = 25 mod p).
Proof.
  split; [exact filter_12_2_sized|]. split; [reflexivity|].
  exact (contains_after_add (fun x : Z => x) filter_12_2 102 25
           filter_12_2_sized eq_refl).
Defined.
